(** * vibedb: schema model, identity reconciliation, relationship deriver,
      command history and the connection tool

    A shallow embedding of the schema editor: the data model of
    [src/types/index.ts], the identity functions and the mutation handlers of
    the [App] component, and the graph derivation and pointer handlers of the
    [SchemaGraph] component.

    Conventions of the embedding.
    - An optional property ([id?], [x?], [foreignKeyTable?]) is an [option];
      [None] stands for both [undefined] and [null].
    - Strings are sequences of bytes, read as UTF-8.
    - Coordinates are JavaScript numbers, NaN and the infinities included
      (-0 is not told from 0).  The number type [num] is a parameter with
      the one test the handlers depend on, [Number.isFinite] (class
      [JsNumber]).
      The midpoint of the N-to-N branch is a parameter of the call: its sum
      tells an absent operand (the sum is NaN) from a null one (it counts as
      0), which [None] does not, so the handler is modelled for every value
      the call may compute.
    - [Date.now()] and [window.confirm] are inputs of the handlers: every
      call site receives its reading as an argument.
    - The module-level [idCounter] is threaded through a small state monad.
    - A React state setter is a functional record update; a handler receives
      the state of the render it closes over and returns the next state.
    - [JSON.parse(JSON.stringify(schema))] is [jsonSchema]: a deep copy in
      which a coordinate that is not a finite number has become [null];
      in-place mutation of the copy is written as a functional update. *)

From Stdlib Require Import Ascii.
From stdpp Require Import base option list strings gmap pretty.

Local Open Scope string_scope.
Local Open Scope list_scope.

(** ** Data model ([src/types/index.ts]) *)

Module Column.
Record t := mk {
  id : option string;
  name : string;
  type : string;
  isPrimaryKey : bool;
  isForeignKey : bool;
  foreignKeyTable : option string;
  foreignKeyColumn : option string;
  constraints : list string
}.
(** [{ ...column, id: i }] *)
Definition with_id (c : t) (i : option string) : t :=
  mk i (name c) (type c) (isPrimaryKey c) (isForeignKey c)
     (foreignKeyTable c) (foreignKeyColumn c) (constraints c).
(** [column.foreignKeyTable = n] *)
Definition with_foreignKeyTable (c : t) (n : option string) : t :=
  mk (id c) (name c) (type c) (isPrimaryKey c) (isForeignKey c)
     n (foreignKeyColumn c) (constraints c).
End Column.

Module Table.
Record t (num : Type) := mk {
  id : option string;
  name : string;
  columns : list Column.t;
  x : option num;
  y : option num
}.
Arguments mk {num} _ _ _ _ _.
Arguments id {num} _.
Arguments name {num} _.
Arguments columns {num} _.
Arguments x {num} _.
Arguments y {num} _.
Definition with_name {num} (t0 : t num) (n : string) : t num :=
  mk (id t0) n (columns t0) (x t0) (y t0).
Definition with_columns {num} (t0 : t num) (cs : list Column.t) : t num :=
  mk (id t0) (name t0) cs (x t0) (y t0).
Definition with_position {num} (t0 : t num) (px py : option num) : t num :=
  mk (id t0) (name t0) (columns t0) px py.
End Table.

Module Schema.
Record t (num : Type) := mk { tables : list (Table.t num) }.
Arguments mk {num} _.
Arguments tables {num} _.
End Schema.

Inductive Sender := user | ai.

Module Message.
Record t := mk { sender : Sender; text : string }.
End Message.

Inductive ActiveTool := select | addTable | addConnection_1_n | addConnection_n_n.

Global Instance ActiveTool_eq_dec : EqDecision ActiveTool.
Proof. solve_decision. Defined.

Module Project.
Record t (num : Type) := mk {
  id : string;
  name : string;
  schema : option (Schema.t num);
  messages : list Message.t;
  ddl : string;
  undoStack : list (option (Schema.t num));
  redoStack : list (option (Schema.t num));
  lastModified : Z
}.
Arguments mk {num} _ _ _ _ _ _ _ _.
Arguments id {num} _.
Arguments name {num} _.
Arguments schema {num} _.
Arguments messages {num} _.
Arguments ddl {num} _.
Arguments undoStack {num} _.
Arguments redoStack {num} _.
Arguments lastModified {num} _.
End Project.

(** ** JavaScript helpers *)

(** Truthiness of an optional string: [undefined], [null] and the empty
    string are falsy. *)
Definition truthy (o : option string) : bool :=
  match o with
  | Some s => negb (bool_decide (s = EmptyString))
  | None => false
  end.

(** [a ?? b] *)
Definition nullish {A} (a b : option A) : option A :=
  match a with
  | Some v => Some v
  | None => b
  end.

(** The number of bytes of the white-space character that [s] starts with,
    0 when it starts with none.  White space is what [\s] matches: tab, line
    feed, vertical tab, form feed, carriage return and space, and, in UTF-8,
    U+00A0, U+1680, U+2000 to U+200A, U+2028, U+2029, U+202F, U+205F, U+3000
    and U+FEFF. *)
Definition spaceLength (s : string) : nat :=
  match s with
  | EmptyString => 0
  | String c r =>
      if Ascii.is_space c then 1
      else
        match N_of_ascii c, r with
        | 194%N, String c1 _ => if (N_of_ascii c1 =? 160)%N then 2 else 0
        | 225%N, String c1 (String c2 _) =>
            if (N_of_ascii c1 =? 154)%N && (N_of_ascii c2 =? 128)%N then 3 else 0
        | 226%N, String c1 (String c2 _) =>
            let b := N_of_ascii c2 in
            if (N_of_ascii c1 =? 128)%N
               && ((128 <=? b)%N && (b <=? 138)%N
                   || (b =? 168)%N || (b =? 169)%N || (b =? 175)%N)
            then 3
            else if (N_of_ascii c1 =? 129)%N && (b =? 159)%N then 3 else 0
        | 227%N, String c1 (String c2 _) =>
            if (N_of_ascii c1 =? 128)%N && (N_of_ascii c2 =? 128)%N then 3 else 0
        | 239%N, String c1 (String c2 _) =>
            if (N_of_ascii c1 =? 187)%N && (N_of_ascii c2 =? 191)%N then 3 else 0
        | _, _ => 0
        end
  end.

(** [name.replace(/\s+/g, '_')]: every maximal run of white space becomes one
    underscore.  [skip] counts the bytes still to pass of the white-space
    character at hand, [inRun] tells that the previous character was white
    space. *)
Fixpoint replaceSpacesFrom (skip : nat) (inRun : bool) (s : string) : string :=
  match s with
  | EmptyString => EmptyString
  | String c r =>
      match skip with
      | S k => replaceSpacesFrom k inRun r
      | 0 =>
          match spaceLength s with
          | S k => if inRun then replaceSpacesFrom k true r
                   else String "_"%char (replaceSpacesFrom k true r)
          | 0 => String c (replaceSpacesFrom 0 false r)
          end
      end
  end.

Definition replaceSpaces (inRun : bool) (s : string) : string :=
  replaceSpacesFrom 0 inRun s.

(** [new Map(l.map(v => [key(v), v]))]: entries are inserted from left to
    right, a later entry replaces an earlier one with the same key. *)
Definition Map_of {V} (key : V → string) (l : list V) : gmap string V :=
  foldl (λ m v, <[key v := v]> m) ∅ l.

(** [map.get(k)] where [k] may be [undefined]: keys are strings, so an
    undefined key is never found. *)
Definition Map_get {V} (m : gmap string V) (k : option string) : option V :=
  k ≫= λ k', m !! k'.

(** ** Numbers and the deep copy *)

(** [Number.isFinite] on the numbers of JavaScript: [false] on NaN and on
    the two infinities. *)
Class JsNumber (num : Type) := isFinite : num → bool.
Global Hint Mode JsNumber ! : typeclass_instances.

(** [JSON.parse(JSON.stringify(n))] on a number: [null] unless the number is
    finite. *)
Definition jsonNumber {num} `{!JsNumber num} (n : num) : option num :=
  if isFinite n then Some n else None.

(** [JSON.parse(JSON.stringify(table))]: strings, booleans and arrays of
    strings come back as they were, an absent or null property stays so, and
    the coordinates go through [jsonNumber]. *)
Definition jsonTable {num} `{!JsNumber num} (table : Table.t num) : Table.t num :=
  Table.mk (Table.id table) (Table.name table) (Table.columns table)
           (Table.x table ≫= jsonNumber) (Table.y table ≫= jsonNumber).

(** [JSON.parse(JSON.stringify(schema))] *)
Definition jsonSchema {num} `{!JsNumber num} (schema : Schema.t num) : Schema.t num :=
  Schema.mk (jsonTable <$> Schema.tables schema).

(** Integer coordinates, for the examples: every integer is finite. *)
Global Instance Z_JsNumber : JsNumber Z := λ _, true.

(** ** The identifier counter *)

(** A computation that reads and advances [idCounter]. *)
Definition Mint (A : Type) : Type := nat → A * nat.

Global Instance Mint_ret : MRet Mint := λ A a c, (a, c).
Global Instance Mint_bind : MBind Mint := λ A B f m c,
  let '(a, c') := m c in f a c'.

(** [idCounter++].  [l.map(f)] with a callback [f] that may advance the
    counter is [mapM f l]: the elements are visited from left to right. *)
Definition nextId : Mint nat := λ c, (c, S c).

(** [a || fresh]: the fresh identifier is minted only when [a] is falsy. *)
Definition orMint (a : option string) (fresh : Mint string) : Mint string :=
  match a with
  | Some s => if truthy a then mret s else fresh
  | None => fresh
  end.

Definition mintTableId (name : string) : Mint string :=
  n ← nextId; mret ("table-" +:+ replaceSpaces false name +:+ "-" +:+ pretty n).

Definition mintColumnId (tableId name : string) : Mint string :=
  n ← nextId;
  mret ("col-" +:+ tableId +:+ "-" +:+ replaceSpaces false name +:+ "-" +:+ pretty n).

Section Identity.
Context {num : Type}.

(** ** Identity and reconciliation *)

Definition initializeSchemaIds (schema : Schema.t num) : Mint (Schema.t num) :=
  tables ← mapM (λ table : Table.t num,
    tableId ← mintTableId (Table.name table);
    columns ← mapM (λ column : Column.t,
      cid ← mintColumnId tableId (Column.name column);
      mret (Column.with_id column (Some cid))) (Table.columns table);
    mret (Table.mk (Some tableId) (Table.name table) columns
            (Table.x table) (Table.y table))) (Schema.tables schema);
  mret (Schema.mk tables).

(** The callback of [newTable.columns.map] in [reconcileSchemaIds]. *)
Definition reconcileColumn (oldColumnsMap : gmap string Column.t)
    (tableId : string) (newColumn : Column.t) : Mint Column.t :=
  let oldColumn := oldColumnsMap !! Column.name newColumn in
  cid ← orMint (oldColumn ≫= Column.id)
               (mintColumnId tableId (Column.name newColumn));
  mret (Column.with_id newColumn (Some cid)).

(** The callback of [newSchema.tables.map] in [reconcileSchemaIds]. *)
Definition reconcileTable (oldTablesMap : gmap string (Table.t num))
    (newTable : Table.t num) : Mint (Table.t num) :=
  let oldTable := oldTablesMap !! Table.name newTable in
  tableId ← orMint (oldTable ≫= Table.id) (mintTableId (Table.name newTable));
  let oldColumnsMap :=
    Map_of Column.name (from_option Table.columns [] oldTable) in
  columns ← mapM (reconcileColumn oldColumnsMap tableId) (Table.columns newTable);
  mret (Table.mk (Some tableId) (Table.name newTable) columns
          (nullish (Table.x newTable) (oldTable ≫= Table.x))
          (nullish (Table.y newTable) (oldTable ≫= Table.y))).

Definition reconcileSchemaIds (newSchema oldSchema : Schema.t num)
    : Mint (Schema.t num) :=
  let oldTablesMap := Map_of Table.name (Schema.tables oldSchema) in
  tables ← mapM (reconcileTable oldTablesMap) (Schema.tables newSchema);
  mret (Schema.mk tables).

End Identity.

(** ** Relationship deriver ([SchemaGraph], the [useMemo] of nodes and links) *)

Inductive LinkType := one_to_n | n_to_n.

Global Instance LinkType_eq_dec : EqDecision LinkType.
Proof. solve_decision. Defined.

Module GraphLink.
Record t := mk { source : option string; target : option string; type : LinkType }.
End GraphLink.

Module GraphNode.
(** [x] and [y] are the coordinates the simulation writes; [fx] and [fy] are
    the pinned ones. *)
Record t (num : Type) := mk {
  id : option string;
  table : Table.t num;
  width : Z;
  height : Z;
  x : option num;
  y : option num;
  fx : option num;
  fy : option num
}.
Arguments mk {num} _ _ _ _ _ _ _ _.
Arguments id {num} _.
Arguments table {num} _.
Arguments width {num} _.
Arguments height {num} _.
Arguments x {num} _.
Arguments y {num} _.
Arguments fx {num} _.
Arguments fy {num} _.
End GraphNode.

Module Graph.
Record t (num : Type) := mk { nodes : list (GraphNode.t num); links : list GraphLink.t }.
Arguments mk {num} _ _.
Arguments nodes {num} _.
Arguments links {num} _.
End Graph.

Definition TABLE_WIDTH : Z := 200.
Definition TABLE_HEADER_HEIGHT : Z := 45.
Definition COLUMN_HEIGHT : Z := 28.
Definition TABLE_FOOTER_HEIGHT : Z := 40.

(** [set.add(i)] on a [Set] kept in insertion order. *)
Definition Set_add (i : option string) (s : list (option string)) : list (option string) :=
  if decide (i ∈ s) then s else s ++ [i].

Section Deriver.
Context {num : Type}.

Definition tableHeight (table : Table.t num) : Z :=
  (TABLE_HEADER_HEIGHT + Z.of_nat (length (Table.columns table)) * COLUMN_HEIGHT
   + TABLE_FOOTER_HEIGHT)%Z.

Definition pks (table : Table.t num) : list Column.t :=
  filter (λ c, Column.isPrimaryKey c) (Table.columns table).

Definition fks (table : Table.t num) : list Column.t :=
  filter (λ c, Column.isForeignKey c) (Table.columns table).

(** The test of the first [forEach]:
    [columns.length === 2 && pks.length === 2 && fks.length === 2]. *)
Definition isJunction (table : Table.t num) : bool :=
  bool_decide (length (Table.columns table) = 2)
  && bool_decide (length (pks table) = 2)
  && bool_decide (length (fks table) = 2).

(** The set [junctionTableIds] after the first [forEach].  (The map
    [junctionLinks] filled by the same loop is never read and is left out.) *)
Definition junctionTableIds (schema : Schema.t num) : list (option string) :=
  foldl (λ acc table, if isJunction table then Set_add (Table.id table) acc else acc)
        [] (Schema.tables schema).

(** [schema.tables.find(t => t.id === i)] *)
Definition findTable (schema : Schema.t num) (i : option string) : option (Table.t num) :=
  snd <$> list_find (λ t, Table.id t = i) (Schema.tables schema).

(** The body of [junctionTableIds.forEach]: the links it pushes, or [None]
    when it throws a [TypeError] (the table is not found, or it has fewer than
    two foreign-key columns so that [fks[0]] or [fks[1]] is undefined). *)
Definition junctionLink (schema : Schema.t num) (tableMap : gmap string (Table.t num))
    (jId : option string) : option (list GraphLink.t) :=
  table ← findTable schema jId;
  fk0 ← fks table !! 0;
  fk1 ← fks table !! 1;
  mret (match Map_get tableMap (Column.foreignKeyTable fk0),
              Map_get tableMap (Column.foreignKeyTable fk1) with
        | Some table1, Some table2 =>
            [GraphLink.mk (Table.id table1) (Table.id table2) n_to_n]
        | _, _ => []
        end).

(** The body of the inner [table.columns.forEach] of the second loop. *)
Definition columnLink (tableMap : gmap string (Table.t num))
    (jIds : list (option string)) (table : Table.t num) (column : Column.t)
    : list GraphLink.t :=
  if Column.isForeignKey column && truthy (Column.foreignKeyTable column) then
    match Map_get tableMap (Column.foreignKeyTable column) with
    | Some targetTable =>
        if decide (Table.id targetTable ∈ jIds) then []
        else [GraphLink.mk (Table.id table) (Table.id targetTable) one_to_n]
    | None => []
    end
  else [].

(** The body of the second [schema.tables.forEach]. *)
Definition tableLinks (tableMap : gmap string (Table.t num))
    (jIds : list (option string)) (table : Table.t num) : list GraphLink.t :=
  if decide (Table.id table ∈ jIds) then []
  else Table.columns table ≫= columnLink tableMap jIds table.

Definition toNode (table : Table.t num) : GraphNode.t num :=
  GraphNode.mk (Table.id table) table TABLE_WIDTH (tableHeight table)
               None None (Table.x table) (Table.y table).

(** The memoised derivation of [{ nodes, links }] from the [schema] prop.
    [None] is a thrown [TypeError]. *)
Definition derive (schema : option (Schema.t num)) : option (Graph.t num) :=
  match schema with
  | None => Some (Graph.mk [] [])
  | Some schema =>
      let jIds := junctionTableIds schema in
      let tableMap := Map_of Table.name (Schema.tables schema) in
      junctionLinks ← mapM (junctionLink schema tableMap) jIds;
      let finalLinks :=
        mjoin junctionLinks ++ (Schema.tables schema ≫= tableLinks tableMap jIds) in
      let finalNodes :=
        toNode <$> filter (λ table, Table.id table ∉ jIds) (Schema.tables schema) in
      Some (Graph.mk finalNodes finalLinks)
  end.

End Deriver.

(** ** Application state ([App]) *)

(** The argument of [updateActiveProject], a [Partial<Project>]: [None] is an
    absent key. *)
Module Updates.
Record t (num : Type) := mk {
  schema : option (option (Schema.t num));
  messages : option (list Message.t);
  ddl : option string;
  undoStack : option (list (option (Schema.t num)));
  redoStack : option (list (option (Schema.t num)))
}.
Arguments mk {num} _ _ _ _ _.
Arguments schema {num} _.
Arguments messages {num} _.
Arguments ddl {num} _.
Arguments undoStack {num} _.
Arguments redoStack {num} _.
End Updates.

(** The state hooks of [App] that the handlers below read or write. *)
Module App.
Record t (num : Type) := mk {
  projects : list (Project.t num);
  activeProjectId : option string;
  error : option string;
  activeTool : ActiveTool
}.
Arguments mk {num} _ _ _ _.
Arguments projects {num} _.
Arguments activeProjectId {num} _.
Arguments error {num} _.
Arguments activeTool {num} _.
End App.

(** The double-quote character of the messages. *)
Definition dq : string := String "034"%char EmptyString.

(** [`${id}`] for an identifier that may be undefined. *)
Definition idString (i : option string) : string := default "undefined" i.

(** The candidate of the naming loops of [handleAddTable]:
    [counter > 1 ? `${base}_${counter}` : base]. *)
Definition candidate (base : string) (counter : nat) : string :=
  if decide (1 < counter) then base +:+ "_" +:+ pretty counter else base.

(** [while (taken(candidate(counter))) counter++], run for at most [fuel]
    tests; the result is the final [counter]. *)
Fixpoint firstFree (fuel : nat) (taken : string → bool) (base : string)
    (counter : nat) : option nat :=
  match fuel with
  | 0 => None
  | S fuel' =>
      if taken (candidate base counter)
      then firstFree fuel' taken base (S counter)
      else Some counter
  end.

(** [while (taken(name)) { counter++; name = `${base}_${counter}` }], run for
    at most [fuel] tests; the result is the final [name]. *)
Fixpoint bumpName (fuel : nat) (taken : string → bool) (base : string)
    (counter : nat) (name : string) : option string :=
  match fuel with
  | 0 => None
  | S fuel' =>
      if taken name
      then bumpName fuel' taken base (S counter) (base +:+ "_" +:+ pretty (S counter))
      else Some name
  end.

(** In-place mutation of the element that [l.find(P)] returns. *)
Definition updateFound {A} (P : A → Prop) `{∀ a, Decision (P a)} (f : A → A)
    (l : list A) : list A :=
  match list_find P l with
  | Some (i, a) => <[i := f a]> l
  | None => l
  end.

Section Handlers.
Context {num : Type} `{!JsNumber num}.
(** [(a + b) / 2] on two coordinates of the copy, in the call at hand: a
    number, NaN when an operand is absent. *)
Variable midpoint : option num → option num → num.

Definition setError (e : option string) (st : App.t num) : App.t num :=
  App.mk (App.projects st) (App.activeProjectId st) e (App.activeTool st).

Definition setActiveTool (tool : ActiveTool) (st : App.t num) : App.t num :=
  App.mk (App.projects st) (App.activeProjectId st) (App.error st) tool.

(** [projects.find(p => p.id === activeProjectId) ?? null] *)
Definition activeProject (st : App.t num) : option (Project.t num) :=
  snd <$> list_find (λ p, Some (Project.id p) = App.activeProjectId st) (App.projects st).

(** [activeProject?.schema], falsy when there is no project or no schema. *)
Definition activeSchema (st : App.t num) : option (Schema.t num) :=
  activeProject st ≫= Project.schema.

(** [{ ...p, ...updates, lastModified: Date.now() }] *)
Definition applyUpdates (p : Project.t num) (u : Updates.t num) (now : Z) : Project.t num :=
  Project.mk (Project.id p) (Project.name p)
    (default (Project.schema p) (Updates.schema u))
    (default (Project.messages p) (Updates.messages u))
    (default (Project.ddl p) (Updates.ddl u))
    (default (Project.undoStack p) (Updates.undoStack u))
    (default (Project.redoStack p) (Updates.redoStack u))
    now.

(** [updateActiveProject(updates)]: [r] is the render whose [activeProjectId]
    the callback closes over, [st] the state the functional update receives,
    [now] the reading of [Date.now()]. *)
Definition updateActiveProject (r : App.t num) (now : Z) (u : Updates.t num)
    (st : App.t num) : App.t num :=
  App.mk
    ((λ p, if decide (Some (Project.id p) = App.activeProjectId r)
           then applyUpdates p u now else p) <$> App.projects st)
    (App.activeProjectId st) (App.error st) (App.activeTool st).

(** ** Command history *)

Definition commitSchemaChange (r : App.t num) (now : Z)
    (newSchema : option (Schema.t num)) (st : App.t num) : App.t num :=
  match activeProject r with
  | None => st
  | Some ap =>
      let newUndoStack := Project.undoStack ap ++ [Project.schema ap] in
      updateActiveProject r now
        (Updates.mk (Some newSchema) None
           (Some (match newSchema with None => EmptyString | Some _ => Project.ddl ap end))
           (Some newUndoStack) (Some [])) st
  end.

Definition handleUndo (now : Z) (st : App.t num) : App.t num :=
  match activeProject st with
  | None => st
  | Some ap =>
      match last (Project.undoStack ap) with
      | None => st
      | Some previousSchema =>
          let newUndoStack :=
            take (length (Project.undoStack ap) - 1) (Project.undoStack ap) in
          let newRedoStack := Project.schema ap :: Project.redoStack ap in
          updateActiveProject st now
            (Updates.mk (Some previousSchema) None
               (Some (match previousSchema with
                      | None => EmptyString | Some _ => Project.ddl ap end))
               (Some newUndoStack) (Some newRedoStack)) st
      end
  end.

Definition handleRedo (now : Z) (st : App.t num) : App.t num :=
  match activeProject st with
  | None => st
  | Some ap =>
      match Project.redoStack ap with
      | [] => st
      | nextSchema :: newRedoStack =>
          let newUndoStack := Project.undoStack ap ++ [Project.schema ap] in
          updateActiveProject st now
            (Updates.mk (Some nextSchema) None
               (Some (match nextSchema with
                      | None => EmptyString | Some _ => Project.ddl ap end))
               (Some newUndoStack) (Some newRedoStack)) st
      end
  end.

(** A run of committed mutations, each given by the reading of the clock and
    the schema it commits, and a run of undo commands. *)
Definition commits (ops : list (Z * option (Schema.t num))) (st : App.t num)
    : App.t num :=
  foldl (λ st' op, commitSchemaChange st' op.1 op.2 st') st ops.

Definition undos (nows : list Z) (st : App.t num) : App.t num :=
  foldl (λ st' now, handleUndo now st') st nows.

(** The part of a project that the history commands act on. *)
Definition sameHistory (ap ap' : Project.t num) : Prop :=
  Project.schema ap' = Project.schema ap
  ∧ Project.undoStack ap' = Project.undoStack ap.

(** ** Schema mutation handlers *)

(** [l.some(t => t.name === n)] *)
Definition nameTaken (tables : list (Table.t num)) (n : string) : bool :=
  bool_decide (Exists (λ t, Table.name t = n) tables).

Definition columnNameTaken (columns : list Column.t) (n : string) : bool :=
  bool_decide (Exists (λ c, Column.name c = n) columns).

(** [columns.find(c => c.isPrimaryKey)] *)
Definition findPk (table : Table.t num) : option Column.t :=
  snd <$> list_find (λ c, Column.isPrimaryKey c) (Table.columns table).

Definition handleAddTable (position : option (num * num))
    (nowId nowMessages nowCommit : Z) (st : App.t num) : App.t num :=
  match activeProject st with
  | None => st
  | Some ap =>
      let currentSchema := default (Schema.mk []) (Project.schema ap) in
      let tables := Schema.tables currentSchema in
      match firstFree (S (length tables)) (nameTaken tables) "new_table" 1 with
      | None => st
      | Some counter =>
          let newTableName := candidate "new_table" counter in
          let tableId := "table-" +:+ newTableName +:+ "-" +:+ pretty nowId in
          let newTable :=
            Table.mk (Some tableId) newTableName
              [Column.mk (Some (tableId +:+ "-col-id")) "id" "INTEGER" true false
                         None None ["NOT NULL"]]
              (fst <$> position) (snd <$> position) in
          let updatedSchema := Schema.mk (tables ++ [newTable]) in
          let st1 :=
            if decide (length (Project.messages ap) = 0)
            then updateActiveProject st nowMessages
                   (Updates.mk None
                      (Some [Message.mk ai
                         ("Started a new schema and added table " +:+ dq
                          +:+ newTableName +:+ dq +:+ ".")])
                      None None None) st
            else st in
          commitSchemaChange st nowCommit (Some updatedSchema) st1
      end
  end.

(** [sourceTable.columns.push(c)], where [sourceTable] is what
    [tables.find(t => t.id === sourceTableId)] returned. *)
Definition pushColumn (tables : list (Table.t num)) (sourceTableId : option string)
    (c : Column.t) : list (Table.t num) :=
  updateFound (λ t, Table.id t = sourceTableId)
    (λ t, Table.with_columns t (Table.columns t ++ [c])) tables.

Definition handleAddConnection (sourceTableId targetTableId : option string)
    (type : LinkType) (now1 now2 now3 nowCommit : Z) (st : App.t num) : App.t num :=
  match activeSchema st with
  | None => st
  | Some schema =>
      let currentSchema := jsonSchema schema in
      match findTable currentSchema sourceTableId,
            findTable currentSchema targetTableId with
      | Some sourceTable, Some targetTable =>
          match type with
          | one_to_n =>
              match findPk targetTable with
              | None =>
                  setError (Some ("Cannot create connection: Target table " +:+ dq
                    +:+ Table.name targetTable +:+ dq +:+ " has no primary key.")) st
              | Some targetPk =>
                  let base := Table.name targetTable +:+ "_id" in
                  match bumpName (S (length (Table.columns sourceTable)))
                          (columnNameTaken (Table.columns sourceTable)) base 1 base with
                  | None => st
                  | Some fkColumnName =>
                      let newFkColumn :=
                        Column.mk
                          (Some ("col-" +:+ idString (Table.id sourceTable) +:+ "-"
                                 +:+ fkColumnName +:+ "-" +:+ pretty now1))
                          fkColumnName (Column.type targetPk) false true
                          (Some (Table.name targetTable)) (Some (Column.name targetPk))
                          [] in
                      commitSchemaChange st nowCommit
                        (Some (Schema.mk
                           (pushColumn (Schema.tables currentSchema) sourceTableId
                                       newFkColumn))) st
                  end
              end
          | n_to_n =>
              match findPk sourceTable, findPk targetTable with
              | Some sourcePk, Some targetPk =>
                  let base := Table.name sourceTable +:+ "_" +:+ Table.name targetTable in
                  match bumpName (S (length (Schema.tables currentSchema)))
                          (nameTaken (Schema.tables currentSchema)) base 1 base with
                  | None => st
                  | Some junctionTableName =>
                      let junctionTableId :=
                        "table-" +:+ junctionTableName +:+ "-" +:+ pretty now1 in
                      let fkCol1 :=
                        Column.mk
                          (Some ("col-" +:+ junctionTableId +:+ "-"
                                 +:+ Table.name sourceTable +:+ "_id-" +:+ pretty now2))
                          (Table.name sourceTable +:+ "_id") (Column.type sourcePk)
                          true true (Some (Table.name sourceTable))
                          (Some (Column.name sourcePk)) ["NOT NULL"] in
                      let fkCol2 :=
                        Column.mk
                          (Some ("col-" +:+ junctionTableId +:+ "-"
                                 +:+ Table.name targetTable +:+ "_id-" +:+ pretty now3))
                          (Table.name targetTable +:+ "_id") (Column.type targetPk)
                          true true (Some (Table.name targetTable))
                          (Some (Column.name targetPk)) ["NOT NULL"] in
                      let junctionTable :=
                        Table.mk (Some junctionTableId) junctionTableName [fkCol1; fkCol2]
                          (Some (midpoint (Table.x sourceTable) (Table.x targetTable)))
                          (Some (midpoint (Table.y sourceTable) (Table.y targetTable))) in
                      commitSchemaChange st nowCommit
                        (Some (Schema.mk (Schema.tables currentSchema ++ [junctionTable])))
                        st
                  end
              | _, _ =>
                  setError (Some
                    "Cannot create N-N connection: Both tables must have a primary key.")
                    st
              end
          end
      | _, _ => setError (Some "Source or target table not found for connection.") st
      end
  end.

(** The inner callback of the propagation loop of [handleUpdateTable]. *)
Definition renameReference (oldName newName : string) (column : Column.t) : Column.t :=
  if Column.isForeignKey column
     && bool_decide (Column.foreignKeyTable column = Some oldName)
  then Column.with_foreignKeyTable column (Some newName)
  else column.

Definition handleUpdateTable (tableId : option string) (newName : string)
    (nowCommit : Z) (st : App.t num) : App.t num :=
  match activeSchema st with
  | None => st
  | Some schema =>
      if bool_decide (Exists (λ t, Table.name t = newName ∧ Table.id t ≠ tableId)
                             (Schema.tables schema))
      then setError (Some ("A table with the name " +:+ dq +:+ newName +:+ dq
                           +:+ " already exists.")) st
      else
        match Table.name <$> findTable schema tableId with
        | None => st
        | Some oldName =>
            if negb (truthy (Some oldName)) then st
            else
              let updatedSchema := jsonSchema schema in
              let renamed :=
                updateFound (λ t, Table.id t = tableId)
                  (λ t, Table.with_name t newName) (Schema.tables updatedSchema) in
              let propagated :=
                (λ table, Table.with_columns table
                   (renameReference oldName newName <$> Table.columns table))
                <$> renamed in
              commitSchemaChange st nowCommit (Some (Schema.mk propagated)) st
        end
  end.

Definition handleUpdateTablePosition (tableId : option string) (position : num * num)
    (now : Z) (st : App.t num) : App.t num :=
  match activeSchema st with
  | None => st
  | Some schema =>
      let newSchema :=
        Schema.mk
          ((λ table, if decide (Table.id table = tableId)
                     then Table.with_position table (Some position.1) (Some position.2)
                     else table) <$> Schema.tables schema) in
      updateActiveProject st now (Updates.mk (Some (Some newSchema)) None None None None) st
  end.

(** The test of the nested loops of [handleDeleteColumn]. *)
Definition references (tableName columnName : string) (column : Column.t) : Prop :=
  Column.isForeignKey column
  ∧ Column.foreignKeyTable column = Some tableName
  ∧ Column.foreignKeyColumn column = Some columnName.

Global Instance references_dec tn cn c : Decision (references tn cn c).
Proof. unfold references. apply _. Defined.

(** The nested [for ... of] loops: the first referencing column in table
    order, with its table. *)
Definition firstReference (schema : Schema.t num) (tableName columnName : string)
    : option (Table.t num * Column.t) :=
  head (Schema.tables schema ≫= λ table,
          (λ column, (table, column))
          <$> filter (references tableName columnName) (Table.columns table)).

Definition handleDeleteColumn (tableId columnId : option string) (nowCommit : Z)
    (st : App.t num) : App.t num :=
  match activeSchema st with
  | None => st
  | Some schema =>
      match findTable schema tableId with
      | None => st
      | Some tableToDeleteFrom =>
          match snd <$> list_find (λ c, Column.id c = columnId)
                                  (Table.columns tableToDeleteFrom) with
          | None => st
          | Some columnToDelete =>
              match firstReference schema (Table.name tableToDeleteFrom)
                                   (Column.name columnToDelete) with
              | Some (table, column) =>
                  setError (Some ("Cannot delete column " +:+ dq
                    +:+ Column.name columnToDelete +:+ dq
                    +:+ ". It is referenced by " +:+ dq +:+ Table.name table +:+ "."
                    +:+ Column.name column +:+ dq +:+ ".")) st
              | None =>
                  let updatedTables :=
                    (λ t, if decide (Table.id t = tableId)
                          then Table.with_columns t
                                 (filter (λ c, Column.id c ≠ columnId) (Table.columns t))
                          else t) <$> Schema.tables schema in
                  commitSchemaChange st nowCommit (Some (Schema.mk updatedTables)) st
              end
          end
      end
  end.

(** [confirmed] is the answer of [window.confirm]. *)
Definition handleDeleteTable (tableId : option string) (confirmed : bool)
    (nowCommit : Z) (st : App.t num) : App.t num :=
  match activeSchema st with
  | None => st
  | Some schema =>
      match findTable schema tableId with
      | None => st
      | Some tableToDelete =>
          if negb confirmed then st
          else
            let remainingTables :=
              filter (λ t, Table.id t ≠ tableId) (Schema.tables schema) in
            let cleanedTables :=
              (λ table, Table.with_columns table
                 (filter (λ column,
                    ¬ (Column.isForeignKey column
                       ∧ Column.foreignKeyTable column = Some (Table.name tableToDelete)))
                    (Table.columns table)))
              <$> remainingTables in
            commitSchemaChange st nowCommit (Some (Schema.mk cleanedTables)) st
      end
  end.

(** ** Pointer handlers of [SchemaGraph] *)

(** The state hooks of [SchemaGraph] read by the handlers. *)
Record GraphState := mkGraphState {
  connectionSource : option string;
  editingTableId : option string
}.

Definition setConnectionSource (s : option string) (g : GraphState) : GraphState :=
  mkGraphState s (editingTableId g).

(** [activeTool.startsWith('addConnection')] *)
Definition isConnectionTool (tool : ActiveTool) : bool :=
  match tool with
  | addConnection_1_n | addConnection_n_n => true
  | _ => false
  end.

(** The click handler of a node. *)
Definition nodeClick (d : GraphNode.t num) (now1 now2 now3 nowCommit : Z)
    (ui : App.t num * GraphState) : App.t num * GraphState :=
  let '(st, g) := ui in
  if isConnectionTool (App.activeTool st) then
    if negb (truthy (connectionSource g)) then
      (st, setConnectionSource (GraphNode.id d) g)
    else
      let st1 :=
        if decide (connectionSource g ≠ GraphNode.id d) then
          let type :=
            if decide (App.activeTool st = addConnection_n_n) then n_to_n else one_to_n in
          handleAddConnection (connectionSource g) (GraphNode.id d) type
                              now1 now2 now3 nowCommit st
        else st in
      (setActiveTool select st1, setConnectionSource None g)
  else ui.

(** A tool switch from the toolbox: [setActiveTool(tool)], then the effect on
    [activeTool], which runs when the tool has changed. *)
Definition switchTool (tool : ActiveTool) (ui : App.t num * GraphState)
    : App.t num * GraphState :=
  let '(st, g) := ui in
  (setActiveTool tool st,
   if decide (tool = App.activeTool st) then g else setConnectionSource None g).

(** The [end] handler of the drag behaviour, without its calls into the
    simulation and the minimap, which do not touch the states modelled here. *)
Definition dragEnd (d : GraphNode.t num) (now : Z) (ui : App.t num * GraphState)
    : App.t num :=
  let '(st, g) := ui in
  if bool_decide (App.activeTool st ≠ select) || truthy (editingTableId g) then st
  else
    match GraphNode.x d, GraphNode.y d with
    | Some dx, Some dy => handleUpdateTablePosition (GraphNode.id d) (dx, dy) now st
    | _, _ => st
    end.

End Handlers.

(** ** Predicates of the statements *)

(** A rejected operation: the next state differs from the state before the
    call in the error slot only, which holds a reason. *)
Definition rejected {num} (st st' : App.t num) : Prop :=
  ∃ reason, st' = App.mk (App.projects st) (App.activeProjectId st) (Some reason)
                         (App.activeTool st).

(** Two columns that agree on every field but [foreignKeyTable]. *)
Definition sameButTarget (c c' : Column.t) : Prop :=
  Column.id c' = Column.id c ∧ Column.name c' = Column.name c
  ∧ Column.type c' = Column.type c
  ∧ Column.isPrimaryKey c' = Column.isPrimaryKey c
  ∧ Column.isForeignKey c' = Column.isForeignKey c
  ∧ Column.foreignKeyColumn c' = Column.foreignKeyColumn c
  ∧ Column.constraints c' = Column.constraints c.

(** ** Concrete data for the examples *)

Module Examples.

(** A midpoint for integer coordinates, with 0 for an absent one. *)
Definition mid (a b : option Z) : Z := ((default 0 a + default 0 b) `div` 2)%Z.

Definition idColumn (tableId : string) : Column.t :=
  Column.mk (Some (tableId +:+ "-col-id")) "id" "INTEGER" true false None None ["NOT NULL"].

Definition keyColumn (cid name target : string) : Column.t :=
  Column.mk (Some cid) name "INTEGER" true true (Some target) (Some "id") ["NOT NULL"].

Definition students : Table.t Z := Table.mk (Some "t1") "students" [idColumn "t1"] (Some 1%Z) (Some 2%Z).
Definition courses : Table.t Z := Table.mk (Some "t2") "courses" [idColumn "t2"] None None.

(** The table [students] as an external edit returns it: no identifier on the
    table, and a position of its own. *)
Definition movedStudents : Table.t Z :=
  Table.mk None "students" [idColumn "t1"] (Some 7%Z) (Some 8%Z).

Definition emptySchema : Schema.t Z := Schema.mk [].
Definition campus : Schema.t Z := Schema.mk [students; courses].

Definition project (schema : option (Schema.t Z))
    (undoStack redoStack : list (option (Schema.t Z))) : Project.t Z :=
  Project.mk "p1" "My First Schema" schema [] EmptyString undoStack redoStack 0.

Definition app (schema : option (Schema.t Z))
    (undoStack redoStack : list (option (Schema.t Z))) (tool : ActiveTool) : App.t Z :=
  App.mk [project schema undoStack redoStack] (Some "p1") None tool.

(** The 1-to-N tool with the node of [students] selected as the source. *)
Definition selecting : App.t Z * GraphState :=
  (app (Some campus) [] [] addConnection_1_n, mkGraphState (Some "t1") None).

End Examples.

(** ** Concrete schemas for the deriver *)

Module DeriverExamples.
Import Examples.

(** The junction table of [students] and [courses]. *)
Definition enrolment : Table.t Z :=
  Table.mk (Some "t3") "students_courses"
    [keyColumn "c1" "students_id" "students"; keyColumn "c2" "courses_id" "courses"]
    None None.

(** A table with three columns, all of them primary and foreign keys. *)
Definition grades : Table.t Z :=
  Table.mk (Some "t4") "grades"
    [keyColumn "c3" "students_id" "students"; keyColumn "c4" "courses_id" "courses";
     keyColumn "c5" "teachers_id" "teachers"]
    None None.

Definition school : Schema.t Z := Schema.mk [students; courses; enrolment; grades].

(** A junction table whose foreign keys name tables that do not exist. *)
Definition orphan : Table.t Z :=
  Table.mk (Some "t5") "rooms_teachers"
    [keyColumn "c6" "rooms_id" "rooms"; keyColumn "c7" "teachers_id" "teachers"]
    None None.

Definition dangling : Schema.t Z := Schema.mk [students; orphan].

(** A junction table one of whose foreign keys names the junction table
    [enrolment]. *)
Definition waitlist : Table.t Z :=
  Table.mk (Some "t6") "waitlist"
    [keyColumn "c8" "enrolment_id" "students_courses"; keyColumn "c9" "students_id" "students"]
    None None.

Definition nested : Schema.t Z := Schema.mk [students; courses; enrolment; waitlist].





(** A table that has the identifier of the junction table [enrolment] and
    comes before it. *)
Definition shared_identifier : Schema.t Z :=
  Schema.mk [Table.mk (Some "t3") "notes" [] None None; enrolment; students; courses].

End DeriverExamples.

(** ** Concrete states for the mutation handlers *)

Module MutationExamples.
Import Examples.

Definition users : Table.t Z := Table.mk (Some "t1") "users" [idColumn "t1"] None None.

Definition users_id : Column.t :=
  Column.mk (Some "c1") "users_id" "INTEGER" false true (Some "users") (Some "id") [].

Definition posts : Table.t Z :=
  Table.mk (Some "t2") "posts" [idColumn "t2"; users_id] None None.

(** A table without a primary key. *)
Definition tags : Table.t Z :=
  Table.mk (Some "t3") "tags"
    [Column.mk (Some "c2") "label" "TEXT" false false None None []] None None.

Definition blog : Schema.t Z := Schema.mk [users; posts; tags].

Definition editing : App.t Z := app (Some blog) [] [] select.

(** The node of [students] after the simulation has moved it to (30, 40). *)
Definition dragged : GraphNode.t Z :=
  GraphNode.mk (Some "t1") students TABLE_WIDTH (tableHeight students)
               (Some 30%Z) (Some 40%Z) (Some 1%Z) (Some 2%Z).

(** The states of the users and posts scenario, with the clock readings 1
    to 13. *)
Definition scenario4 : App.t Z :=
  handleUpdateTable (Some "table-new_table-5") "posts" 8
    (handleAddTable (Some (30, 40)%Z) 5 6 7
       (handleUpdateTable (Some "table-new_table-1") "users" 4
          (handleAddTable (Some (10, 20)%Z) 1 2 3 (app None [] [] addTable)))).

Definition scenario5 : App.t Z :=
  handleAddConnection mid (Some "table-new_table-5") (Some "table-new_table-1")
                      one_to_n 9 10 11 12 scenario4.

Definition scenario6 : App.t Z :=
  handleDeleteTable (Some "table-new_table-1") true 13 scenario5.

End MutationExamples.

(** ** A state with a coordinate that is not a number *)

Module CopyExamples.
Import Examples.

(** The integers and NaN. *)
Inductive Num := Int (z : Z) | NaN.

Global Instance Num_JsNumber : JsNumber Num :=
  λ n, match n with Int _ => true | NaN => false end.

(** [(a + b) / 2] where an absent operand makes the sum NaN. *)
Definition midNum (a b : option Num) : Num :=
  match a, b with
  | Some (Int x), Some (Int y) => Int ((x + y) `div` 2)
  | _, _ => NaN
  end.

(** Two tables that were never placed. *)
Definition unplaced : App.t Num :=
  App.mk
    [Project.mk "p1" "My First Schema"
       (Some (Schema.mk [Table.mk (Some "t1") "users" [idColumn "t1"] None None;
                         Table.mk (Some "t2") "posts" [idColumn "t2"] None None]))
       [] EmptyString [] [] 0]
    (Some "p1") None addConnection_n_n.

(** The N-to-N tool on the two tables, then a rename of [users]. *)
Definition connected : App.t Num :=
  handleAddConnection midNum (Some "t1") (Some "t2") n_to_n 1 2 3 4 unplaced.

Definition renamed : App.t Num :=
  handleUpdateTable (Some "t1") "members" 5 connected.

End CopyExamples.

(** ** The remaining column handlers of [App] *)

(** [column.foreignKeyColumn = n] *)
Definition withForeignKeyColumn (c : Column.t) (n : option string) : Column.t :=
  Column.mk (Column.id c) (Column.name c) (Column.type c) (Column.isPrimaryKey c)
            (Column.isForeignKey c) (Column.foreignKeyTable c) n (Column.constraints c).

(** The inner callback of the propagation loop of
    [handleUpdateColumnDetails]. *)
Definition renameColumnReference (tableName oldName newName : string)
    (column : Column.t) : Column.t :=
  if Column.isForeignKey column
     && bool_decide (Column.foreignKeyTable column = Some tableName)
     && bool_decide (Column.foreignKeyColumn column = Some oldName)
  then withForeignKeyColumn column (Some newName)
  else column.

Section ColumnHandlers.
Context {num : Type} `{!JsNumber num}.

Definition handleAddColumn (tableId : option string) (nowId nowCommit : Z)
    (st : App.t num) : App.t num :=
  match activeSchema st with
  | None => st
  | Some schema =>
      let updatedSchema := jsonSchema schema in
      match findTable updatedSchema tableId with
      | None => st
      | Some tableToUpdate =>
          match firstFree (S (length (Table.columns tableToUpdate)))
                  (columnNameTaken (Table.columns tableToUpdate)) "new_column" 1 with
          | None => st
          | Some counter =>
              let newColName := candidate "new_column" counter in
              commitSchemaChange st nowCommit
                (Some (Schema.mk
                   (pushColumn (Schema.tables updatedSchema) tableId
                      (Column.mk
                         (Some ("col-" +:+ idString (Table.id tableToUpdate) +:+ "-"
                                +:+ newColName +:+ "-" +:+ pretty nowId))
                         newColName "VARCHAR(255)" false false None None [])))) st
          end
      end
  end.

Definition handleUpdateColumnDetails (tableId columnId : option string)
    (updatedColumn : Column.t) (nowCommit : Z) (st : App.t num) : App.t num :=
  match activeSchema st with
  | None => st
  | Some schema =>
      let updatedSchema := jsonSchema schema in
      match list_find (λ t, Table.id t = tableId) (Schema.tables updatedSchema) with
      | None => st
      | Some (tableIndex, tableToUpdate) =>
          if bool_decide
               (Exists (λ c, Column.name c = Column.name updatedColumn
                             ∧ Column.id c ≠ columnId)
                       (Table.columns tableToUpdate))
          then setError (Some ("A column named " +:+ dq +:+ Column.name updatedColumn
                               +:+ dq +:+ " already exists in table " +:+ dq
                               +:+ Table.name tableToUpdate +:+ dq +:+ ".")) st
          else
            match list_find (λ c, Column.id c = columnId)
                            (Table.columns tableToUpdate) with
            | None => st
            | Some (columnIndex, oldColumn) =>
                let replaced :=
                  <[tableIndex :=
                      Table.with_columns tableToUpdate
                        (<[columnIndex := updatedColumn]> (Table.columns tableToUpdate))]>
                    (Schema.tables updatedSchema) in
                let propagated :=
                  if Column.isPrimaryKey oldColumn
                     && negb (bool_decide (Column.name oldColumn
                                           = Column.name updatedColumn))
                  then (λ table, Table.with_columns table
                          (renameColumnReference (Table.name tableToUpdate)
                             (Column.name oldColumn) (Column.name updatedColumn)
                           <$> Table.columns table)) <$> replaced
                  else replaced in
                commitSchemaChange st nowCommit (Some (Schema.mk propagated)) st
            end
      end
  end.

End ColumnHandlers.

(** ** Projects ([App]) *)

Section Projects.
Context {num : Type}.

Definition setProjects (projects : list (Project.t num)) (st : App.t num) : App.t num :=
  App.mk projects (App.activeProjectId st) (App.error st) (App.activeTool st).

Definition setActiveProjectId (i : option string) (st : App.t num) : App.t num :=
  App.mk (App.projects st) i (App.error st) (App.activeTool st).

(** A project as [handleCreateProject] and the start-up effect build it. *)
Definition freshProject (nowId : Z) (name : string) (nowModified : Z) : Project.t num :=
  Project.mk ("proj-" +:+ pretty nowId) name None [] EmptyString [] [] nowModified.

Definition handleCreateProject (nowId nowModified : Z) (st : App.t num) : App.t num :=
  let newProject :=
    freshProject nowId ("Untitled Schema " +:+ pretty (length (App.projects st) + 1))
                 nowModified in
  setActiveProjectId (Some (Project.id newProject))
    (setProjects (App.projects st ++ [newProject]) st).

(** [handleSwitchProject] also empties the search query, the second
    component. *)
Definition handleSwitchProject (projectId : string) (ui : App.t num * string)
    : App.t num * string :=
  (setActiveProjectId (Some projectId) ui.1, EmptyString).

(** [confirmed] is the answer of [window.confirm]. *)
Definition handleDeleteProject (projectId : string) (confirmed : bool) (st : App.t num)
    : App.t num :=
  if confirmed then
    let remainingProjects := filter (λ p, Project.id p ≠ projectId) (App.projects st) in
    let st1 := setProjects remainingProjects st in
    if decide (App.activeProjectId st = Some projectId)
    then setActiveProjectId (Project.id <$> head remainingProjects) st1
    else st1
  else st.

Definition handleRenameProject (projectId newName : string) (st : App.t num) : App.t num :=
  setProjects
    ((λ p, if decide (Project.id p = projectId)
           then Project.mk (Project.id p) newName (Project.schema p) (Project.messages p)
                  (Project.ddl p) (Project.undoStack p) (Project.redoStack p)
                  (Project.lastModified p)
           else p) <$> App.projects st) st.

End Projects.

(** What [localStorage.getItem('vibedb_projects')] holds: nothing (or the
    empty string), a text that [JSON.parse] rejects, or the text of a value. *)
Inductive Stored (A : Type) := Missing | Corrupt | Parsed (a : A).
Arguments Missing {A}.
Arguments Corrupt {A}.
Arguments Parsed {A} _.

Section StartUp.
Context {num : Type}.

(** The start-up effect of [App], on the state [st] of the first render.
    The removal of the stored items in the [catch] branch is not modelled. *)
Definition loadProjects (savedProjects : Stored (list (Project.t num)))
    (savedActiveId : option string) (nowId nowModified : Z) (st : App.t num)
    : App.t num :=
  match savedProjects with
  | Parsed loadedProjects =>
      let st1 := setProjects loadedProjects st in
      if truthy savedActiveId
         && bool_decide (Exists (λ p, Some (Project.id p) = savedActiveId) loadedProjects)
      then setActiveProjectId savedActiveId st1
      else match loadedProjects with
           | p :: _ => setActiveProjectId (Some (Project.id p)) st1
           | [] => st1
           end
  | Missing =>
      let newProject := freshProject nowId "My First Schema" nowModified in
      setActiveProjectId (Some (Project.id newProject)) (setProjects [newProject] st)
  | Corrupt => st
  end.

(** The state before the start-up effect. *)
Definition initialApp : App.t num := App.mk [] None None select.

End StartUp.

(** ** Import of a shared schema ([handleImportBase64]) *)

Section SharedSchema.
Context {num : Type}.
(** [String.prototype.trim]. *)
Variable trim : string → string.
(** [atob], [pako.inflate] and [JSON.parse] in a row: the schema that the
    text decodes to, or [None] when one of them throws. *)
Variable decode : string → option (Schema.t num).

(** [tables.some(t => !t.id || t.columns.some(c => !c.id))] *)
Definition needsIds (schema : Schema.t num) : bool :=
  bool_decide
    (Exists (λ t, ¬ truthy (Table.id t)
                  ∨ Exists (λ c, ¬ truthy (Column.id c)) (Table.columns t))
            (Schema.tables schema)).

Definition handleImportBase64 (base64String : string)
    (nowCommit nowMessages nowReset : Z) (st : App.t num) : Mint (App.t num) :=
  if negb (truthy (Some (trim base64String)))
  then mret (setError (Some "Base64 input cannot be empty.") st)
  else
    let st0 := setError None st in
    match decode base64String with
    | Some parsed =>
        parsedSchema ← (if needsIds parsed then initializeSchemaIds parsed
                        else mret parsed);
        mret (updateActiveProject st nowMessages
                (Updates.mk None
                   (Some [Message.mk ai "Schema imported from Base64 successfully!"])
                   (Some EmptyString) None None)
                (commitSchemaChange st nowCommit (Some parsedSchema) st0))
    | None =>
        mret (updateActiveProject st nowReset
                (Updates.mk (Some None) None None None None)
                (setError
                   (Some "Failed to parse compressed Base64. Please ensure the string is valid.")
                   st0))
    end.

End SharedSchema.

(** ** The canvas of [SchemaGraph] *)

Section Canvas.
Context {num : Type}.

(** The click handler of the canvas: [onCanvas] tells that the target of the
    event is the [svg] element or its group, [position] is the pointer in
    the coordinates of the group. *)
Definition canvasClick (onCanvas : bool) (position : num * num)
    (nowId nowMessages nowCommit : Z) (ui : App.t num * GraphState)
    : App.t num * GraphState :=
  if onCanvas && bool_decide (App.activeTool ui.1 = addTable)
  then switchTool select
         (handleAddTable (Some position) nowId nowMessages nowCommit ui.1, ui.2)
  else ui.

End Canvas.

(** ** The message groups of [ChatPanel] *)

Global Instance Sender_eq_dec : EqDecision Sender.
Proof. solve_decision. Defined.

Module Group.
Record t := mk { user : option string; ai : list string }.
End Group.

(** One turn of the loop of [groups].  The array [result] is the first
    component; [current], which aliases an element of [result], is the index
    of that element. *)
Definition groupStep (acc : list Group.t * option nat) (m : Message.t)
    : list Group.t * option nat :=
  match Message.sender m with
  | user =>
      (acc.1 ++ [Group.mk (Some (Message.text m)) []], Some (length acc.1))
  | ai =>
      match acc.2 with
      | Some i =>
          (alter (λ g, Group.mk (Group.user g) (Group.ai g ++ [Message.text m])) i acc.1,
           Some i)
      | None => (acc.1 ++ [Group.mk None [Message.text m]], None)
      end
  end.

Definition groups (messages : list Message.t) : list Group.t :=
  (foldl groupStep ([], None) messages).1.

(** The invariant of the loop of [groups]: [current] is either unset or the last element of [result]. *)
Definition current_is_last (acc : list Group.t * option nat) : Prop :=
  ∀ i, acc.2 = Some i → ∃ gs g, acc.1 = gs ++ [g] ∧ i = length gs.

(** The messages that a group shows, in the order of the display: the
    message of the user, when there is one, then the answers. *)
Definition shown (g : Group.t) : list Message.t :=
  match Group.user g with
  | Some text => [Message.mk user text]
  | None => []
  end ++ (Message.mk ai <$> Group.ai g).

(** ** Search ([App], [LeftPanel], [SchemaGraph]) *)

(** [s.includes(sub)] *)
Fixpoint includes (s sub : string) : bool :=
  String.prefix sub s
  || match s with
     | EmptyString => false
     | String _ r => includes r sub
     end.

Section Search.
Context {num : Type}.
(** [String.prototype.toLowerCase]. *)
Variable toLowerCase : string → string.

(** [name.toLowerCase().includes(lowercasedQuery)] *)
Definition matchesQuery (lowercasedQuery name : string) : bool :=
  includes (toLowerCase name) lowercasedQuery.

(** The body of [table.columns.forEach] in the highlight effect: the first
    component is [newHighlightedIds], the second [hasMatchingColumn]. *)
Definition highlightColumn (lowercasedQuery : string)
    (acc : gset (option string) * bool) (col : Column.t) : gset (option string) * bool :=
  if matchesQuery lowercasedQuery (Column.name col)
  then ({[Column.id col]} ∪ acc.1, true)
  else acc.

(** The body of [schema.tables.forEach] in the highlight effect. *)
Definition highlightTable (lowercasedQuery : string) (acc : gset (option string))
    (table : Table.t num) : gset (option string) :=
  let tableNameMatch := matchesQuery lowercasedQuery (Table.name table) in
  let '(ids, hasMatchingColumn) :=
    foldl (highlightColumn lowercasedQuery) (acc, false) (Table.columns table) in
  if tableNameMatch || hasMatchingColumn then {[Table.id table]} ∪ ids else ids.

(** The effect of [App] that computes [highlightedIds]. *)
Definition highlightedIds (schema : option (Schema.t num)) (searchQuery : string)
    : gset (option string) :=
  match schema with
  | None => ∅
  | Some schema =>
      if negb (truthy (Some searchQuery)) then ∅
      else foldl (highlightTable (toLowerCase searchQuery)) ∅ (Schema.tables schema)
  end.

(** [tablesToDisplay] of [LeftPanel]. *)
Definition tablesToDisplay (schema : option (Schema.t num)) (searchQuery : string)
    : list (Table.t num) :=
  match schema with
  | None => []
  | Some schema =>
      if negb (truthy (Some searchQuery)) then Schema.tables schema
      else
        filter (λ table,
                  matchesQuery (toLowerCase searchQuery) (Table.name table)
                  ∨ Exists (λ col, matchesQuery (toLowerCase searchQuery) (Column.name col))
                           (Table.columns table))
               (Schema.tables schema)
  end.

(** The columns that [LeftPanel] lists under a displayed table. *)
Definition columnsToDisplay (searchQuery : string) (table : Table.t num)
    : list Column.t :=
  filter (λ col, negb (truthy (Some searchQuery))
                 ∨ matchesQuery (toLowerCase searchQuery) (Column.name col)
                 ∨ matchesQuery (toLowerCase searchQuery) (Table.name table))
         (Table.columns table).

(** The opacity that [SchemaGraph] gives a node: [true] is 0.2, [false]
    is 1. *)
Definition dimmed (searchQuery : string) (highlighted : gset (option string))
    (d : GraphNode.t num) : bool :=
  negb (negb (truthy (Some searchQuery))
        || bool_decide (GraphNode.id d ∈ highlighted)).

End Search.

(** ** The edit commands as one type *)

(** The callbacks that [App] hands to the panels and to the keyboard, each
    with its arguments and the clock readings it consumes. *)
Inductive Action (num : Type) :=
  | Undo (now : Z)
  | Redo (now : Z)
  | AddTable (position : option (num * num)) (nowId nowMessages nowCommit : Z)
  | AddConnection (sourceTableId targetTableId : option string) (type : LinkType)
                  (now1 now2 now3 nowCommit : Z)
  | UpdateTable (tableId : option string) (newName : string) (nowCommit : Z)
  | UpdateTablePosition (tableId : option string) (position : num * num) (now : Z)
  | AddColumn (tableId : option string) (nowId nowCommit : Z)
  | UpdateColumnDetails (tableId columnId : option string) (updatedColumn : Column.t)
                        (nowCommit : Z)
  | DeleteColumn (tableId columnId : option string) (nowCommit : Z)
  | DeleteTable (tableId : option string) (confirmed : bool) (nowCommit : Z).
Arguments Undo {num} _.
Arguments Redo {num} _.
Arguments AddTable {num} _ _ _ _.
Arguments AddConnection {num} _ _ _ _ _ _ _.
Arguments UpdateTable {num} _ _ _.
Arguments UpdateTablePosition {num} _ _ _.
Arguments AddColumn {num} _ _ _.
Arguments UpdateColumnDetails {num} _ _ _ _.
Arguments DeleteColumn {num} _ _ _.
Arguments DeleteTable {num} _ _ _.

Section Actions.
Context {num : Type} `{!JsNumber num} (midpoint : option num → option num → num).

Definition perform (a : Action num) (st : App.t num) : App.t num :=
  match a with
  | Undo now => handleUndo now st
  | Redo now => handleRedo now st
  | AddTable position nowId nowMessages nowCommit =>
      handleAddTable position nowId nowMessages nowCommit st
  | AddConnection sourceTableId targetTableId type now1 now2 now3 nowCommit =>
      handleAddConnection midpoint sourceTableId targetTableId type
                          now1 now2 now3 nowCommit st
  | UpdateTable tableId newName nowCommit => handleUpdateTable tableId newName nowCommit st
  | UpdateTablePosition tableId position now =>
      handleUpdateTablePosition tableId position now st
  | AddColumn tableId nowId nowCommit => handleAddColumn tableId nowId nowCommit st
  | UpdateColumnDetails tableId columnId updatedColumn nowCommit =>
      handleUpdateColumnDetails tableId columnId updatedColumn nowCommit st
  | DeleteColumn tableId columnId nowCommit => handleDeleteColumn tableId columnId nowCommit st
  | DeleteTable tableId confirmed nowCommit =>
      handleDeleteTable tableId confirmed nowCommit st
  end.

(** The commands that edit the content of the schema: all but undo, redo
    and the move of a table. *)
Definition isEdit (a : Action num) : bool :=
  match a with
  | Undo _ | Redo _ | UpdateTablePosition _ _ _ => false
  | _ => true
  end.

(** The snapshots that a project holds, oldest first. *)
Definition timeline (p : Project.t num) : list (option (Schema.t num)) :=
  Project.undoStack p ++ [Project.schema p] ++ Project.redoStack p.

(** The projects other than the active one are the same in [st] and [st'],
    and so is the choice of the active project. *)
Definition keepsOthers (st st' : App.t num) : Prop :=
  App.activeProjectId st' = App.activeProjectId st
  ∧ length (App.projects st') = length (App.projects st)
  ∧ ∀ i p, App.projects st !! i = Some p →
           Some (Project.id p) ≠ App.activeProjectId st →
           App.projects st' !! i = Some p.

End Actions.

Section Reach.
Context {num : Type}.

(** The states that a handler running in the render [st] can produce: it
    only sets the error slot and updates the active project. *)
Inductive reach (st : App.t num) : App.t num → Prop :=
  | reach_here : reach st st
  | reach_error e st' : reach st st' → reach st (setError e st')
  | reach_update now u st' : reach st st' → reach st (updateActiveProject st now u st').

End Reach.

(** ** Predicates on identifiers *)

(** The character [a] occurs in [s]. *)
Fixpoint occurs (a : ascii) (s : string) : bool :=
  match s with
  | EmptyString => false
  | String b r => bool_decide (a = b) || occurs a r
  end.

(** The identifier [i] ends with a dash and the decimal numeral of [n], as
    the identifiers minted from [idCounter] do. *)
Definition stamped (i : option string) (n : nat) : Prop :=
  ∃ prefix, i = Some (prefix +:+ "-" +:+ pretty n).

(** * Properties *)

(** ** The active project under a functional update *)

Section ActiveProject.
Context {num : Type}.
Implicit Types (st r : App.t num) (p ap : Project.t num) (u : Updates.t num).

Lemma applyUpdates_id p u now : Project.id (applyUpdates p u now) = Project.id p.
Proof. reflexivity. Qed.

Lemma activeProject_update st now u :
  activeProject (updateActiveProject st now u st)
  = (λ p, applyUpdates p u now) <$> activeProject st.
Proof.
  unfold activeProject, updateActiveProject. simpl.
  rewrite list_find_fmap.
  set (P := λ p : Project.t num, Some (Project.id p) = App.activeProjectId st).
  rewrite (list_find_ext _ P).
  - destruct (list_find P (App.projects st)) as [[i p]|] eqn:E; simpl; [|done].
    apply list_find_Some in E as (_ & HP & _).
    by rewrite decide_True.
  - intros p. unfold compose, P. by case_decide.
Qed.

Lemma activeProject_setError st e : activeProject (setError e st) = activeProject st.
Proof. reflexivity. Qed.

Lemma activeProject_setActiveTool st tool :
  activeProject (setActiveTool tool st) = activeProject st.
Proof. reflexivity. Qed.

Lemma commit_active st ap now s :
  activeProject st = Some ap →
  activeProject (commitSchemaChange st now s st)
  = Some (Project.mk (Project.id ap) (Project.name ap) s (Project.messages ap)
            (match s with None => EmptyString | Some _ => Project.ddl ap end)
            (Project.undoStack ap ++ [Project.schema ap]) [] now).
Proof.
  intros E. unfold commitSchemaChange. rewrite E, activeProject_update, E. done.
Qed.

Lemma commit_inactive st now s :
  activeProject st = None → commitSchemaChange st now s st = st.
Proof. intros E. unfold commitSchemaChange. by rewrite E. Qed.

Lemma undo_active st ap now older previous :
  activeProject st = Some ap →
  Project.undoStack ap = older ++ [previous] →
  activeProject (handleUndo now st)
  = Some (Project.mk (Project.id ap) (Project.name ap) previous (Project.messages ap)
            (match previous with None => EmptyString | Some _ => Project.ddl ap end)
            older (Project.schema ap :: Project.redoStack ap) now).
Proof.
  intros E Hu. unfold handleUndo. rewrite E, Hu, last_snoc.
  rewrite activeProject_update, E. simpl. unfold applyUpdates. simpl.
  rewrite length_app. simpl.
  replace (length older + 1 - 1) with (length older) by lia.
  by rewrite take_app_length.
Qed.

Lemma undo_inactive st now : activeProject st = None → handleUndo now st = st.
Proof. intros E. unfold handleUndo. by rewrite E. Qed.

Lemma redo_active st ap now next newer :
  activeProject st = Some ap →
  Project.redoStack ap = next :: newer →
  activeProject (handleRedo now st)
  = Some (Project.mk (Project.id ap) (Project.name ap) next (Project.messages ap)
            (match next with None => EmptyString | Some _ => Project.ddl ap end)
            (Project.undoStack ap ++ [Project.schema ap]) newer now).
Proof.
  intros E Hr. unfold handleRedo. rewrite E, Hr.
  by rewrite activeProject_update, E.
Qed.

End ActiveProject.

(** ** Command history *)

Section History.
Context {num : Type}.
Implicit Types (st : App.t num) (ap : Project.t num).

Lemma commits_inactive ops st : activeProject st = None → commits ops st = st.
Proof.
  revert st. induction ops as [|op ops IH]; intros st E; [done|].
  unfold commits in *. simpl. rewrite (commit_inactive _ _ _ E). by apply IH.
Qed.

Lemma undos_inactive nows st : activeProject st = None → undos nows st = st.
Proof.
  revert st. induction nows as [|now nows IH]; intros st E; [done|].
  unfold undos in *. simpl. rewrite (undo_inactive _ _ E). by apply IH.
Qed.

Lemma undos_snoc nows now st :
  undos (nows ++ [now]) st = handleUndo now (undos nows st).
Proof. unfold undos. by rewrite foldl_app. Qed.

(** After [n] commits, [n] undo commands lead back to the schema and the undo
    stack of the start. *)
Lemma undos_commits ops : ∀ nows st ap,
  activeProject st = Some ap →
  length nows = length ops →
  ∃ ap', activeProject (undos nows (commits ops st)) = Some ap' ∧ sameHistory ap ap'.
Proof.
  induction ops as [|[now0 s] ops IH]; intros nows st ap E Hlen.
  - destruct nows; [|done]. exists ap. by split.
  - destruct (decide (nows = [])) as [->|Hne]; [done|].
    destruct (exists_last Hne) as (nows' & now & ->).
    rewrite length_app in Hlen. simpl in Hlen.
    unfold commits. simpl. fold (commits ops (commitSchemaChange st now0 s st)).
    destruct (IH nows' _ _ (commit_active st ap now0 s E) ltac:(lia))
      as (ap1 & E1 & Hs1 & Hu1).
    simpl in Hs1, Hu1.
    rewrite undos_snoc.
    eexists. split; [by eapply undo_active|].
    by split.
Qed.

End History.

Section HistoryClaim.
Context {num : Type}.

(** C2.  Let [ap] be the active project.  After any run of [N] commits, [N]
    undo commands restore the schema (and the undo stack) that [ap] had;
    when the undo stack is not empty, a redo right after an undo restores the
    schema, the undo stack and the redo stack that the undo changed; and a
    commit after an undo leaves the redo stack empty. *)
Theorem C2_undo_redo (st : App.t num) (ap : Project.t num) :
  activeProject st = Some ap →
  (∀ ops nows, length nows = length ops →
     ∃ ap', activeProject (undos nows (commits ops st)) = Some ap'
            ∧ Project.schema ap' = Project.schema ap
            ∧ Project.undoStack ap' = Project.undoStack ap)
  ∧ (∀ now1 now2, Project.undoStack ap ≠ [] →
     ∃ ap', activeProject (handleRedo now2 (handleUndo now1 st)) = Some ap'
            ∧ Project.schema ap' = Project.schema ap
            ∧ Project.undoStack ap' = Project.undoStack ap
            ∧ Project.redoStack ap' = Project.redoStack ap)
  ∧ (∀ now1 now2 s,
     ∃ ap', activeProject (commitSchemaChange (handleUndo now1 st) now2 s
                                              (handleUndo now1 st)) = Some ap'
            ∧ Project.schema ap' = s
            ∧ Project.redoStack ap' = []).
Proof.
  intros E. split_and!.
  - intros ops nows Hlen.
    destruct (undos_commits ops nows st ap E Hlen) as (ap' & E' & Hs & Hu).
    by exists ap'.
  - intros now1 now2 Hne.
    destruct (exists_last Hne) as (older & previous & Hu).
    pose proof (undo_active st ap now1 older previous E Hu) as E1.
    eexists. split; [by eapply redo_active|]. simpl. by rewrite Hu.
  - intros now1 now2 s.
    destruct (decide (Project.undoStack ap = [])) as [Hnil|Hne].
    + assert (handleUndo now1 st = st) as ->.
      { unfold handleUndo. by rewrite E, Hnil. }
      eexists. split; [by eapply commit_active|]. done.
    + destruct (exists_last Hne) as (older & previous & Hu).
      pose proof (undo_active st ap now1 older previous E Hu) as E1.
      eexists. split; [by eapply commit_active|]. done.
Qed.

End HistoryClaim.

(** Three commits on the example project are undone by three undo commands,
    and a redo after an undo restores the schema. *)
Lemma C2_undo_redo_witness :
  (∃ ap', activeProject
            (undos [4; 5; 6]%Z
               (commits [(1%Z, Some Examples.campus); (2%Z, None);
                         (3%Z, Some Examples.emptySchema)]
                        (Examples.app None [Some Examples.emptySchema] [] select)))
          = Some ap'
          ∧ Project.schema ap' = None
          ∧ Project.undoStack ap' = [Some Examples.emptySchema])
  ∧ (∃ ap', activeProject
              (handleRedo 2 (handleUndo 1
                 (Examples.app None [Some Examples.emptySchema] [] select)))
            = Some ap'
            ∧ Project.schema ap' = None).
Proof.
  pose proof (C2_undo_redo
    (Examples.app None [Some Examples.emptySchema] [] select)
    (Examples.project None [Some Examples.emptySchema] []) eq_refl)
    as (H1 & H2 & _).
  split.
  - exact (H1 [(1%Z, Some Examples.campus); (2%Z, None);
               (3%Z, Some Examples.emptySchema)] [4; 5; 6]%Z eq_refl).
  - destruct (H2 1%Z 2%Z ltac:(discriminate)) as (ap' & E' & Hs & _).
    exists ap'. by split.
Defined.

(** ** Maps built from lists, and the identifier counter *)

Section MapOf.
Context {V : Type} (key : V → string).

Lemma foldl_insert_lookup (l : list V) (m : gmap string V) (k : string) :
  foldl (λ m v, <[key v := v]> m) m l !! k
  = match last (filter (λ v, key v = k) l) with
    | Some v => Some v
    | None => m !! k
    end.
Proof.
  revert m. induction l as [|a l IH]; intros m; [done|].
  simpl. rewrite IH, filter_cons. case_decide as Hk.
  - rewrite last_cons. destruct (last (filter _ l)); [done|].
    by rewrite Hk, lookup_insert_eq.
  - destruct (last (filter _ l)); [done|]. by rewrite lookup_insert_ne.
Qed.

(** [map.get(k)] is the last entry of the list with key [k]. *)
Lemma Map_of_lookup (l : list V) (k : string) :
  Map_of key l !! k = last (filter (λ v, key v = k) l).
Proof.
  unfold Map_of. rewrite foldl_insert_lookup.
  by destruct (last (filter _ l)).
Qed.

Lemma Map_of_lookup_Some (l : list V) (k : string) (v : V) :
  Map_of key l !! k = Some v → v ∈ l ∧ key v = k.
Proof.
  rewrite Map_of_lookup. intros H%last_Some_elem_of.
  by apply list_elem_of_filter in H as [? ?].
Qed.

Lemma NoDup_key_inj (l : list V) (v w : V) :
  NoDup (key <$> l) → v ∈ l → w ∈ l → key v = key w → v = w.
Proof.
  induction l as [|a l IH]; intros Hnd Hv Hw Hk; [by apply elem_of_nil in Hv|].
  rewrite fmap_cons in Hnd. apply NoDup_cons in Hnd as [Ha Hnd].
  apply elem_of_cons in Hv as [->|Hv]; apply elem_of_cons in Hw as [->|Hw].
  - done.
  - destruct Ha. rewrite Hk. by apply list_elem_of_fmap_2.
  - destruct Ha. rewrite <- Hk. by apply list_elem_of_fmap_2.
  - by apply IH.
Qed.

(** With pairwise distinct keys, every entry is found under its own key. *)
Lemma Map_of_lookup_NoDup (l : list V) (v : V) :
  NoDup (key <$> l) → v ∈ l → Map_of key l !! key v = Some v.
Proof.
  intros Hnd Hv.
  destruct (Map_of key l !! key v) as [w|] eqn:E.
  - apply Map_of_lookup_Some in E as [Hw Hk].
    f_equal. by apply (NoDup_key_inj l).
  - rewrite Map_of_lookup in E. apply last_None in E.
    assert (v ∈ filter (λ w, key w = key v) l) as Hin
      by by apply list_elem_of_filter.
    rewrite E in Hin. by apply elem_of_nil in Hin.
Qed.

End MapOf.

Section MintFacts.
Context {A B : Type}.

Lemma mapM_Mint_cons (f : A → Mint B) (a : A) (l : list A) (c : nat) :
  mapM f (a :: l) c
  = let '(b, c1) := f a c in let '(bs, c2) := mapM f l c1 in (b :: bs, c2).
Proof.
  simpl. unfold mbind, Mint_bind. destruct (f a c) as [b c1].
  fold (mapM f l). destruct (mapM f l c1) as [bs c2]. done.
Qed.

(** The [i]-th result of [l.map(f)] is [f] of the [i]-th element, run from
    some value of the counter. *)
Lemma mapM_Mint_lookup (f : A → Mint B) (l : list A) (c : nat) (i : nat) (a : A) :
  l !! i = Some a → ∃ ci, (mapM f l c).1 !! i = Some (f a ci).1.
Proof.
  revert c i. induction l as [|a0 l IH]; intros c i Hi; [done|].
  rewrite mapM_Mint_cons.
  destruct (f a0 c) as [b c1] eqn:Eb.
  destruct (mapM f l c1) as [bs c2] eqn:Ebs.
  destruct i as [|i]; simpl in *.
  - injection Hi as ->. exists c. by rewrite Eb.
  - destruct (IH c1 i Hi) as [ci Hci]. exists ci. by rewrite Ebs in Hci.
Qed.

End MintFacts.

Lemma mapM_Mint_id {A : Type} (f : A → Mint A) (l : list A) (c : nat) :
  (∀ a, a ∈ l → f a c = (a, c)) → mapM f l c = (l, c).
Proof.
  induction l as [|a l IH]; intros Hf; [done|].
  rewrite mapM_Mint_cons, (Hf a) by apply list_elem_of_here.
  rewrite IH; [done|]. intros b Hb. apply Hf. by apply list_elem_of_further.
Qed.

Lemma orMint_truthy (a : option string) (fresh : Mint string) (c : nat) :
  truthy a → ∃ s, a = Some s ∧ orMint a fresh c = (s, c).
Proof.
  destruct a as [s|]; [|done]. intros Ht. exists s. split; [done|].
  unfold orMint. by destruct (truthy (Some s)).
Qed.

Lemma orMint_falsy (a : option string) (fresh : Mint string) (c : nat) :
  ¬ truthy a → orMint a fresh c = fresh c.
Proof.
  destruct a as [s|]; [|done]. intros Ht.
  unfold orMint. by destruct (truthy (Some s)).
Qed.

(** ** Identity and reconciliation *)

Section Reconciliation.
Context {num : Type}.
Implicit Types (t : Table.t num) (s : Schema.t num).

Lemma nullish_same {A} (a : option A) : nullish a a = a.
Proof. by destruct a. Qed.

Lemma reconcileColumn_self (cols : list Column.t) (tableId : string)
    (col : Column.t) (c : nat) :
  NoDup (Column.name <$> cols) → col ∈ cols → truthy (Column.id col) →
  reconcileColumn (Map_of Column.name cols) tableId col c = (col, c).
Proof.
  intros Hnd Hin Ht. unfold reconcileColumn.
  rewrite (Map_of_lookup_NoDup _ _ _ Hnd Hin). simpl.
  destruct (orMint_truthy (Column.id col)
              (mintColumnId tableId (Column.name col)) c Ht) as (i & Hi & Hor).
  unfold mbind, Mint_bind. rewrite Hor. unfold mret, Mint_ret.
  destruct col; simpl in *. by rewrite Hi.
Qed.

Lemma reconcileTable_self (tables : list (Table.t num)) t (c : nat) :
  NoDup (Table.name <$> tables) → t ∈ tables →
  truthy (Table.id t) →
  (∀ col, col ∈ Table.columns t → truthy (Column.id col)) →
  NoDup (Column.name <$> Table.columns t) →
  reconcileTable (Map_of Table.name tables) t c = (t, c).
Proof.
  intros Hnd Hin Ht Hcols Hndc. unfold reconcileTable.
  rewrite (Map_of_lookup_NoDup _ _ _ Hnd Hin). simpl.
  destruct (orMint_truthy (Table.id t) (mintTableId (Table.name t)) c Ht)
    as (i & Hi & Hor).
  unfold mbind, Mint_bind at 1. rewrite Hor.
  unfold mbind, Mint_bind.
  rewrite mapM_Mint_id.
  - unfold mret, Mint_ret. rewrite !nullish_same.
    destruct t; simpl in *. by rewrite Hi.
  - intros col Hcol. apply reconcileColumn_self; auto.
Qed.

(** C3.  When every table and every column carries a (non-empty) identifier,
    table names are pairwise distinct and so are the column names of each
    table, reconciling a schema against itself returns the schema itself,
    hence the same table identifiers, column identifiers and positions, and
    mints no identifier. *)
Theorem C3_reconcile_self s (c : nat) :
  (∀ t, t ∈ Schema.tables s →
     truthy (Table.id t) ∧ ∀ col, col ∈ Table.columns t → truthy (Column.id col)) →
  NoDup (Table.name <$> Schema.tables s) →
  (∀ t, t ∈ Schema.tables s → NoDup (Column.name <$> Table.columns t)) →
  reconcileSchemaIds s s c = (s, c).
Proof.
  intros Hids Hnd Hndc. unfold reconcileSchemaIds.
  unfold mbind, Mint_bind. rewrite mapM_Mint_id.
  - unfold mret, Mint_ret. by destruct s.
  - intros t Ht. destruct (Hids t Ht) as [Hid Hcols].
    apply reconcileTable_self; auto.
Qed.

Lemma reconcileTable_matched (m : gmap string (Table.t num)) newT oldT (c : nat) :
  m !! Table.name newT = Some oldT →
  let t' := (reconcileTable m newT c).1 in
  Table.name t' = Table.name newT
  ∧ (truthy (Table.id oldT) → Table.id t' = Table.id oldT)
  ∧ (¬ truthy (Table.id oldT) →
     Table.id t' = Some (mintTableId (Table.name newT) c).1)
  ∧ Table.x t' = nullish (Table.x newT) (Table.x oldT)
  ∧ Table.y t' = nullish (Table.y newT) (Table.y oldT).
Proof.
  intros Hm. unfold reconcileTable. rewrite Hm. simpl.
  unfold mbind, Mint_bind, mret, Mint_ret.
  destruct (orMint (Table.id oldT) (mintTableId (Table.name newT)) c)
    as [tableId c1] eqn:Hor.
  destruct (mapM (M:=Mint) _ (Table.columns newT) c1) as [cols c2].
  cbn [fst Table.id Table.name Table.x Table.y].
  split_and!; try done.
  - intros Ht. destruct (orMint_truthy _ (mintTableId (Table.name newT)) c Ht)
      as (i & Hi & Hor'). rewrite Hor in Hor'. by simplify_eq.
  - intros Ht. rewrite orMint_falsy in Hor by done.
    change (Some tableId = Some (mintTableId (Table.name newT) c).1).
    by rewrite Hor.
Qed.

(** C4, as the code has it.  A table of the new schema whose name is that of
    a table of the old schema (the last one of that name) keeps its name,
    takes the old identifier when that identifier is non-empty (a fresh one
    otherwise), and takes each coordinate from the new table when the new
    table provides it, from the old table otherwise. *)
Theorem C4_reconcile_matched (newSchema oldSchema : Schema.t num) (c : nat)
    (i : nat) newT oldT :
  Schema.tables newSchema !! i = Some newT →
  last (filter (λ t, Table.name t = Table.name newT) (Schema.tables oldSchema))
    = Some oldT →
  ∃ t', Schema.tables (reconcileSchemaIds newSchema oldSchema c).1 !! i = Some t'
    ∧ Table.name t' = Table.name newT
    ∧ (truthy (Table.id oldT) → Table.id t' = Table.id oldT)
    ∧ (¬ truthy (Table.id oldT) →
       ∃ n, Table.id t' = Some (mintTableId (Table.name newT) n).1)
    ∧ Table.x t' = nullish (Table.x newT) (Table.x oldT)
    ∧ Table.y t' = nullish (Table.y newT) (Table.y oldT).
Proof.
  intros Hi Hlast. rewrite <- Map_of_lookup in Hlast.
  unfold reconcileSchemaIds. unfold mbind, Mint_bind.
  destruct (mapM_Mint_lookup
              (reconcileTable (Map_of Table.name (Schema.tables oldSchema)))
              (Schema.tables newSchema) c i newT Hi) as [ci Hci].
  destruct (mapM (M:=Mint) _ (Schema.tables newSchema) c) as [ts c'] eqn:Ets.
  simpl in *. eexists. split; [exact Hci|].
  destruct (reconcileTable_matched _ newT oldT ci Hlast) as (H1 & H2 & H3 & H4 & H5).
  split_and!; try done.
  intros Ht. exists ci. by apply H3.
Qed.

End Reconciliation.

(** Reconciling the example schema against itself. *)
Lemma C3_reconcile_self_witness :
  reconcileSchemaIds Examples.campus Examples.campus 5 = (Examples.campus, 5).
Proof.
  apply (C3_reconcile_self Examples.campus 5).
  - intros t Ht. unfold Examples.campus in Ht. simpl in Ht.
    apply elem_of_cons in Ht as [->|Ht];
      [|apply elem_of_cons in Ht as [->|Ht]; [|by apply elem_of_nil in Ht]].
    + split; [exact I|]. intros col Hcol. simpl in Hcol.
      apply elem_of_cons in Hcol as [->|Hcol]; [exact I|by apply elem_of_nil in Hcol].
    + split; [exact I|]. intros col Hcol. simpl in Hcol.
      apply elem_of_cons in Hcol as [->|Hcol]; [exact I|by apply elem_of_nil in Hcol].
  - apply (bool_decide_unpack _). vm_compute. exact I.
  - intros t Ht. unfold Examples.campus in Ht. simpl in Ht.
    apply elem_of_cons in Ht as [->|Ht];
      [|apply elem_of_cons in Ht as [->|Ht]; [|by apply elem_of_nil in Ht]].
    + apply (bool_decide_unpack _). vm_compute. exact I.
    + apply (bool_decide_unpack _). vm_compute. exact I.
Defined.

(** The table [students], regenerated with a position of its own, is matched
    with the placed table [students]: it takes the old identifier and keeps
    its own position. *)
Lemma C4_reconcile_matched_witness :
  ∃ t', Schema.tables
          (reconcileSchemaIds (Schema.mk [Examples.movedStudents]) Examples.campus 0).1
        !! 0 = Some t'
    ∧ Table.id t' = Some "t1"
    ∧ Table.x t' = Some 7%Z.
Proof.
  destruct (C4_reconcile_matched (Schema.mk [Examples.movedStudents]) Examples.campus 0 0
              Examples.movedStudents Examples.students eq_refl eq_refl)
    as (t' & Ht' & _ & Hid & _ & Hx & _).
  exists t'. split; [exact Ht'|]. split; [exact (Hid I)|exact Hx].
Defined.

(** C4 as stated fails: the old table [students] has a position, the new
    table provides another one, and the reconciled table has the new
    position, not the old one. *)
Lemma C4_counterexample :
  Table.name Examples.movedStudents = Table.name Examples.students
  ∧ Table.x Examples.students = Some 1%Z
  ∧ Table.x <$> (Schema.tables
       (reconcileSchemaIds (Schema.mk [Examples.movedStudents]) Examples.campus 0).1
       !! 0) = Some (Some 7%Z)
  ∧ Table.x <$> (Schema.tables
       (reconcileSchemaIds (Schema.mk [Examples.movedStudents]) Examples.campus 0).1
       !! 0) ≠ Some (Table.x Examples.students).
Proof. split_and!; [reflexivity..|]. vm_compute. discriminate. Qed.

(** ** The connection tool *)

Section ConnectionTool.
Context {num : Type} `{!JsNumber num} (midpoint : option num → option num → num).

(** C5, as the code has it.  With a connection tool active and a source
    selected, a click on the source node itself adds no connection (the
    application state changes in the active tool only), clears the selected
    source and makes [select] the active tool. *)
Theorem C5_click_source_again (st : App.t num) (g : GraphState)
    (d : GraphNode.t num) (now1 now2 now3 nowCommit : Z) :
  isConnectionTool (App.activeTool st) →
  truthy (connectionSource g) →
  GraphNode.id d = connectionSource g →
  nodeClick midpoint d now1 now2 now3 nowCommit (st, g)
  = (setActiveTool select st, setConnectionSource None g).
Proof.
  intros Htool Hsrc Hid. unfold nodeClick.
  destruct (isConnectionTool (App.activeTool st)); [|done].
  destruct (truthy (connectionSource g)); [|done]. simpl.
  by rewrite decide_False by (by rewrite Hid; intros []).
Qed.

(** A first click selects the clicked node and changes nothing else. *)
Lemma click_first (st : App.t num) (g : GraphState) (d : GraphNode.t num)
    (now1 now2 now3 nowCommit : Z) :
  isConnectionTool (App.activeTool st) →
  ¬ truthy (connectionSource g) →
  nodeClick midpoint d now1 now2 now3 nowCommit (st, g)
  = (st, setConnectionSource (GraphNode.id d) g).
Proof.
  intros Htool Hsrc. unfold nodeClick.
  destruct (isConnectionTool (App.activeTool st)); [|done].
  by destruct (truthy (connectionSource g)).
Qed.

(** A tool switch clears the selected source. *)
Lemma switchTool_resets (st : App.t num) (g : GraphState) (tool : ActiveTool) :
  tool ≠ App.activeTool st →
  switchTool tool (st, g) = (setActiveTool tool st, setConnectionSource None g).
Proof. intros Hne. unfold switchTool. by rewrite decide_False. Qed.

End ConnectionTool.

(** With the 1-to-N tool and the node [t1] selected, a click on [t1]. *)
Lemma C5_click_source_again_witness :
  nodeClick Examples.mid (toNode Examples.students) 1 2 3 4
    (Examples.app (Some Examples.campus) [] [] addConnection_1_n,
     mkGraphState (Some "t1") None)
  = (Examples.app (Some Examples.campus) [] [] select, mkGraphState None None).
Proof.
  exact (C5_click_source_again Examples.mid
           (Examples.app (Some Examples.campus) [] [] addConnection_1_n)
           (mkGraphState (Some "t1") None) (toNode Examples.students) 1 2 3 4 I I eq_refl).
Defined.

(** C5 as stated fails: after the click on the selected source the machine
    is not in the state [sourceSelected] any more, and the active tool has
    changed. *)
Lemma C5_counterexample :
  GraphNode.id (toNode Examples.students) = connectionSource Examples.selecting.2
  ∧ connectionSource
      (nodeClick Examples.mid (toNode Examples.students) 1 2 3 4 Examples.selecting).2
    ≠ connectionSource Examples.selecting.2
  ∧ App.activeTool
      (nodeClick Examples.mid (toNode Examples.students) 1 2 3 4 Examples.selecting).1
    ≠ App.activeTool Examples.selecting.1.
Proof. vm_compute. split_and!; (reflexivity || discriminate). Qed.

(** ** The deep copy *)

Section JsonCopy.
Context {num : Type} `{!JsNumber num}.
Implicit Types (schema : Schema.t num) (t : Table.t num).

Lemma jsonNumber_Some (n m : num) : jsonNumber n = Some m → m = n ∧ isFinite n.
Proof. unfold jsonNumber. destruct (isFinite n); [|done]. by intros [= <-]. Qed.

Lemma jsonNumber_finite (o : option num) :
  (∀ n, o = Some n → isFinite n) → o ≫= jsonNumber = o.
Proof.
  destruct o as [n|]; [|done]. intros Hfin. simpl. unfold jsonNumber.
  by destruct (isFinite n) eqn:E; [|specialize (Hfin n eq_refl); rewrite E in Hfin].
Qed.

Lemma jsonNumber_idemp (o : option num) :
  (o ≫= jsonNumber) ≫= jsonNumber = o ≫= jsonNumber.
Proof.
  destruct o as [n|]; [|done]. simpl. unfold jsonNumber.
  destruct (isFinite n) eqn:E; [|done]. simpl. by rewrite E.
Qed.

(** The copy of a copy is the copy. *)
Lemma jsonTable_idemp t : jsonTable (jsonTable t) = jsonTable t.
Proof. unfold jsonTable. simpl. by rewrite !jsonNumber_idemp. Qed.

(** A table whose coordinates are finite or absent is its own copy. *)
Lemma jsonTable_finite t :
  (∀ n, Table.x t = Some n → isFinite n) → (∀ n, Table.y t = Some n → isFinite n) →
  jsonTable t = t.
Proof.
  intros Hx Hy. unfold jsonTable. rewrite !jsonNumber_finite by done. by destruct t.
Qed.

Lemma jsonTable_with_columns t (cs : list Column.t) :
  Table.with_columns (jsonTable t) cs = jsonTable (Table.with_columns t cs).
Proof. done. Qed.

Lemma jsonTable_with_name t (n : string) :
  Table.with_name (jsonTable t) n = jsonTable (Table.with_name t n).
Proof. done. Qed.

Lemma list_find_json (P : Table.t num → Prop) `{∀ t, Decision (P t)}
    (l : list (Table.t num)) :
  (∀ t, P (jsonTable t) ↔ P t) →
  list_find P (jsonTable <$> l) = prod_map id jsonTable <$> list_find P l.
Proof.
  intros HP. rewrite list_find_fmap. f_equal. apply list_find_ext.
  intros t. apply HP.
Qed.

Lemma findTable_json schema (i : option string) :
  findTable (jsonSchema schema) i = jsonTable <$> findTable schema i.
Proof.
  unfold findTable, jsonSchema. cbn [Schema.tables].
  rewrite (list_find_json (λ t, Table.id t = i)) by done.
  by destruct (list_find _ (Schema.tables schema)) as [[k t]|].
Qed.

Lemma findPk_json t : findPk (jsonTable t) = findPk t.
Proof. done. Qed.

Lemma nameTaken_json (l : list (Table.t num)) (n : string) :
  nameTaken (jsonTable <$> l) n = nameTaken l n.
Proof.
  unfold nameTaken. apply bool_decide_ext. rewrite !Exists_exists. split.
  - intros (t' & (t & -> & Ht)%list_elem_of_fmap & Hn). by exists t.
  - intros (t & Ht & Hn). exists (jsonTable t). split; [|done].
    by apply list_elem_of_fmap_2.
Qed.

Lemma updateFound_json (i : option string) (f : Table.t num → Table.t num)
    (l : list (Table.t num)) :
  (∀ t, f (jsonTable t) = jsonTable (f t)) →
  updateFound (λ t, Table.id t = i) f (jsonTable <$> l)
  = jsonTable <$> updateFound (λ t, Table.id t = i) f l.
Proof.
  intros Hf. unfold updateFound.
  rewrite (list_find_json (λ t, Table.id t = i)) by done.
  destruct (list_find _ l) as [[k t]|]; [|done]. simpl.
  by rewrite list_fmap_insert, Hf.
Qed.

End JsonCopy.

(** ** Schema mutations *)

Section Mutations.
Context {num : Type} `{!JsNumber num} (midpoint : option num → option num → num).
Implicit Types (st : App.t num) (ap : Project.t num) (s schema : Schema.t num)
  (t : Table.t num).

Lemma activeSchema_Some st schema :
  activeSchema st = Some schema ↔
  ∃ ap, activeProject st = Some ap ∧ Project.schema ap = Some schema.
Proof.
  unfold activeSchema. destruct (activeProject st) as [ap|]; simpl.
  - split; [by exists ap|]. by intros (ap' & [= <-] & ?).
  - split; [done|]. by intros (? & ? & _).
Qed.

Lemma activeSchema_commit st schema now (s' : option (Schema.t num)) :
  activeSchema st = Some schema →
  activeSchema (commitSchemaChange st now s' st) = s'.
Proof.
  intros (ap & E & _)%activeSchema_Some.
  unfold activeSchema. by rewrite (commit_active st ap now s' E).
Qed.

Lemma findTable_Some schema i t :
  findTable schema i = Some t ↔
  ∃ k, list_find (λ t', Table.id t' = i) (Schema.tables schema) = Some (k, t).
Proof.
  unfold findTable.
  destruct (list_find _ (Schema.tables schema)) as [[k t']|]; simpl.
  - split; [intros [= ->]; by exists k|]. by intros (k' & [= _ ->]).
  - split; [done|]. by intros (? & ?).
Qed.

Lemma updateFound_lookup {A} (P : A → Prop) `{∀ a, Decision (P a)} (f : A → A)
    (l : list A) (k : nat) (a : A) (i : nat) :
  list_find P l = Some (k, a) →
  updateFound P f l !! i = if decide (i = k) then Some (f a) else l !! i.
Proof.
  intros Hfind. unfold updateFound. rewrite Hfind.
  apply list_find_Some in Hfind as (Hk & _ & _).
  case_decide as Hik.
  - subst i. apply list_lookup_insert_eq. by eapply lookup_lt_Some.
  - by apply list_lookup_insert_ne.
Qed.

Lemma renameReference_spec (oldName newName : string) (c : Column.t) :
  (Column.isForeignKey c ∧ Column.foreignKeyTable c = Some oldName →
   renameReference oldName newName c = Column.with_foreignKeyTable c (Some newName))
  ∧ (¬ (Column.isForeignKey c ∧ Column.foreignKeyTable c = Some oldName) →
     renameReference oldName newName c = c).
Proof.
  unfold renameReference. split.
  - intros [Hfk Ht]. destruct (Column.isForeignKey c); [|done].
    by rewrite bool_decide_eq_true_2.
  - intros Hn. destruct (Column.isForeignKey c) eqn:Hfk; [|done]. simpl.
    rewrite bool_decide_eq_false_2; [done|]. intros Ht. apply Hn. by split.
Qed.

(** C7, as the code has it.  A successful rename of the table [T] (found
    under [tableId], with a non-empty name) to [newName] commits a schema
    with the same tables in the same order, in which [T] has the name
    [newName] and every other table keeps its name, every table keeps its
    identifier, every column that is a foreign key with [foreignKeyTable]
    equal to the old name has [foreignKeyTable] equal to [newName] and is
    otherwise unchanged, and every other column is unchanged.  The schema
    is the deep copy of the old one: a coordinate that is a finite number or
    is absent is kept, a coordinate that is not a finite number becomes
    [null]. *)
Theorem C7_rename_propagates st schema (tableId : option string)
    (newName : string) (now : Z) t0 :
  activeSchema st = Some schema →
  ¬ Exists (λ t, Table.name t = newName ∧ Table.id t ≠ tableId) (Schema.tables schema) →
  findTable schema tableId = Some t0 →
  Table.name t0 ≠ EmptyString →
  ∃ schema',
    activeSchema (handleUpdateTable tableId newName now st) = Some schema'
    ∧ length (Schema.tables schema') = length (Schema.tables schema)
    ∧ ∀ i t, Schema.tables schema !! i = Some t →
        ∃ t', Schema.tables schema' !! i = Some t'
          ∧ Table.id t' = Table.id t
          ∧ Table.x t' = Table.x t ≫= jsonNumber
          ∧ Table.y t' = Table.y t ≫= jsonNumber
          ∧ ((∀ n, Table.x t = Some n → isFinite n) → Table.x t' = Table.x t)
          ∧ ((∀ n, Table.y t = Some n → isFinite n) → Table.y t' = Table.y t)
          ∧ (∀ n, Table.x t = Some n → isFinite n = false → Table.x t' = None)
          ∧ (∀ n, Table.y t = Some n → isFinite n = false → Table.y t' = None)
          ∧ (fst <$> list_find (λ t, Table.id t = tableId) (Schema.tables schema) = Some i →
             Table.name t' = newName)
          ∧ (fst <$> list_find (λ t, Table.id t = tableId) (Schema.tables schema) ≠ Some i →
             Table.name t' = Table.name t)
          ∧ length (Table.columns t') = length (Table.columns t)
          ∧ ∀ j c, Table.columns t !! j = Some c →
              ∃ c', Table.columns t' !! j = Some c'
                ∧ sameButTarget c c'
                ∧ (Column.isForeignKey c ∧ Column.foreignKeyTable c = Some (Table.name t0) →
                   Column.foreignKeyTable c' = Some newName)
                ∧ (¬ (Column.isForeignKey c
                      ∧ Column.foreignKeyTable c = Some (Table.name t0)) →
                   c' = c).
Proof.
  intros Hs Hfree Hfind Hname.
  unfold handleUpdateTable. rewrite Hs, bool_decide_eq_false_2 by done.
  rewrite Hfind. simpl.
  rewrite bool_decide_eq_false_2 by done. simpl.
  rewrite (activeSchema_commit st schema) by done.
  rewrite updateFound_json by done.
  apply findTable_Some in Hfind as [k Hk].
  eexists. split; [done|]. simpl. split.
  { rewrite !length_fmap. unfold updateFound. rewrite Hk. apply length_insert. }
  intros i t Hi.
  rewrite !list_lookup_fmap, (updateFound_lookup _ _ _ k t0 i Hk), Hk. simpl.
  assert (∀ t1 : Table.t num, ∀ j c, Table.columns t1 !! j = Some c →
    ∃ c', (renameReference (Table.name t0) newName <$> Table.columns t1) !! j = Some c'
      ∧ sameButTarget c c'
      ∧ (Column.isForeignKey c ∧ Column.foreignKeyTable c = Some (Table.name t0) →
         Column.foreignKeyTable c' = Some newName)
      ∧ (¬ (Column.isForeignKey c ∧ Column.foreignKeyTable c = Some (Table.name t0)) →
         c' = c)) as Hcols.
  { intros t1 j c Hj. rewrite list_lookup_fmap, Hj. simpl.
    eexists. split; [done|].
    destruct (renameReference_spec (Table.name t0) newName c) as [Hyes Hno].
    destruct (decide (Column.isForeignKey c
                      ∧ Column.foreignKeyTable c = Some (Table.name t0))) as [Hd|Hd].
    - rewrite (Hyes Hd). by repeat split.
    - rewrite (Hno Hd). by repeat split. }
  assert (∀ o : option num, ∀ n, o = Some n → isFinite n = false →
            o ≫= jsonNumber = None) as Hnull.
  { intros o n -> Hn. simpl. unfold jsonNumber. by rewrite Hn. }
  case_decide as Hik.
  - subst i. apply list_find_Some in Hk as (Hk & _ & _).
    rewrite Hk in Hi. injection Hi as <-.
    eexists. split; [done|]. simpl. rewrite length_fmap.
    split_and!; try done; try (by apply jsonNumber_finite); try (by apply Hnull).
    apply Hcols.
  - rewrite Hi. simpl. eexists. split; [done|]. simpl. rewrite length_fmap.
    split_and!; try done; try (by apply jsonNumber_finite); try (by apply Hnull);
      [by intros [= ->]|]. apply Hcols.
Qed.

End Mutations.

(** ** Validation failures *)

Section Validation.
Context {num : Type} `{!JsNumber num} (midpoint : option num → option num → num).
Implicit Types (st : App.t num) (schema : Schema.t num) (t : Table.t num).

Lemma rejected_setError st (reason : string) : rejected st (setError (Some reason) st).
Proof. by exists reason. Qed.

(** A rejected operation leaves every project, hence the schema and both
    stacks of the active project, as they were. *)
Lemma rejected_unchanged st st' :
  rejected st st' →
  App.projects st' = App.projects st
  ∧ activeProject st' = activeProject st
  ∧ activeSchema st' = activeSchema st
  ∧ App.activeTool st' = App.activeTool st
  ∧ is_Some (App.error st').
Proof. intros [reason ->]. by split_and!. Qed.

Lemma firstReference_Some schema (tableName columnName : string) t (c : Column.t) :
  t ∈ Schema.tables schema → c ∈ Table.columns t →
  references tableName columnName c →
  is_Some (firstReference schema tableName columnName).
Proof.
  intros Ht Hc Hr. unfold firstReference.
  apply head_is_Some. intros Hnil.
  assert ((t, c) ∈ Schema.tables schema ≫= λ table,
            (λ column, (table, column))
            <$> filter (references tableName columnName) (Table.columns table)) as Hin.
  { apply list_elem_of_bind. exists t. split; [|done].
    apply list_elem_of_fmap_2. by apply list_elem_of_filter. }
  rewrite Hnil in Hin. by apply elem_of_nil in Hin.
Qed.

(** C6.  With a schema in the active project: a rename to a name that
    another table has, a connection whose target (for N-to-N, whose source or
    target) has no primary key, and the deletion of a column that a foreign
    key references are rejected: the state after the call differs from the
    state before it in the error slot only, which holds the reason.  No
    project changes, so the schema and the undo stack are what they were. *)
Theorem C6_validation_rejects st schema :
  activeSchema st = Some schema →
  (∀ (tableId : option string) (newName : string) (now : Z),
     Exists (λ t, Table.name t = newName ∧ Table.id t ≠ tableId) (Schema.tables schema) →
     rejected st (handleUpdateTable tableId newName now st))
  ∧ (∀ (sourceTableId targetTableId : option string) (type : LinkType)
       (sourceTable targetTable : Table.t num) (now1 now2 now3 nowCommit : Z),
     findTable schema sourceTableId = Some sourceTable →
     findTable schema targetTableId = Some targetTable →
     (type = one_to_n ∧ findPk targetTable = None)
     ∨ (type = n_to_n ∧ (findPk sourceTable = None ∨ findPk targetTable = None)) →
     rejected st (handleAddConnection midpoint sourceTableId targetTableId type
                                      now1 now2 now3 nowCommit st))
  ∧ (∀ (tableId columnId : option string) (now : Z) (owner : Table.t num)
       (column : Column.t) t (c : Column.t),
     findTable schema tableId = Some owner →
     snd <$> list_find (λ c', Column.id c' = columnId) (Table.columns owner) = Some column →
     t ∈ Schema.tables schema → c ∈ Table.columns t →
     references (Table.name owner) (Column.name column) c →
     rejected st (handleDeleteColumn tableId columnId now st)).
Proof.
  intros Hs. split_and!.
  - intros tableId newName now Hdup. unfold handleUpdateTable.
    rewrite Hs, bool_decide_eq_true_2 by done. apply rejected_setError.
  - intros src tgt type S T now1 now2 now3 nowCommit HS HT Hpk.
    unfold handleAddConnection. rewrite Hs. cbv zeta.
    rewrite !findTable_json, HS, HT. cbn [fmap option_fmap option_map].
    rewrite !findPk_json.
    destruct Hpk as [[-> Hnone]|[-> Hnone]].
    + rewrite Hnone. apply rejected_setError.
    + destruct Hnone as [Hnone|Hnone]; rewrite Hnone.
      * apply rejected_setError.
      * destruct (findPk S); apply rejected_setError.
  - intros tableId columnId now owner column t c Hown Hcol Ht Hc Href.
    unfold handleDeleteColumn. rewrite Hs, Hown, Hcol.
    destruct (firstReference_Some schema _ _ t c Ht Hc Href) as [[t1 c1] ->].
    apply rejected_setError.
Qed.

(** C9.  With the [select] tool and no table name being edited, the end of a
    drag of a node with coordinates [(px, py)] writes them into every table
    that carries the identifier of the node.  The write keeps the undo stack
    and the redo stack of the active project; the tables stay in place, a
    table with another identifier is unchanged, and the moved table keeps its
    identifier, its name and its columns. *)
Theorem C9_drag_end_position st (g : GraphState) (d : GraphNode.t num) (now : Z)
    (ap : Project.t num) schema (px py : num) :
  activeProject st = Some ap →
  Project.schema ap = Some schema →
  App.activeTool st = select →
  ¬ truthy (editingTableId g) →
  GraphNode.x d = Some px → GraphNode.y d = Some py →
  ∃ ap' schema',
    activeProject (dragEnd d now (st, g)) = Some ap'
    ∧ Project.schema ap' = Some schema'
    ∧ Project.undoStack ap' = Project.undoStack ap
    ∧ Project.redoStack ap' = Project.redoStack ap
    ∧ length (Schema.tables schema') = length (Schema.tables schema)
    ∧ ∀ i t, Schema.tables schema !! i = Some t →
        ∃ t', Schema.tables schema' !! i = Some t'
          ∧ (Table.id t ≠ GraphNode.id d → t' = t)
          ∧ (Table.id t = GraphNode.id d →
             Table.x t' = Some px ∧ Table.y t' = Some py
             ∧ Table.id t' = Table.id t ∧ Table.name t' = Table.name t
             ∧ Table.columns t' = Table.columns t).
Proof.
  intros E Hschema Htool Hedit Hx Hy.
  unfold dragEnd. rewrite Htool, bool_decide_eq_false_2 by (by intros []).
  destruct (truthy (editingTableId g)); [done|]. simpl.
  rewrite Hx, Hy. unfold handleUpdateTablePosition.
  assert (activeSchema st = Some schema) as -> by (apply activeSchema_Some; eauto).
  rewrite activeProject_update, E. simpl.
  eexists _, _. split_and!; try done.
  { simpl. by rewrite length_fmap. }
  intros i t Hi. simpl. rewrite list_lookup_fmap, Hi. simpl.
  eexists. split; [done|]. case_decide; split; try done.
Qed.

End Validation.

(** ** The success paths of the handlers *)

Section SuccessPaths.
Context {num : Type} `{!JsNumber num} (midpoint : option num → option num → num).
Implicit Types (st : App.t num) (ap : Project.t num) (schema : Schema.t num)
  (t : Table.t num).

Lemma activeProject_update_other (r st : App.t num) now (u : Updates.t num) :
  App.activeProjectId r = App.activeProjectId st →
  activeProject (updateActiveProject r now u st)
  = (λ p, applyUpdates p u now) <$> activeProject st.
Proof.
  intros Hid. rewrite <- activeProject_update.
  unfold updateActiveProject. by rewrite Hid.
Qed.

Lemma handleAddTable_schema st ap (position : option (num * num))
    (nowId nowMessages nowCommit : Z) (counter : nat) :
  activeProject st = Some ap →
  firstFree (S (length (Schema.tables (default (Schema.mk []) (Project.schema ap)))))
            (nameTaken (Schema.tables (default (Schema.mk []) (Project.schema ap))))
            "new_table" 1 = Some counter →
  activeSchema (handleAddTable position nowId nowMessages nowCommit st)
  = Some (Schema.mk
      (Schema.tables (default (Schema.mk []) (Project.schema ap))
       ++ [Table.mk
             (Some ("table-" +:+ candidate "new_table" counter +:+ "-" +:+ pretty nowId))
             (candidate "new_table" counter)
             [Column.mk
                (Some (("table-" +:+ candidate "new_table" counter +:+ "-"
                        +:+ pretty nowId) +:+ "-col-id"))
                "id" "INTEGER" true false None None ["NOT NULL"]]
             (fst <$> position) (snd <$> position)])).
Proof.
  intros E Hfree. unfold handleAddTable. rewrite E, Hfree.
  unfold commitSchemaChange, activeSchema. rewrite E.
  rewrite activeProject_update_other by (by case_decide).
  case_decide; [rewrite activeProject_update|]; by rewrite E.
Qed.

Lemma handleUpdateTable_schema st schema (tableId : option string)
    (newName : string) (now : Z) t0 :
  activeSchema st = Some schema →
  ¬ Exists (λ t, Table.name t = newName ∧ Table.id t ≠ tableId) (Schema.tables schema) →
  findTable schema tableId = Some t0 →
  Table.name t0 ≠ EmptyString →
  activeSchema (handleUpdateTable tableId newName now st)
  = Some (Schema.mk
      ((λ table, Table.with_columns table
          (renameReference (Table.name t0) newName <$> Table.columns table))
       <$> updateFound (λ t, Table.id t = tableId) (λ t, Table.with_name t newName)
             (Schema.tables (jsonSchema schema)))).
Proof.
  intros Hs Hfree Hfind Hname. unfold handleUpdateTable.
  rewrite Hs, bool_decide_eq_false_2 by done. rewrite Hfind. simpl.
  rewrite bool_decide_eq_false_2 by done. simpl.
  by rewrite (activeSchema_commit st schema).
Qed.

Lemma handleAddConnection_1_n_schema st schema (sourceTableId targetTableId : option string)
    (now1 now2 now3 nowCommit : Z) (sourceTable targetTable : Table.t num)
    (targetPk : Column.t) (fkColumnName : string) :
  activeSchema st = Some schema →
  findTable schema sourceTableId = Some sourceTable →
  findTable schema targetTableId = Some targetTable →
  findPk targetTable = Some targetPk →
  bumpName (S (length (Table.columns sourceTable)))
           (columnNameTaken (Table.columns sourceTable))
           (Table.name targetTable +:+ "_id") 1 (Table.name targetTable +:+ "_id")
    = Some fkColumnName →
  activeSchema (handleAddConnection midpoint sourceTableId targetTableId one_to_n
                                    now1 now2 now3 nowCommit st)
  = Some (Schema.mk
      (pushColumn (Schema.tables (jsonSchema schema)) sourceTableId
         (Column.mk
            (Some ("col-" +:+ idString (Table.id sourceTable) +:+ "-"
                   +:+ fkColumnName +:+ "-" +:+ pretty now1))
            fkColumnName (Column.type targetPk) false true
            (Some (Table.name targetTable)) (Some (Column.name targetPk)) []))).
Proof.
  intros Hs HS HT Hpk Hname. unfold handleAddConnection.
  rewrite Hs. cbv zeta. rewrite !findTable_json, HS, HT.
  cbn [fmap option_fmap option_map]. rewrite findPk_json, Hpk.
  cbn [jsonTable Table.columns Table.name Table.id]. rewrite Hname.
  by rewrite (activeSchema_commit st schema).
Qed.

Lemma handleDeleteTable_schema st schema (tableId : option string) (now : Z)
    (tableToDelete : Table.t num) :
  activeSchema st = Some schema →
  findTable schema tableId = Some tableToDelete →
  activeSchema (handleDeleteTable tableId true now st)
  = Some (Schema.mk
      ((λ table, Table.with_columns table
          (filter (λ column,
             ¬ (Column.isForeignKey column
                ∧ Column.foreignKeyTable column = Some (Table.name tableToDelete)))
             (Table.columns table)))
       <$> filter (λ t, Table.id t ≠ tableId) (Schema.tables schema))).
Proof.
  intros Hs Hfind. unfold handleDeleteTable. rewrite Hs, Hfind. simpl.
  by rewrite (activeSchema_commit st schema).
Qed.

(** Without the confirmation nothing is deleted. *)
Lemma handleDeleteTable_unconfirmed st (tableId : option string) (now : Z) :
  handleDeleteTable tableId false now st = st.
Proof.
  unfold handleDeleteTable. destruct (activeSchema st) as [schema|]; [|done].
  by destruct (findTable schema tableId).
Qed.

Lemma findTable_here (l : list (Table.t num)) t (i : option string) :
  Table.id t = i → findTable (Schema.mk (t :: l)) i = Some t.
Proof. intros Hi. unfold findTable. simpl. by rewrite decide_True. Qed.

Lemma findTable_further (l : list (Table.t num)) t (i : option string) :
  Table.id t ≠ i → findTable (Schema.mk (t :: l)) i = findTable (Schema.mk l) i.
Proof.
  intros Hi. unfold findTable. simpl. rewrite decide_False by done.
  by destruct (list_find _ l) as [[k t']|].
Qed.

Lemma updateFound_here {A} (P : A → Prop) `{∀ a, Decision (P a)} (f : A → A)
    (a : A) (l : list A) :
  P a → updateFound P f (a :: l) = f a :: l.
Proof. intros Ha. unfold updateFound. simpl. by rewrite decide_True. Qed.

Lemma updateFound_further {A} (P : A → Prop) `{∀ a, Decision (P a)} (f : A → A)
    (a : A) (l : list A) :
  ¬ P a → updateFound P f (a :: l) = a :: updateFound P f l.
Proof.
  intros Ha. unfold updateFound. simpl. rewrite decide_False by done.
  by destruct (list_find P l) as [[k b]|].
Qed.

End SuccessPaths.

(** ** The users and posts scenario *)

Section Scenario.
Context {num : Type} `{!JsNumber num} (midpoint : option num → option num → num).

Lemma table_id_distinct (a b : Z) :
  a ≠ b →
  Some ("table-new_table-" +:+ pretty a) ≠ Some ("table-new_table-" +:+ pretty b).
Proof.
  intros Hab [= H]. apply Hab.
  by apply (inj pretty).
Qed.

(** C8.  In a project without tables: add a table and name it [users], add a
    table and name it [posts] (the two tables being created at different
    readings of the clock), then connect [posts] to [users] with the 1-to-N
    tool.  The table [posts] gains exactly one column, [users_id], of the type
    of [users.id], a foreign key to [users.id].  Deleting [users] with the
    confirmation then removes that column from [posts].  (The tables lie
    where they were placed, as the deep copies of the renames and of the
    connection leave a position: a finite coordinate as it is.) *)
Theorem C8_users_posts_scenario (st0 : App.t num) (ap : Project.t num)
    (pos1 pos2 : option (num * num))
    (a1 a2 a3 a4 b1 b2 b3 b4 c1 c2 c3 c4 d1 : Z) :
  activeProject st0 = Some ap →
  Schema.tables (default (Schema.mk []) (Project.schema ap)) = [] →
  a1 ≠ b1 →
  let usersId := "table-new_table-" +:+ pretty a1 in
  let postsId := "table-new_table-" +:+ pretty b1 in
  let st1 := handleAddTable pos1 a1 a2 a3 st0 in
  let st2 := handleUpdateTable (Some usersId) "users" a4 st1 in
  let st3 := handleAddTable pos2 b1 b2 b3 st2 in
  let st4 := handleUpdateTable (Some postsId) "posts" b4 st3 in
  let st5 := handleAddConnection midpoint (Some postsId) (Some usersId) one_to_n
                                 c1 c2 c3 c4 st4 in
  let st6 := handleDeleteTable (Some usersId) true d1 st5 in
  let idColumn := λ tableId : string,
    Column.mk (Some (tableId +:+ "-col-id")) "id" "INTEGER" true false None None
              ["NOT NULL"] in
  let users :=
    Table.mk (Some usersId) "users" [idColumn usersId]
             ((fst <$> pos1) ≫= jsonNumber) ((snd <$> pos1) ≫= jsonNumber) in
  let posts :=
    Table.mk (Some postsId) "posts" [idColumn postsId]
             ((fst <$> pos2) ≫= jsonNumber) ((snd <$> pos2) ≫= jsonNumber) in
  let users_id :=
    Column.mk (Some ("col-" +:+ postsId +:+ "-" +:+ "users_id" +:+ "-" +:+ pretty c1))
              "users_id" (Column.type (idColumn usersId)) false true
              (Some "users") (Some "id") [] in
  activeSchema st4 = Some (Schema.mk [users; posts])
  ∧ activeSchema st5
    = Some (Schema.mk [users; Table.with_columns posts [idColumn postsId; users_id]])
  ∧ activeSchema st6 = Some (Schema.mk [posts]).
Proof.
  intros E Hempty Hne usersId postsId st1 st2 st3 st4 st5 st6 idColumn users posts users_id.
  pose proof (table_id_distinct a1 b1 Hne) as Hids.
  fold usersId postsId in Hids.
  assert (jsonTable users = users) as Hju
    by (unfold users, jsonTable; cbn [Table.id Table.name Table.columns Table.x Table.y];
        by rewrite !jsonNumber_idemp).
  assert (jsonTable posts = posts) as Hjp
    by (unfold posts, jsonTable; cbn [Table.id Table.name Table.columns Table.x Table.y];
        by rewrite !jsonNumber_idemp).
  (* the first table *)
  assert (activeSchema st1
          = Some (Schema.mk [Table.mk (Some usersId) "new_table" [idColumn usersId]
                               (fst <$> pos1) (snd <$> pos1)])) as H1.
  { unfold st1. rewrite (handleAddTable_schema st0 ap pos1 a1 a2 a3 1 E)
      by (by rewrite Hempty).
    by rewrite Hempty. }
  assert (activeSchema st2 = Some (Schema.mk [users])) as H2.
  { unfold st2.
    rewrite (handleUpdateTable_schema st1 _ _ _ _
               (Table.mk (Some usersId) "new_table" [idColumn usersId]
                         (fst <$> pos1) (snd <$> pos1)) H1).
    - cbn [Schema.tables jsonSchema fmap list_fmap]. by rewrite updateFound_here.
    - cbn [Schema.tables]. rewrite Exists_cons, Exists_nil. by intros [[? _]|[]].
    - by apply findTable_here.
    - done. }
  (* the second table *)
  destruct (proj1 (activeSchema_Some st2 _) H2) as (ap2 & E2 & Hs2).
  assert (activeSchema st3
          = Some (Schema.mk [users; Table.mk (Some postsId) "new_table" [idColumn postsId]
                               (fst <$> pos2) (snd <$> pos2)])) as H3.
  { unfold st3. rewrite (handleAddTable_schema st2 ap2 pos2 b1 b2 b3 1 E2)
      by (by rewrite Hs2).
    by rewrite Hs2. }
  assert (activeSchema st4 = Some (Schema.mk [users; posts])) as H4.
  { unfold st4.
    rewrite (handleUpdateTable_schema st3 _ _ _ _
               (Table.mk (Some postsId) "new_table" [idColumn postsId]
                         (fst <$> pos2) (snd <$> pos2)) H3).
    - cbn [Schema.tables jsonSchema fmap list_fmap]. rewrite Hju.
      rewrite updateFound_further by done.
      by rewrite updateFound_here.
    - cbn [Schema.tables]. rewrite !Exists_cons, Exists_nil.
      by intros [[? _]|[[? _]|[]]].
    - rewrite findTable_further by done. by apply findTable_here.
    - done. }
  (* the connection *)
  assert (activeSchema st5
          = Some (Schema.mk [users; Table.with_columns posts [idColumn postsId; users_id]]))
    as H5.
  { unfold st5.
    rewrite (handleAddConnection_1_n_schema midpoint st4 _ _ _ _ _ _ _ posts users
               (idColumn usersId) "users_id" H4).
    - unfold pushColumn. cbn [Schema.tables jsonSchema fmap list_fmap].
      rewrite Hju, Hjp.
      rewrite updateFound_further by done. by rewrite updateFound_here.
    - rewrite findTable_further by done. by apply findTable_here.
    - by apply findTable_here.
    - done.
    - done. }
  split; [done|]. split; [done|].
  (* the deletion *)
  unfold st6. rewrite (handleDeleteTable_schema st5 _ _ _ users H5).
  - cbn [Schema.tables]. rewrite filter_cons_False by (by intros []).
    rewrite filter_cons_True by (by apply not_eq_sym).
    rewrite filter_nil. cbn [fmap list_fmap Table.columns Table.with_columns].
    rewrite filter_cons_True by (by intros [[] _]).
    rewrite filter_cons_False by (by intros []).
    by rewrite filter_nil.
  - by apply findTable_here.
Qed.

End Scenario.

(** ** Relationship deriver *)

Section SetFacts.

Lemma Set_add_elem_of (i j : option string) (s : list (option string)) :
  j ∈ Set_add i s ↔ j = i ∨ j ∈ s.
Proof.
  unfold Set_add. case_decide as Hi.
  - split; [by right|]. by intros [->|?].
  - rewrite elem_of_app, list_elem_of_singleton. tauto.
Qed.

Lemma Set_add_NoDup (i : option string) (s : list (option string)) :
  NoDup s → NoDup (Set_add i s).
Proof.
  intros Hs. unfold Set_add. case_decide as Hi; [done|].
  apply NoDup_app. split_and!; [done| |apply NoDup_singleton].
  intros j Hj ->%list_elem_of_singleton. done.
Qed.

Lemma NoDup_fmap_elem_inj {V K} (key : V → K) (l : list V) (v w : V) :
  NoDup (key <$> l) → v ∈ l → w ∈ l → key v = key w → v = w.
Proof.
  intros Hnd (i & Hi)%list_elem_of_lookup (j & Hj)%list_elem_of_lookup Hk.
  assert (i = j) as ->.
  { eapply (NoDup_lookup _ _ _ (key v) Hnd).
    - by rewrite list_lookup_fmap, Hi.
    - by rewrite list_lookup_fmap, Hj, Hk. }
  congruence.
Qed.

End SetFacts.

Section DeriverFacts.
Context {num : Type}.
Implicit Types (s schema : Schema.t num) (t J : Table.t num)
  (m : gmap string (Table.t num)).

Lemma junction_fold_elem_of (l : list (Table.t num)) (acc : list (option string))
    (i : option string) :
  i ∈ foldl (λ acc table, if isJunction table then Set_add (Table.id table) acc else acc)
            acc l
  ↔ i ∈ acc ∨ ∃ t, t ∈ l ∧ isJunction t ∧ Table.id t = i.
Proof.
  revert acc. induction l as [|a l IH]; intros acc; simpl.
  - split; [by left|]. intros [?|(t & Ht & _)]; [done|]. by apply elem_of_nil in Ht.
  - rewrite IH. destruct (isJunction a) eqn:Ha.
    + rewrite Set_add_elem_of. split.
      * intros [[->|?]|(t & Ht & Hj & Hid)].
        -- right. exists a. split_and!; [apply list_elem_of_here|by rewrite Ha|done].
        -- by left.
        -- right. exists t. split_and!; [by apply list_elem_of_further|done..].
      * intros [?|(t & Ht & Hj & Hid)]; [by left; right|].
        apply elem_of_cons in Ht as [->|Ht]; [by left; left|].
        right. by exists t.
    + split.
      * intros [?|(t & Ht & Hj & Hid)]; [by left|].
        right. exists t. split_and!; [by apply list_elem_of_further|done..].
      * intros [?|(t & Ht & Hj & Hid)]; [by left|].
        apply elem_of_cons in Ht as [->|Ht]; [by rewrite Ha in Hj|].
        right. by exists t.
Qed.

Lemma junction_fold_NoDup (l : list (Table.t num)) (acc : list (option string)) :
  NoDup acc →
  NoDup (foldl (λ acc table, if isJunction table then Set_add (Table.id table) acc else acc)
               acc l).
Proof.
  revert acc. induction l as [|a l IH]; intros acc Hacc; simpl; [done|].
  apply IH. destruct (isJunction a); [by apply Set_add_NoDup|done].
Qed.

(** The set holds exactly the identifiers of the junction tables. *)
Lemma junctionTableIds_elem_of s (i : option string) :
  i ∈ junctionTableIds s ↔ ∃ t, t ∈ Schema.tables s ∧ isJunction t ∧ Table.id t = i.
Proof.
  unfold junctionTableIds. rewrite junction_fold_elem_of.
  split; [|by right]. intros [Hnil|?]; [|done]. by apply elem_of_nil in Hnil.
Qed.

Lemma junctionTableIds_NoDup s : NoDup (junctionTableIds s).
Proof. apply junction_fold_NoDup, NoDup_nil_2. Qed.

(** A junction table has two columns, both of them foreign keys. *)
Lemma isJunction_columns t :
  isJunction t → ∃ c1 c2, Table.columns t = [c1; c2] ∧ fks t = [c1; c2].
Proof.
  unfold isJunction, fks, pks.
  intros [[Hlen _]%andb_True Hfk]%andb_True.
  apply bool_decide_unpack in Hlen. apply bool_decide_unpack in Hfk.
  destruct (Table.columns t) as [|c1 [|c2 [|c3 l]]]; try done.
  exists c1, c2. split; [done|].
  rewrite !filter_cons, filter_nil in *.
  repeat case_decide; simpl in *; done.
Qed.

(** A table with exactly two columns, both primary keys and both foreign
    keys, is a junction table. *)
Lemma isJunction_two_keys t (c1 c2 : Column.t) :
  Table.columns t = [c1; c2] →
  Column.isPrimaryKey c1 → Column.isForeignKey c1 →
  Column.isPrimaryKey c2 → Column.isForeignKey c2 →
  isJunction t.
Proof.
  intros Hcols Hp1 Hf1 Hp2 Hf2. unfold isJunction, pks, fks. rewrite Hcols.
  rewrite !filter_cons, filter_nil. rewrite !decide_True by done. done.
Qed.

Lemma Map_get_elem_of (tables : list (Table.t num)) (k : option string)
    (target : Table.t num) :
  Map_get (Map_of Table.name tables) k = Some target → target ∈ tables.
Proof.
  destruct k as [name|]; [|done]. simpl. intros Hm.
  by apply Map_of_lookup_Some in Hm as [Hin _].
Qed.

Lemma not_isJunction_long t :
  (3 ≤ length (Table.columns t))%nat → isJunction t = false.
Proof.
  intros Hlen. unfold isJunction.
  rewrite (bool_decide_eq_false_2 (length (Table.columns t) = 2)); [done|lia].
Qed.

Lemma findTable_NoDup s t :
  NoDup (Table.id <$> Schema.tables s) → t ∈ Schema.tables s →
  findTable s (Table.id t) = Some t.
Proof.
  intros Hnd Ht. unfold findTable.
  destruct (list_find_elem_of (λ t', Table.id t' = Table.id t) (Schema.tables s) t Ht eq_refl)
    as [[k t'] Hfind].
  rewrite Hfind. simpl. f_equal.
  apply list_find_Some in Hfind as (Hk & Hid & _).
  apply (NoDup_fmap_elem_inj Table.id (Schema.tables s)); [done| |done..].
  by eapply list_elem_of_lookup_2.
Qed.

(** What the loop over the junction identifiers pushes for a junction
    table, when table identifiers are pairwise distinct. *)
Lemma junctionLink_junction s m J (c1 c2 : Column.t) :
  NoDup (Table.id <$> Schema.tables s) → J ∈ Schema.tables s →
  fks J = [c1; c2] →
  junctionLink s m (Table.id J)
  = Some (match Map_get m (Column.foreignKeyTable c1),
                Map_get m (Column.foreignKeyTable c2) with
          | Some table1, Some table2 =>
              [GraphLink.mk (Table.id table1) (Table.id table2) n_to_n]
          | _, _ => []
          end).
Proof.
  intros Hnd HJ Hfks. unfold junctionLink.
  rewrite (findTable_NoDup s J Hnd HJ). simpl. by rewrite Hfks.
Qed.

Lemma junctionLinks_total s m :
  NoDup (Table.id <$> Schema.tables s) →
  is_Some (mapM (junctionLink s m) (junctionTableIds s)).
Proof.
  intros Hnd. apply mapM_is_Some, Forall_forall. intros i Hi.
  apply junctionTableIds_elem_of in Hi as (J & HJ & Hj & <-).
  destruct (isJunction_columns J Hj) as (c1 & c2 & _ & Hfks).
  unfold compose. by rewrite (junctionLink_junction s m J c1 c2).
Qed.

End DeriverFacts.

Section DeriveShape.
Context {num : Type}.
Implicit Types (s schema : Schema.t num) (t J : Table.t num)
  (m : gmap string (Table.t num)).

Lemma filter_all {A} (P : A → Prop) `{∀ a, Decision (P a)} (l : list A) :
  Forall P l → filter P l = l.
Proof.
  induction 1 as [|a l Ha _ IH]; [done|].
  by rewrite filter_cons_True, IH.
Qed.

Lemma filter_none {A} (P : A → Prop) `{∀ a, Decision (P a)} (l : list A) :
  Forall (λ a, ¬ P a) l → filter P l = [].
Proof.
  induction 1 as [|a l Ha _ IH]; [done|].
  by rewrite filter_cons_False.
Qed.

(** With pairwise distinct table identifiers the derivation does not throw. *)
Lemma derive_Some s :
  NoDup (Table.id <$> Schema.tables s) →
  ∃ jl,
    mapM (junctionLink s (Map_of Table.name (Schema.tables s))) (junctionTableIds s)
      = Some jl
    ∧ derive (Some s)
      = Some (Graph.mk
          (toNode <$> filter (λ table, Table.id table ∉ junctionTableIds s)
                             (Schema.tables s))
          (mjoin jl
           ++ (Schema.tables s
               ≫= tableLinks (Map_of Table.name (Schema.tables s)) (junctionTableIds s)))).
Proof.
  intros Hnd.
  destruct (junctionLinks_total s (Map_of Table.name (Schema.tables s)) Hnd) as [jl Hjl].
  exists jl. split; [done|]. unfold derive. by rewrite Hjl.
Qed.

(** A link of the second loop is 1-to-N, and neither end is a junction
    identifier. *)
Lemma tableLinks_elem_of m (jIds : list (option string)) (tables : list (Table.t num))
    (l : GraphLink.t) :
  l ∈ tables ≫= tableLinks m jIds →
  GraphLink.type l = one_to_n
  ∧ (GraphLink.source l ∉ jIds) ∧ (GraphLink.target l ∉ jIds).
Proof.
  intros (t & Hl & _)%list_elem_of_bind. unfold tableLinks in Hl.
  case_decide as Hsrc; [by apply elem_of_nil in Hl|].
  apply list_elem_of_bind in Hl as (c & Hl & _). unfold columnLink in Hl.
  destruct (Column.isForeignKey c && truthy (Column.foreignKeyTable c));
    [|by apply elem_of_nil in Hl].
  destruct (Map_get m (Column.foreignKeyTable c)) as [targetTable|];
    [|by apply elem_of_nil in Hl].
  case_decide as Htgt; [by apply elem_of_nil in Hl|].
  by apply list_elem_of_singleton in Hl as ->.
Qed.

(** A link of the first loop is N-to-N and joins the tables that two
    foreign keys of a junction table name. *)
Lemma junctionLink_elem_of s m (i : option string) (e : list GraphLink.t)
    (l : GraphLink.t) :
  junctionLink s m i = Some e → l ∈ e →
  ∃ t fk0 fk1 table1 table2,
    findTable s i = Some t
    ∧ fks t !! 0 = Some fk0 ∧ fks t !! 1 = Some fk1
    ∧ Map_get m (Column.foreignKeyTable fk0) = Some table1
    ∧ Map_get m (Column.foreignKeyTable fk1) = Some table2
    ∧ l = GraphLink.mk (Table.id table1) (Table.id table2) n_to_n.
Proof.
  unfold junctionLink. intros He Hl.
  destruct (findTable s i) as [t|]; [|done]. simpl in He.
  destruct (fks t !! 0) as [fk0|] eqn:H0; [|done]. simpl in He.
  destruct (fks t !! 1) as [fk1|] eqn:H1; [|done]. simpl in He.
  injection He as <-.
  destruct (Map_get m (Column.foreignKeyTable fk0)) as [table1|] eqn:E1;
    [|by apply elem_of_nil in Hl].
  destruct (Map_get m (Column.foreignKeyTable fk1)) as [table2|] eqn:E2;
    [|by apply elem_of_nil in Hl].
  apply list_elem_of_singleton in Hl as ->.
  by exists t, fk0, fk1, table1, table2.
Qed.

Lemma junctionLinks_n_to_n s m (ids : list (option string))
    (jl : list (list GraphLink.t)) :
  mapM (junctionLink s m) ids = Some jl →
  Forall (λ l, GraphLink.type l = n_to_n) (mjoin jl).
Proof.
  intros Hjl%mapM_Some. apply Forall_forall. intros l Hl.
  apply list_elem_of_join in Hl as (e & Hl & He).
  apply list_elem_of_lookup in He as [k Hk].
  destruct (Forall2_lookup_r _ _ _ _ _ Hjl Hk) as (i & _ & Hi).
  destruct (junctionLink_elem_of s m i e l Hi Hl) as (? & ? & ? & ? & ? & _ & _ & _ & _ & _ & ->).
  done.
Qed.

(** The N-to-N links of the graph are those of the first loop. *)
Lemma n_to_n_links s m (ids jIds : list (option string))
    (jl : list (list GraphLink.t)) :
  mapM (junctionLink s m) ids = Some jl →
  filter (λ l, GraphLink.type l = n_to_n)
         (mjoin jl ++ (Schema.tables s ≫= tableLinks m jIds))
  = mjoin jl.
Proof.
  intros Hjl. rewrite filter_app.
  rewrite (filter_all _ (mjoin jl)) by by eapply junctionLinks_n_to_n.
  rewrite filter_none; [by rewrite app_nil_r|].
  apply Forall_forall. intros l Hl.
  apply tableLinks_elem_of in Hl as (Ht & _). by rewrite Ht.
Qed.

(** The position of a junction table in the set of junction identifiers. *)
Lemma junction_position s J :
  J ∈ Schema.tables s → isJunction J →
  ∃ k, junctionTableIds s !! k = Some (Table.id J)
       ∧ ∀ k', junctionTableIds s !! k' = Some (Table.id J) → k' = k.
Proof.
  intros HJ Hj.
  assert (Table.id J ∈ junctionTableIds s) as [k Hk]%list_elem_of_lookup.
  { apply junctionTableIds_elem_of. by exists J. }
  exists k. split; [done|]. intros k' Hk'.
  by eapply NoDup_lookup; [apply (junctionTableIds_NoDup s)|..].
Qed.

(** No node carries the identifier of a junction table. *)
Lemma junction_no_node s J (n : GraphNode.t num) :
  J ∈ Schema.tables s → isJunction J →
  n ∈ toNode <$> filter (λ table, Table.id table ∉ junctionTableIds s) (Schema.tables s) →
  GraphNode.id n ≠ Table.id J.
Proof.
  intros HJ Hj (t & -> & Ht)%list_elem_of_fmap Hid.
  apply list_elem_of_filter in Ht as [Hnot _]. apply Hnot.
  simpl in Hid. rewrite Hid. apply junctionTableIds_elem_of. by exists J.
Qed.

(** A table that is not a junction table has its node. *)
Lemma regular_node s t :
  NoDup (Table.id <$> Schema.tables s) → t ∈ Schema.tables s → isJunction t = false →
  (Table.id t ∉ junctionTableIds s)
  ∧ toNode t ∈ toNode <$> filter (λ table, Table.id table ∉ junctionTableIds s)
                                 (Schema.tables s).
Proof.
  intros Hnd Ht Hj.
  assert (Table.id t ∉ junctionTableIds s) as Hnot.
  { intros (t' & Ht' & Hj' & Hid)%junctionTableIds_elem_of.
    assert (t' = t) as -> by by eapply (NoDup_fmap_elem_inj Table.id).
    by rewrite Hj in Hj'. }
  split; [done|]. apply list_elem_of_fmap_2. by apply list_elem_of_filter.
Qed.

End DeriveShape.

Section DeriverClaims.
Context {num : Type}.
Implicit Types (s : Schema.t num) (t J : Table.t num).

(** C1, as the code has it.  In a schema whose table identifiers are
    pairwise distinct the derivation succeeds, and its N-to-N links are the
    links pushed for the junction tables, one list for each junction
    identifier.  A table with exactly two columns, both primary keys and
    both foreign keys, is a junction table and has no node; its identifier is
    at exactly one place of the set of junction identifiers.  When both of
    its foreign-key targets resolve to tables [X] and [Y] that are not
    junction tables, [X] and [Y] have their nodes and the list pushed for it
    is the single N-to-N link from the node of [X] to the node of [Y]; when a
    target does not resolve the list is empty.  A table with three or more
    columns is not a junction table and has its node. *)
Theorem C1_junction_collapse s :
  NoDup (Table.id <$> Schema.tables s) →
  ∃ g jl,
    derive (Some s) = Some g
    ∧ mapM (junctionLink s (Map_of Table.name (Schema.tables s))) (junctionTableIds s)
      = Some jl
    ∧ filter (λ l, GraphLink.type l = n_to_n) (Graph.links g) = mjoin jl
    ∧ (∀ J (c1 c2 : Column.t),
         J ∈ Schema.tables s → Table.columns J = [c1; c2] →
         Column.isPrimaryKey c1 → Column.isForeignKey c1 →
         Column.isPrimaryKey c2 → Column.isForeignKey c2 →
         isJunction J
         ∧ (∀ n, n ∈ Graph.nodes g → GraphNode.id n ≠ Table.id J)
         ∧ ∃ k, junctionTableIds s !! k = Some (Table.id J)
              ∧ (∀ k', junctionTableIds s !! k' = Some (Table.id J) → k' = k)
              ∧ (∀ X Y,
                  Map_get (Map_of Table.name (Schema.tables s))
                          (Column.foreignKeyTable c1) = Some X →
                  Map_get (Map_of Table.name (Schema.tables s))
                          (Column.foreignKeyTable c2) = Some Y →
                  isJunction X = false → isJunction Y = false →
                  ∃ nX nY,
                    nX ∈ Graph.nodes g ∧ GraphNode.table nX = X
                    ∧ nY ∈ Graph.nodes g ∧ GraphNode.table nY = Y
                    ∧ jl !! k
                      = Some [GraphLink.mk (GraphNode.id nX) (GraphNode.id nY) n_to_n])
              ∧ (Map_get (Map_of Table.name (Schema.tables s))
                         (Column.foreignKeyTable c1) = None
                 ∨ Map_get (Map_of Table.name (Schema.tables s))
                           (Column.foreignKeyTable c2) = None →
                 jl !! k = Some []))
    ∧ (∀ t, t ∈ Schema.tables s → (3 ≤ length (Table.columns t))%nat →
         isJunction t = false
         ∧ (Table.id t ∉ junctionTableIds s)
         ∧ ∃ n, n ∈ Graph.nodes g ∧ GraphNode.table n = t
                ∧ GraphNode.id n = Table.id t).
Proof.
  intros Hnd. destruct (derive_Some s Hnd) as (jl & Hjl & Hg).
  eexists _, jl. split; [exact Hg|]. split; [exact Hjl|]. simpl.
  split; [by eapply n_to_n_links|]. split.
  - intros J c1 c2 HJ Hcols Hp1 Hf1 Hp2 Hf2.
    pose proof (isJunction_two_keys J c1 c2 Hcols Hp1 Hf1 Hp2 Hf2) as Hj.
    split; [done|]. split; [intros n Hn; by eapply junction_no_node|].
    destruct (junction_position s J HJ Hj) as (k & Hk & Huniq).
    exists k. split; [done|]. split; [done|].
    destruct (isJunction_columns J Hj) as (d1 & d2 & Hcols' & Hfks).
    rewrite Hcols in Hcols'. injection Hcols' as <- <-.
    apply mapM_Some in Hjl.
    destruct (Forall2_lookup_l _ _ _ _ _ Hjl Hk) as (e & He & Hlink).
    rewrite (junctionLink_junction s _ J c1 c2 Hnd HJ Hfks) in Hlink.
    split.
    + intros X Y HX HY HjX HjY. rewrite HX, HY in Hlink. injection Hlink as <-.
      destruct (regular_node s X Hnd (Map_get_elem_of _ _ _ HX) HjX) as [_ HnX].
      destruct (regular_node s Y Hnd (Map_get_elem_of _ _ _ HY) HjY) as [_ HnY].
      by exists (toNode X), (toNode Y).
    + intros [Hnone|Hnone]; rewrite Hnone in Hlink.
      * by injection Hlink as <-.
      * destruct (Map_get _ (Column.foreignKeyTable c1)); by injection Hlink as <-.
  - intros t Ht Hlen.
    pose proof (not_isJunction_long t Hlen) as Hreg.
    destruct (regular_node s t Hnd Ht Hreg) as [Hnot Hnode].
    split; [done|]. split; [done|]. by exists (toNode t).
Qed.


End DeriverClaims.

(** ** The claims on concrete inputs *)

Section Instances.
Import Examples DeriverExamples MutationExamples.

Lemma school_ids_NoDup : NoDup (Table.id <$> Schema.tables school).
Proof. apply (bool_decide_unpack _). vm_compute. exact I. Qed.


(** The derivation of the school schema succeeds, and its N-to-N links are
    the links pushed for its junction tables. *)
Lemma C1_junction_collapse_witness :
  ∃ g jl,
    derive (Some school) = Some g
    ∧ mapM (junctionLink school (Map_of Table.name (Schema.tables school)))
           (junctionTableIds school) = Some jl
    ∧ filter (λ l, GraphLink.type l = n_to_n) (Graph.links g) = mjoin jl.
Proof.
  destruct (C1_junction_collapse school school_ids_NoDup)
    as (g & jl & Hg & Hjl & Hlinks & _).
  exists g, jl. split; [exact Hg|]. split; [exact Hjl|exact Hlinks].
Defined.

(** C1 as stated fails.  In [dangling], [orphan] has exactly two columns,
    both primary and foreign keys, the identifiers are pairwise distinct, and
    the derived graph has no link at all: the targets of [orphan] name no
    table.  In [nested] the identifiers are pairwise distinct and a target of
    the junction table [waitlist] is the junction table [enrolment]: the link
    pushed for [waitlist] starts at the identifier of [enrolment], which has
    no node.  In [shared_identifier] a table has the identifier of the
    junction table [enrolment] and the derivation throws. *)
Lemma C1_counterexample :
  orphan ∈ Schema.tables dangling
  ∧ length (Table.columns orphan) = 2
  ∧ Forall (λ c, Column.isPrimaryKey c ∧ Column.isForeignKey c) (Table.columns orphan)
  ∧ Graph.links <$> derive (Some dangling) = Some []
  ∧ (λ g, (GraphNode.id <$> Graph.nodes g, Graph.links g)) <$> derive (Some nested)
    = Some ([Some "t1"; Some "t2"],
            [GraphLink.mk (Some "t1") (Some "t2") n_to_n;
             GraphLink.mk (Table.id enrolment) (Some "t1") n_to_n])
  ∧ derive (Some shared_identifier) = None.
Proof.
  split_and!.
  - apply list_elem_of_further, list_elem_of_here.
  - reflexivity.
  - repeat constructor.
  - vm_compute. reflexivity.
  - vm_compute. reflexivity.
  - vm_compute. reflexivity.
Qed.



(** In the blog schema: naming [posts] like [users], connecting [users] to
    [tags], which has no primary key, and deleting [users.id], which
    [posts.users_id] references, are rejected. *)
Lemma C6_validation_rejects_witness :
  rejected editing (handleUpdateTable (Some "t2") "users" 5 editing)
  ∧ rejected editing
      (handleAddConnection mid (Some "t1") (Some "t3") one_to_n 1 2 3 4 editing)
  ∧ rejected editing (handleDeleteColumn (Some "t1") (Some "t1-col-id") 5 editing).
Proof.
  destruct (C6_validation_rejects mid editing blog eq_refl) as (Hrename & Hconnect & Hdelete).
  split_and!.
  - apply Hrename. apply Exists_cons_hd. split; [reflexivity|discriminate].
  - apply (Hconnect _ _ _ users tags); [reflexivity|reflexivity|].
    left. split; reflexivity.
  - apply (Hdelete _ _ _ users (idColumn "t1") posts users_id); [reflexivity|reflexivity|..].
    + apply list_elem_of_further, list_elem_of_here.
    + apply list_elem_of_further, list_elem_of_here.
    + split; [exact I|]. split; reflexivity.
Defined.

(** Renaming [users] to [members] in the blog schema. *)
Lemma C7_rename_propagates_witness :
  ∃ schema',
    activeSchema (handleUpdateTable (Some "t1") "members" 5 editing) = Some schema'
    ∧ length (Schema.tables schema') = 3.
Proof.
  destruct (C7_rename_propagates editing blog (Some "t1") "members" 5 users eq_refl)
    as (schema' & Hs & Hlen & _).
  - intros H. apply (bool_decide_pack _) in H. vm_compute in H. exact H.
  - reflexivity.
  - discriminate.
  - exists schema'. split; [exact Hs|exact Hlen].
Defined.

(** C7 as stated fails: after the N-to-N tool has joined two tables that
    were never placed, the junction table lies at NaN; the rename of
    [users], another table, then turns that coordinate into [null]. *)
Lemma C7_counterexample :
  (λ t, (Table.id t, Table.name t, Table.x t))
    <$> (activeSchema CopyExamples.connected ≫= λ s, Schema.tables s !! 2)
  = Some (Some "table-users_posts-1", "users_posts", Some CopyExamples.NaN)
  ∧ (λ t, (Table.id t, Table.name t, Table.x t))
      <$> (activeSchema CopyExamples.renamed ≫= λ s, Schema.tables s !! 2)
    = Some (Some "table-users_posts-1", "users_posts", None)
  ∧ Table.name <$> (activeSchema CopyExamples.renamed ≫= λ s, Schema.tables s !! 0)
    = Some "members".
Proof. split_and!; vm_compute; reflexivity. Qed.

(** The scenario with the clock readings 1 to 13. *)
Lemma C8_users_posts_scenario_witness :
  activeSchema scenario6
  = Some (Schema.mk
      [Table.mk (Some "table-new_table-5") "posts" [idColumn "table-new_table-5"]
                (Some 30%Z) (Some 40%Z)]).
Proof.
  destruct (C8_users_posts_scenario mid (app None [] [] addTable) (project None [] [])
              (Some (10, 20)%Z) (Some (30, 40)%Z) 1 2 3 4 5 6 7 8 9 10 11 12 13
              eq_refl eq_refl ltac:(discriminate)) as (_ & _ & H6).
  exact H6.
Defined.

(** The end of a drag of [students] in the campus schema. *)
Lemma C9_drag_end_position_witness :
  ∃ ap' schema',
    activeProject (dragEnd dragged 9 (app (Some campus) [] [] select, mkGraphState None None))
      = Some ap'
    ∧ Project.schema ap' = Some schema'
    ∧ Project.undoStack ap' = []
    ∧ Project.redoStack ap' = [].
Proof.
  destruct (C9_drag_end_position (app (Some campus) [] [] select) (mkGraphState None None)
              dragged 9 (project (Some campus) [] []) campus 30%Z 40%Z
              eq_refl eq_refl eq_refl ltac:(intros []) eq_refl eq_refl)
    as (ap' & schema' & E & Hs & Hu & Hr & _).
  exists ap', schema'. split; [exact E|]. split; [exact Hs|]. split; [exact Hu|exact Hr].
Defined.

End Instances.

(** ** The naming loops terminate *)

Section NamingLoops.

Lemma append_empty (s : string) : s +:+ EmptyString = s.
Proof.
  induction s as [|a s IH]; [done|].
  change (String a (s +:+ EmptyString) = String a s). by rewrite IH.
Qed.

Lemma candidate_first (base : string) : candidate base 1 = base.
Proof. reflexivity. Qed.

Lemma candidate_next (base : string) (c : nat) :
  (1 ≤ c)%nat → candidate base (S c) = base +:+ "_" +:+ pretty (S c).
Proof. intros Hc. unfold candidate. rewrite decide_True; [done|lia]. Qed.

(** From 1 on, distinct counters give distinct candidates. *)
Lemma candidate_inj (base : string) (c c' : nat) :
  (1 ≤ c)%nat → (1 ≤ c')%nat → candidate base c = candidate base c' → c = c'.
Proof.
  intros Hc Hc'. unfold candidate. repeat case_decide; intros Heq.
  - apply (inj (String.app base)) in Heq.
    apply (inj (String.app "_")) in Heq. by apply (inj pretty) in Heq.
  - rewrite <- (append_empty base) in Heq at 2.
    apply (inj (String.app base)) in Heq. done.
  - rewrite <- (append_empty base) in Heq at 1.
    apply (inj (String.app base)) in Heq. done.
  - lia.
Qed.

Lemma firstFree_None (fuel : nat) (taken : string → bool) (base : string) (c : nat) :
  firstFree fuel taken base c = None →
  ∀ k, k < fuel → taken (candidate base (c + k)) = true.
Proof.
  revert c. induction fuel as [|fuel IH]; intros c Hnone k Hk; [lia|].
  simpl in Hnone. destruct (taken (candidate base c)) eqn:Htaken; [|done].
  destruct k as [|k]; [by rewrite Nat.add_0_r|].
  replace (c + S k) with (S c + k) by lia. apply IH; [done|lia].
Qed.

(** When the taken names are among [names], one more test than there are
    names finds a free candidate. *)
Lemma firstFree_total (names : list string) (taken : string → bool) (base : string)
    (c : nat) :
  (∀ n, taken n = true → n ∈ names) → (1 ≤ c)%nat →
  is_Some (firstFree (S (length names)) taken base c).
Proof.
  intros Htaken Hc.
  destruct (firstFree (S (length names)) taken base c) as [k|] eqn:Hfree; [done|].
  pose proof (firstFree_None _ _ _ _ Hfree) as Hall.
  set (tried := (λ k, candidate base (c + k)) <$> seq 0 (S (length names))).
  assert (NoDup tried) as Hnd.
  { apply NoDup_fmap_2_strong; [|apply NoDup_seq].
    intros k k' _ _ Heq. apply candidate_inj in Heq; lia. }
  assert (tried ⊆+ names) as Hsub.
  { apply NoDup_submseteq; [done|].
    intros n (k & -> & Hk%elem_of_seq)%list_elem_of_fmap.
    apply Htaken, Hall. lia. }
  apply submseteq_length in Hsub.
  unfold tried in Hsub. rewrite length_fmap, length_seq in Hsub. lia.
Qed.

(** The loop of [handleAddConnection] tries the same names as the loop of
    [handleAddTable]. *)
Lemma bumpName_firstFree (fuel : nat) (taken : string → bool) (base : string) (c : nat) :
  (1 ≤ c)%nat →
  bumpName fuel taken base c (candidate base c)
  = candidate base <$> firstFree fuel taken base c.
Proof.
  revert c. induction fuel as [|fuel IH]; intros c Hc; [done|].
  simpl. destruct (taken (candidate base c)); [|done].
  rewrite <- (candidate_next base c Hc). apply IH. lia.
Qed.

Lemma bumpName_total (names : list string) (taken : string → bool) (base : string) :
  (∀ n, taken n = true → n ∈ names) →
  is_Some (bumpName (S (length names)) taken base 1 base).
Proof.
  intros Htaken. rewrite <- (candidate_first base) at 2.
  rewrite bumpName_firstFree by done.
  destruct (firstFree_total names taken base 1 Htaken) as [k ->]; done.
Qed.

End NamingLoops.

Section NamingLoopsOfHandlers.
Context {num : Type}.

Lemma nameTaken_elem_of (tables : list (Table.t num)) (n : string) :
  nameTaken tables n = true → n ∈ Table.name <$> tables.
Proof.
  unfold nameTaken. intros H%bool_decide_eq_true.
  apply Exists_exists in H as (t & Ht & <-). by apply list_elem_of_fmap_2.
Qed.

Lemma columnNameTaken_elem_of (columns : list Column.t) (n : string) :
  columnNameTaken columns n = true → n ∈ Column.name <$> columns.
Proof.
  unfold columnNameTaken. intros H%bool_decide_eq_true.
  apply Exists_exists in H as (c & Hc & <-). by apply list_elem_of_fmap_2.
Qed.

(** The loops of [handleAddTable] and [handleAddConnection] end within the
    number of tests given to them. *)
Lemma table_name_loop_total (tables : list (Table.t num)) (base : string) :
  is_Some (firstFree (S (length tables)) (nameTaken tables) base 1).
Proof.
  rewrite <- (length_fmap Table.name tables).
  apply firstFree_total; [apply nameTaken_elem_of|done].
Qed.

Lemma junction_name_loop_total (tables : list (Table.t num)) (base : string) :
  is_Some (bumpName (S (length tables)) (nameTaken tables) base 1 base).
Proof.
  rewrite <- (length_fmap Table.name tables).
  apply bumpName_total, nameTaken_elem_of.
Qed.

Lemma column_name_loop_total (columns : list Column.t) (base : string) :
  is_Some (bumpName (S (length columns)) (columnNameTaken columns) base 1 base).
Proof.
  rewrite <- (length_fmap Column.name columns).
  apply (bumpName_total _ _ base), columnNameTaken_elem_of.
Qed.

End NamingLoopsOfHandlers.

(** ** Sanity checks of the embedding *)

Section Checks.
Import Examples DeriverExamples MutationExamples.

(** The school schema: the junction table is collapsed into one N-to-N link,
    the table with three key columns keeps its node and its 1-to-N links (the
    one to the missing table [teachers] is dropped). *)
Example derive_school :
  (λ g, (GraphNode.id <$> Graph.nodes g, Graph.links g)) <$> derive (Some school)
  = Some ([Some "t1"; Some "t2"; Some "t4"],
          [GraphLink.mk (Some "t1") (Some "t2") n_to_n;
           GraphLink.mk (Some "t4") (Some "t1") one_to_n;
           GraphLink.mk (Some "t4") (Some "t2") one_to_n]).
Proof. vm_compute. reflexivity. Qed.

(** Without a schema the graph is empty. *)
Example derive_no_schema : derive (num := Z) None = Some (Graph.mk [] []).
Proof. reflexivity. Qed.

(** A table that shares its identifier with a junction table makes the
    lookup by identifier find the wrong table: here the first table has no
    foreign key and the derivation throws. *)
Example derive_shared_identifier :
  derive (Some (Schema.mk [Table.mk (Some "t3") "notes" [] None None; enrolment;
                           students; courses]))
  = None.
Proof. vm_compute. reflexivity. Qed.

(** The N-to-N tool on [students] and [courses] adds the junction table
    [students_courses]; the derived graph has no node for it and one N-to-N
    link between the two tables. *)
Example connect_students_courses :
  let st := handleAddConnection mid (Some "t1") (Some "t2") n_to_n 1 2 3 4
              (app (Some campus) [] [] addConnection_n_n) in
  (λ s, Table.name <$> Schema.tables s) <$> activeSchema st
  = Some ["students"; "courses"; "students_courses"]
  ∧ (λ g, (GraphNode.id <$> Graph.nodes g, Graph.links g)) <$> derive (activeSchema st)
    = Some ([Some "t1"; Some "t2"], [GraphLink.mk (Some "t1") (Some "t2") n_to_n]).
Proof. vm_compute. split; reflexivity. Qed.

(** Identifiers minted for a regenerated schema: the matched table keeps its
    identifier, its unmatched column and the unmatched table get fresh ones
    and advance the counter. *)
Example reconcile_mints :
  let regenerated : Schema.t Z :=
    Schema.mk
      [Table.mk None "students"
         [Column.mk None "full name" "TEXT" false false None None []] None None;
       Table.mk None "class rooms" [] None None] in
  let '(s, counter) := reconcileSchemaIds regenerated campus 7 in
  (Table.id <$> Schema.tables s,
   (λ t, Column.id <$> Table.columns t) <$> Schema.tables s,
   Table.x <$> Schema.tables s, counter)
  = ([Some "t1"; Some "table-class_rooms-8"],
     [[Some "col-t1-full_name-7"]; []],
     [Some 1%Z; None], 9).
Proof. vm_compute. reflexivity. Qed.

(** Three tables added in a row are named [new_table], [new_table_2] and
    [new_table_3]. *)
Example add_three_tables :
  (λ s, Table.name <$> Schema.tables s)
  <$> activeSchema
        (handleAddTable None 7 8 9
           (handleAddTable None 4 5 6
              (handleAddTable None 1 2 3 (app None [] [] addTable))))
  = Some ["new_table"; "new_table_2"; "new_table_3"].
Proof. vm_compute. reflexivity. Qed.

(** Deleting [users.id] in the blog schema is refused with the name of the
    referencing column. *)
Example delete_referenced_column :
  App.error (handleDeleteColumn (Some "t1") (Some "t1-col-id") 5 editing)
  = Some ("Cannot delete column " +:+ dq +:+ "id" +:+ dq +:+ ". It is referenced by "
          +:+ dq +:+ "posts.users_id" +:+ dq +:+ ".").
Proof. vm_compute. reflexivity. Qed.

End Checks.

(** * Further properties *)

(** ** What the edit commands do to the projects and to the history *)

Section ActionFacts.
Context {num : Type} `{!JsNumber num} (midpoint : option num → option num → num).
Implicit Types (st : App.t num) (ap : Project.t num) (a : Action num).

Lemma commit_reach st st1 now (s : option (Schema.t num)) :
  reach st st1 → reach st (commitSchemaChange st now s st1).
Proof.
  intros H. unfold commitSchemaChange.
  destruct (activeProject st); [by constructor|done].
Qed.

Lemma perform_reach a st : reach st (perform midpoint a st).
Proof.
  destruct a; simpl.
  - unfold handleUndo. repeat case_match; repeat constructor.
  - unfold handleRedo. repeat case_match; repeat constructor.
  - unfold handleAddTable. repeat case_match;
      try apply commit_reach; repeat constructor.
  - unfold handleAddConnection. repeat case_match;
      try apply commit_reach; repeat constructor.
  - unfold handleUpdateTable. repeat case_match;
      try apply commit_reach; repeat constructor.
  - unfold handleUpdateTablePosition. repeat case_match; repeat constructor.
  - unfold handleAddColumn. repeat case_match;
      try apply commit_reach; repeat constructor.
  - unfold handleUpdateColumnDetails. repeat case_match;
      try apply commit_reach; repeat constructor.
  - unfold handleDeleteColumn. repeat case_match;
      try apply commit_reach; repeat constructor.
  - unfold handleDeleteTable. repeat case_match;
      try apply commit_reach; repeat constructor.
Qed.

Lemma reach_keepsOthers st st' : reach st st' → keepsOthers st st'.
Proof.
  induction 1 as [|e st' _ (Hid & Hlen & Hothers)|now u st' _ (Hid & Hlen & Hothers)].
  - by split_and!.
  - by split_and!.
  - split_and!; [done|by simpl; rewrite length_fmap|].
    intros i p Hi Hp. simpl. rewrite list_lookup_fmap, (Hothers i p Hi Hp). simpl.
    by rewrite decide_False.
Qed.

Lemma keepsOthers_trans st1 st2 st3 :
  keepsOthers st1 st2 → keepsOthers st2 st3 → keepsOthers st1 st3.
Proof.
  intros (Hid & Hlen & H12) (Hid' & Hlen' & H23).
  split_and!; [congruence..|].
  intros i p Hi Hp. apply H23; [by apply H12|by rewrite Hid].
Qed.

(** X1.  Whatever commands are performed, one after the other, the active
    project stays the same one, no project is added or removed, and every
    project with another identifier than the active one is left exactly as
    it was. *)
Theorem edits_keep_other_projects (actions : list (Action num)) st :
  keepsOthers st (foldl (λ st' a, perform midpoint a st') st actions).
Proof.
  revert st. induction actions as [|a actions IH]; intros st; simpl.
  - by split_and!.
  - eapply keepsOthers_trans; [|apply IH].
    apply reach_keepsOthers, perform_reach.
Qed.

End ActionFacts.

Section HistoryFacts.
Context {num : Type} `{!JsNumber num} (midpoint : option num → option num → num).
Implicit Types (st : App.t num) (ap : Project.t num) (a : Action num).

Lemma commit_active_after st st1 ap ap1 now (s : option (Schema.t num)) :
  activeProject st = Some ap →
  App.activeProjectId st = App.activeProjectId st1 →
  activeProject st1 = Some ap1 →
  activeProject (commitSchemaChange st now s st1)
  = Some (Project.mk (Project.id ap1) (Project.name ap1) s (Project.messages ap1)
            (match s with None => EmptyString | Some _ => Project.ddl ap end)
            (Project.undoStack ap ++ [Project.schema ap]) [] now).
Proof.
  intros E Hid E1. unfold commitSchemaChange. rewrite E.
  by rewrite activeProject_update_other, E1.
Qed.

(** X2.  A command that edits the content of the schema either leaves the
    schema and both stacks of the active project as they were, or commits:
    the schema it replaces is pushed on the undo stack and the redo stack is
    emptied.  No such command writes the schema past the history. *)
Theorem edits_go_through_history a st ap :
  isEdit a → activeProject st = Some ap →
  ∃ ap', activeProject (perform midpoint a st) = Some ap'
    ∧ ((Project.schema ap' = Project.schema ap
        ∧ Project.undoStack ap' = Project.undoStack ap
        ∧ Project.redoStack ap' = Project.redoStack ap)
       ∨ (Project.undoStack ap' = Project.undoStack ap ++ [Project.schema ap]
          ∧ Project.redoStack ap' = [])).
Proof.
  intros Hedit E.
  assert (∀ now (s : option (Schema.t num)),
    ∃ ap', activeProject (commitSchemaChange st now s st) = Some ap'
      ∧ ((Project.schema ap' = Project.schema ap
          ∧ Project.undoStack ap' = Project.undoStack ap
          ∧ Project.redoStack ap' = Project.redoStack ap)
         ∨ (Project.undoStack ap' = Project.undoStack ap ++ [Project.schema ap]
            ∧ Project.redoStack ap' = []))) as Hcommit.
  { intros now s. eexists. split; [by apply commit_active|]. by right. }
  assert (∀ e,
    ∃ ap', activeProject (setError e st) = Some ap'
      ∧ ((Project.schema ap' = Project.schema ap
          ∧ Project.undoStack ap' = Project.undoStack ap
          ∧ Project.redoStack ap' = Project.redoStack ap)
         ∨ (Project.undoStack ap' = Project.undoStack ap ++ [Project.schema ap]
            ∧ Project.redoStack ap' = []))) as Herror.
  { intros e. exists ap. split; [done|]. by left. }
  assert (∃ ap', activeProject st = Some ap'
      ∧ ((Project.schema ap' = Project.schema ap
          ∧ Project.undoStack ap' = Project.undoStack ap
          ∧ Project.redoStack ap' = Project.redoStack ap)
         ∨ (Project.undoStack ap' = Project.undoStack ap ++ [Project.schema ap]
            ∧ Project.redoStack ap' = []))) as Hsame.
  { exists ap. split; [done|]. by left. }
  destruct a; try done; simpl.
  - unfold handleAddTable. rewrite E.
    destruct (firstFree _ _ _ _); [|done].
    case_decide.
    + eexists. split.
      * eapply commit_active_after; [done|done|].
        by rewrite activeProject_update, E.
      * by right.
    + apply Hcommit.
  - unfold handleAddConnection. repeat case_match; auto.
  - unfold handleUpdateTable. repeat case_match; auto.
  - unfold handleAddColumn. repeat case_match; auto.
  - unfold handleUpdateColumnDetails. repeat case_match; auto.
  - unfold handleDeleteColumn. repeat case_match; auto.
  - unfold handleDeleteTable. repeat case_match; auto.
Qed.

Lemma undo_empty st ap now :
  activeProject st = Some ap → Project.undoStack ap = [] → handleUndo now st = st.
Proof. intros E Hu. unfold handleUndo. by rewrite E, Hu. Qed.

Lemma redo_empty st ap now :
  activeProject st = Some ap → Project.redoStack ap = [] → handleRedo now st = st.
Proof. intros E Hr. unfold handleRedo. by rewrite E, Hr. Qed.

(** X3.  Undo and redo only move through the recorded snapshots: the
    sequence made of the undo stack, the current schema and the redo stack
    is the same after an undo and after a redo; with an empty stack the
    command changes nothing at all.  A commit keeps the sequence up to the
    current schema and puts the committed schema after it. *)
Theorem history_timeline st ap :
  activeProject st = Some ap →
  (∀ now, ∃ ap', activeProject (handleUndo now st) = Some ap'
                 ∧ timeline ap' = timeline ap
                 ∧ (Project.undoStack ap = [] → handleUndo now st = st)
                 ∧ length (Project.undoStack ap')
                   = Nat.pred (length (Project.undoStack ap)))
  ∧ (∀ now, ∃ ap', activeProject (handleRedo now st) = Some ap'
                   ∧ timeline ap' = timeline ap
                   ∧ (Project.redoStack ap = [] → handleRedo now st = st)
                   ∧ length (Project.redoStack ap')
                     = Nat.pred (length (Project.redoStack ap)))
  ∧ (∀ now s, ∃ ap', activeProject (commitSchemaChange st now s st) = Some ap'
                     ∧ timeline ap' = Project.undoStack ap ++ [Project.schema ap; s]).
Proof.
  intros E. split_and!.
  - intros now. destruct (decide (Project.undoStack ap = [])) as [Hnil|Hne].
    + rewrite (undo_empty st ap now E Hnil). exists ap. by rewrite Hnil.
    + destruct (exists_last Hne) as (older & previous & Hu).
      eexists. split; [by eapply undo_active|].
      unfold timeline. simpl. rewrite Hu, length_app. simpl.
      split_and!; [by rewrite <- (assoc_L (++))| |lia].
      intros Hnil. by destruct older.
  - intros now. destruct (Project.redoStack ap) as [|next newer] eqn:Hr.
    + rewrite (redo_empty st ap now E Hr). exists ap. by rewrite Hr.
    + eexists. split; [by eapply redo_active|].
      unfold timeline. simpl. rewrite Hr. simpl.
      split_and!; [by rewrite <- (assoc_L (++))|done|done].
  - intros now s. eexists. split; [by apply commit_active|].
    unfold timeline. simpl. by rewrite <- (assoc_L (++)).
Qed.

End HistoryFacts.

(** ** Tables, columns and connections added by the handlers *)

Section FreshNames.

(** The loop stops at the first counter whose candidate is free. *)
Lemma firstFree_Some (fuel : nat) (taken : string → bool) (base : string) (c k : nat) :
  firstFree fuel taken base c = Some k →
  (c ≤ k)%nat ∧ taken (candidate base k) = false
  ∧ ∀ j, (c ≤ j)%nat → j < k → taken (candidate base j) = true.
Proof.
  revert c. induction fuel as [|fuel IH]; intros c Hk; [done|].
  simpl in Hk. destruct (taken (candidate base c)) eqn:Htaken.
  - destruct (IH (S c) Hk) as (Hle & Hfree & Hbefore).
    split_and!; [lia|done|].
    intros j Hj Hjk. destruct (decide (j = c)) as [->|]; [done|].
    apply Hbefore; lia.
  - injection Hk as <-. split_and!; [done..|]. intros j Hj Hjk. lia.
Qed.

Lemma bumpName_Some (fuel : nat) (taken : string → bool) (base name : string) :
  bumpName fuel taken base 1 base = Some name →
  ∃ k, (1 ≤ k)%nat ∧ name = candidate base k ∧ taken name = false
       ∧ ∀ j, (1 ≤ j)%nat → j < k → taken (candidate base j) = true.
Proof.
  rewrite <- (candidate_first base) at 2.
  rewrite bumpName_firstFree by done.
  destruct (firstFree fuel taken base 1) as [k|] eqn:Hk; [|done].
  intros [= <-]. apply firstFree_Some in Hk as (Hle & Hfree & Hbefore).
  by exists k.
Qed.

End FreshNames.

Section Additions.
Context {num : Type} `{!JsNumber num} (midpoint : option num → option num → num).
Implicit Types (st : App.t num) (ap : Project.t num) (schema : Schema.t num)
  (t : Table.t num).

Lemma nameTaken_false (tables : list (Table.t num)) (n : string) :
  nameTaken tables n = false ↔ n ∉ Table.name <$> tables.
Proof.
  unfold nameTaken. rewrite bool_decide_eq_false, Exists_exists, list_elem_of_fmap.
  split.
  - intros Hno (t & -> & Ht). apply Hno. by exists t.
  - intros Hno (t & Ht & <-). apply Hno. by exists t.
Qed.

Lemma columnNameTaken_false (columns : list Column.t) (n : string) :
  columnNameTaken columns n = false ↔ n ∉ Column.name <$> columns.
Proof.
  unfold columnNameTaken.
  rewrite bool_decide_eq_false, Exists_exists, list_elem_of_fmap.
  split.
  - intros Hno (c & -> & Hc). apply Hno. by exists c.
  - intros Hno (c & Hc & <-). apply Hno. by exists c.
Qed.

Lemma NoDup_snoc_fresh {A} (l : list A) (x : A) : NoDup l → x ∉ l → NoDup (l ++ [x]).
Proof.
  intros Hl Hx. apply NoDup_app. split_and!; [done| |apply NoDup_singleton].
  by intros y Hy ->%list_elem_of_singleton.
Qed.

Lemma pushColumn_found (tables : list (Table.t num)) (i : option string) (k : nat) t
    (c : Column.t) :
  list_find (λ t', Table.id t' = i) tables = Some (k, t) →
  pushColumn tables i c = <[k := Table.with_columns t (Table.columns t ++ [c])]> tables.
Proof. intros Hfind. unfold pushColumn, updateFound. by rewrite Hfind. Qed.

Lemma pushColumn_json (tables : list (Table.t num)) (i : option string) (k : nat) t
    (c : Column.t) :
  list_find (λ t', Table.id t' = i) tables = Some (k, t) →
  pushColumn (jsonTable <$> tables) i c
  = <[k := Table.with_columns (jsonTable t) (Table.columns t ++ [c])]>
      (jsonTable <$> tables).
Proof.
  intros Hfind. apply (pushColumn_found _ _ k (jsonTable t)).
  rewrite (list_find_json (λ t', Table.id t' = i)) by done. by rewrite Hfind.
Qed.

(** A schema whose coordinates are finite or absent is its own copy. *)
Lemma jsonTables_stable (tables : list (Table.t num)) :
  Forall (λ t, jsonTable t = t) tables → jsonTable <$> tables = tables.
Proof. induction 1 as [|t l Ht _ IH]; [done|]. csimpl. by rewrite Ht, IH. Qed.

(** X4.  [handleAddTable] appends exactly one table to the tables of the
    active project and commits.  The name of the table is the first unused
    one of [new_table], [new_table_2], [new_table_3], ...; the table has the
    single column [id], an INTEGER primary key that is NOT NULL, and lies at
    the given position.  Names that were pairwise distinct stay so. *)
Theorem addTable_first_unused_name st ap (position : option (num * num))
    (nowId nowMessages nowCommit : Z) :
  activeProject st = Some ap →
  ∃ counter,
    (1 ≤ counter)%nat
    ∧ (candidate "new_table" counter
       ∉ Table.name <$> Schema.tables (default (Schema.mk []) (Project.schema ap)))
    ∧ (∀ j, (1 ≤ j)%nat → j < counter →
         candidate "new_table" j
         ∈ Table.name <$> Schema.tables (default (Schema.mk []) (Project.schema ap)))
    ∧ activeSchema (handleAddTable position nowId nowMessages nowCommit st)
      = Some (Schema.mk
          (Schema.tables (default (Schema.mk []) (Project.schema ap))
           ++ [Table.mk
                 (Some ("table-" +:+ candidate "new_table" counter +:+ "-"
                        +:+ pretty nowId))
                 (candidate "new_table" counter)
                 [Column.mk
                    (Some (("table-" +:+ candidate "new_table" counter +:+ "-"
                            +:+ pretty nowId) +:+ "-col-id"))
                    "id" "INTEGER" true false None None ["NOT NULL"]]
                 (fst <$> position) (snd <$> position)]))
    ∧ (NoDup (Table.name <$> Schema.tables (default (Schema.mk []) (Project.schema ap))) →
       ∀ schema', activeSchema (handleAddTable position nowId nowMessages nowCommit st)
                  = Some schema' →
                  NoDup (Table.name <$> Schema.tables schema')).
Proof.
  intros E.
  set (tables := Schema.tables (default (Schema.mk []) (Project.schema ap))).
  destruct (table_name_loop_total tables "new_table") as [counter Hfree].
  pose proof (firstFree_Some _ _ _ _ _ Hfree) as (Hle & Hnot & Hbefore).
  exists counter. split; [done|].
  split; [by apply nameTaken_false|].
  split; [intros j Hj Hjk; by apply nameTaken_elem_of, Hbefore|].
  rewrite (handleAddTable_schema st ap position nowId nowMessages nowCommit counter E Hfree).
  split; [done|].
  intros Hnd schema' [= <-]. simpl. rewrite fmap_app. simpl.
  apply NoDup_snoc_fresh; [done|]. by apply nameTaken_false.
Qed.

(** X5.  [handleAddColumn] commits the deep copy of the schema with exactly
    one column appended to the table found under the identifier.  The name
    of the column is the first unused one of [new_column], [new_column_2],
    ... in that table; its type is VARCHAR(255) and it is no key.  Every
    other table is its copy: unchanged when its coordinates are finite or
    absent.  Column names that were pairwise distinct stay so. *)
Theorem addColumn_first_unused_name st schema (tableId : option string)
    (nowId nowCommit : Z) (k : nat) t :
  activeSchema st = Some schema →
  list_find (λ t', Table.id t' = tableId) (Schema.tables schema) = Some (k, t) →
  ∃ counter,
    (1 ≤ counter)%nat
    ∧ (candidate "new_column" counter ∉ Column.name <$> Table.columns t)
    ∧ (∀ j, (1 ≤ j)%nat → j < counter →
         candidate "new_column" j ∈ Column.name <$> Table.columns t)
    ∧ activeSchema (handleAddColumn tableId nowId nowCommit st)
      = Some (Schema.mk
          (<[k := Table.with_columns (jsonTable t)
                    (Table.columns t
                     ++ [Column.mk
                           (Some ("col-" +:+ idString (Table.id t) +:+ "-"
                                  +:+ candidate "new_column" counter +:+ "-"
                                  +:+ pretty nowId))
                           (candidate "new_column" counter) "VARCHAR(255)"
                           false false None None []])]>
             (jsonTable <$> Schema.tables schema)))
    ∧ (Forall (λ t', jsonTable t' = t') (Schema.tables schema) →
       activeSchema (handleAddColumn tableId nowId nowCommit st)
       = Some (Schema.mk
           (<[k := Table.with_columns t
                     (Table.columns t
                      ++ [Column.mk
                            (Some ("col-" +:+ idString (Table.id t) +:+ "-"
                                   +:+ candidate "new_column" counter +:+ "-"
                                   +:+ pretty nowId))
                            (candidate "new_column" counter) "VARCHAR(255)"
                            false false None None []])]>
              (Schema.tables schema))))
    ∧ (NoDup (Column.name <$> Table.columns t) →
       NoDup (Column.name <$> (Table.columns t
              ++ [Column.mk
                    (Some ("col-" +:+ idString (Table.id t) +:+ "-"
                           +:+ candidate "new_column" counter +:+ "-" +:+ pretty nowId))
                    (candidate "new_column" counter) "VARCHAR(255)"
                    false false None None []]))).
Proof.
  intros Hs Hfind.
  assert (findTable schema tableId = Some t) as Hfound
    by (apply findTable_Some; by exists k).
  destruct (firstFree_total (Column.name <$> Table.columns t)
              (columnNameTaken (Table.columns t)) "new_column" 1
              (columnNameTaken_elem_of _)) as [counter Hfree]; [done|].
  rewrite length_fmap in Hfree.
  pose proof (firstFree_Some _ _ _ _ _ Hfree) as (Hle & Hnot & Hbefore).
  exists counter. split; [done|].
  split; [by apply columnNameTaken_false|].
  split; [intros j Hj Hjk; by apply columnNameTaken_elem_of, Hbefore|].
  assert (activeSchema (handleAddColumn tableId nowId nowCommit st)
      = Some (Schema.mk
          (<[k := Table.with_columns (jsonTable t)
                    (Table.columns t
                     ++ [Column.mk
                           (Some ("col-" +:+ idString (Table.id t) +:+ "-"
                                  +:+ candidate "new_column" counter +:+ "-"
                                  +:+ pretty nowId))
                           (candidate "new_column" counter) "VARCHAR(255)"
                           false false None None []])]>
             (jsonTable <$> Schema.tables schema)))) as Hresult.
  { unfold handleAddColumn. rewrite Hs. cbv zeta. rewrite findTable_json, Hfound.
    cbn [fmap option_fmap option_map jsonTable Table.columns Table.id].
    rewrite Hfree. rewrite (activeSchema_commit st schema) by done.
    cbn [jsonSchema Schema.tables]. by rewrite (pushColumn_json _ _ k t). }
  split; [done|]. split.
  - intros Hstable. rewrite Hresult, (jsonTables_stable _ Hstable).
    rewrite Forall_forall in Hstable. rewrite Hstable; [done|].
    apply list_find_Some in Hfind as (Hk & _). by eapply list_elem_of_lookup_2.
  - intros Hnd. rewrite fmap_app. simpl.
    apply NoDup_snoc_fresh; [done|]. by apply columnNameTaken_false.
Qed.

(** X6.  A 1-to-N connection whose source and target are found and whose
    target has a primary key commits the deep copy of the schema with exactly
    one column appended to the source table.  The column is named after the
    target, [target_id] or the first unused one of [target_id_2],
    [target_id_3], ...; it has the type of the first primary-key column of
    the target, is a foreign key to that column and is no primary key.
    Every other table is its copy: unchanged when its coordinates are finite
    or absent. *)
Theorem addConnection_1_n_column st schema (sourceTableId targetTableId : option string)
    (now1 now2 now3 nowCommit : Z) (k : nat) (sourceTable targetTable : Table.t num)
    (targetPk : Column.t) :
  activeSchema st = Some schema →
  list_find (λ t', Table.id t' = sourceTableId) (Schema.tables schema)
    = Some (k, sourceTable) →
  findTable schema targetTableId = Some targetTable →
  findPk targetTable = Some targetPk →
  ∃ counter,
    (1 ≤ counter)%nat
    ∧ (candidate (Table.name targetTable +:+ "_id") counter
       ∉ Column.name <$> Table.columns sourceTable)
    ∧ (∀ j, (1 ≤ j)%nat → j < counter →
         candidate (Table.name targetTable +:+ "_id") j
         ∈ Column.name <$> Table.columns sourceTable)
    ∧ Column.isPrimaryKey targetPk
    ∧ targetPk ∈ Table.columns targetTable
    ∧ activeSchema (handleAddConnection midpoint sourceTableId targetTableId one_to_n
                                        now1 now2 now3 nowCommit st)
      = Some (Schema.mk
          (<[k := Table.with_columns (jsonTable sourceTable)
                    (Table.columns sourceTable
                     ++ [Column.mk
                           (Some ("col-" +:+ idString (Table.id sourceTable) +:+ "-"
                                  +:+ candidate (Table.name targetTable +:+ "_id") counter
                                  +:+ "-" +:+ pretty now1))
                           (candidate (Table.name targetTable +:+ "_id") counter)
                           (Column.type targetPk) false true
                           (Some (Table.name targetTable)) (Some (Column.name targetPk))
                           []])]>
             (jsonTable <$> Schema.tables schema)))
    ∧ (Forall (λ t', jsonTable t' = t') (Schema.tables schema) →
       activeSchema (handleAddConnection midpoint sourceTableId targetTableId one_to_n
                                         now1 now2 now3 nowCommit st)
       = Some (Schema.mk
           (<[k := Table.with_columns sourceTable
                     (Table.columns sourceTable
                      ++ [Column.mk
                            (Some ("col-" +:+ idString (Table.id sourceTable) +:+ "-"
                                   +:+ candidate (Table.name targetTable +:+ "_id") counter
                                   +:+ "-" +:+ pretty now1))
                            (candidate (Table.name targetTable +:+ "_id") counter)
                            (Column.type targetPk) false true
                            (Some (Table.name targetTable)) (Some (Column.name targetPk))
                            []])]>
              (Schema.tables schema)))).
Proof.
  intros Hs Hfind HT Hpk.
  assert (findTable schema sourceTableId = Some sourceTable) as HS
    by (apply findTable_Some; by exists k).
  destruct (column_name_loop_total (Table.columns sourceTable)
              (Table.name targetTable +:+ "_id")) as [name Hname].
  destruct (bumpName_Some _ _ _ _ Hname) as (counter & Hle & -> & Hfree & Hbefore).
  exists counter. split; [done|].
  split; [by apply columnNameTaken_false|].
  split; [intros j Hj Hjk; by apply columnNameTaken_elem_of, Hbefore|].
  assert (Column.isPrimaryKey targetPk ∧ targetPk ∈ Table.columns targetTable)
    as [HisPk Hin].
  { unfold findPk in Hpk.
    destruct (list_find _ (Table.columns targetTable)) as [[i c]|] eqn:Hc; [|done].
    injection Hpk as ->. apply list_find_Some in Hc as (Hi & HP & _).
    split; [done|]. by eapply list_elem_of_lookup_2. }
  split; [done|]. split; [done|].
  rewrite (handleAddConnection_1_n_schema midpoint st schema _ _ _ _ _ _
             sourceTable targetTable targetPk _ Hs HS HT Hpk Hname).
  cbn [jsonSchema Schema.tables]. rewrite (pushColumn_json _ _ k sourceTable) by done.
  split; [done|].
  intros Hstable. rewrite (jsonTables_stable _ Hstable).
  rewrite Forall_forall in Hstable. rewrite Hstable; [done|].
  apply list_find_Some in Hfind as (Hk & _). by eapply list_elem_of_lookup_2.
Qed.

End Additions.

Section JunctionTables.
Context {num : Type} `{!JsNumber num} (midpoint : option num → option num → num).
Implicit Types (st : App.t num) (schema : Schema.t num) (t : Table.t num).

Lemma findTable_elem_of schema (i : option string) t :
  findTable schema i = Some t → t ∈ Schema.tables schema ∧ Table.id t = i.
Proof.
  intros [k Hk]%findTable_Some. apply list_find_Some in Hk as (Hk & Hid & _).
  split; [by eapply list_elem_of_lookup_2|done].
Qed.

Lemma handleAddConnection_n_n_schema st schema (sourceTableId targetTableId : option string)
    (now1 now2 now3 nowCommit : Z) (sourceTable targetTable : Table.t num)
    (sourcePk targetPk : Column.t) (junctionTableName : string) :
  activeSchema st = Some schema →
  findTable schema sourceTableId = Some sourceTable →
  findTable schema targetTableId = Some targetTable →
  findPk sourceTable = Some sourcePk →
  findPk targetTable = Some targetPk →
  bumpName (S (length (Schema.tables (jsonSchema schema))))
           (nameTaken (Schema.tables (jsonSchema schema)))
           (Table.name sourceTable +:+ "_" +:+ Table.name targetTable) 1
           (Table.name sourceTable +:+ "_" +:+ Table.name targetTable)
    = Some junctionTableName →
  activeSchema (handleAddConnection midpoint sourceTableId targetTableId n_to_n
                                    now1 now2 now3 nowCommit st)
  = Some (Schema.mk
      (Schema.tables (jsonSchema schema)
       ++ [Table.mk
             (Some ("table-" +:+ junctionTableName +:+ "-" +:+ pretty now1))
             junctionTableName
             [Column.mk
                (Some ("col-" +:+ ("table-" +:+ junctionTableName +:+ "-" +:+ pretty now1)
                       +:+ "-" +:+ Table.name sourceTable +:+ "_id-" +:+ pretty now2))
                (Table.name sourceTable +:+ "_id") (Column.type sourcePk) true true
                (Some (Table.name sourceTable)) (Some (Column.name sourcePk)) ["NOT NULL"];
              Column.mk
                (Some ("col-" +:+ ("table-" +:+ junctionTableName +:+ "-" +:+ pretty now1)
                       +:+ "-" +:+ Table.name targetTable +:+ "_id-" +:+ pretty now3))
                (Table.name targetTable +:+ "_id") (Column.type targetPk) true true
                (Some (Table.name targetTable)) (Some (Column.name targetPk)) ["NOT NULL"]]
             (Some (midpoint (Table.x sourceTable ≫= jsonNumber)
                             (Table.x targetTable ≫= jsonNumber)))
             (Some (midpoint (Table.y sourceTable ≫= jsonNumber)
                             (Table.y targetTable ≫= jsonNumber)))])).
Proof.
  intros Hs HS HT Hspk Htpk Hname. unfold handleAddConnection.
  rewrite Hs. cbv zeta. rewrite !findTable_json, HS, HT.
  cbn [fmap option_fmap option_map]. rewrite !findPk_json, Hspk, Htpk.
  cbn [jsonTable Table.name Table.x Table.y]. rewrite Hname.
  by rewrite (activeSchema_commit st schema).
Qed.

(** X7.  An N-to-N connection between two tables that are found and have a
    primary key commits the deep copy of the schema with one table appended.
    The new table is named after the two tables with the first unused
    suffix, its two columns are primary keys and foreign keys to the first
    primary-key columns of the source and of the target, its position is the
    midpoint of the copied positions of the two tables, and table names that
    were pairwise distinct stay so.  The tables before it are their copies:
    unchanged when their coordinates are finite or absent.  When moreover
    the table identifiers and names are pairwise distinct and no table
    carries an identifier minted at the same reading of the clock, the graph
    derived from the new schema has no node for the new table and has the
    N-to-N link from the source to the target. *)
Theorem addConnection_n_n_collapses st schema (sourceTableId targetTableId : option string)
    (now1 now2 now3 nowCommit : Z) (sourceTable targetTable : Table.t num)
    (sourcePk targetPk : Column.t) :
  activeSchema st = Some schema →
  findTable schema sourceTableId = Some sourceTable →
  findTable schema targetTableId = Some targetTable →
  findPk sourceTable = Some sourcePk →
  findPk targetTable = Some targetPk →
  ∃ counter (junction : Table.t num),
    (1 ≤ counter)%nat
    ∧ Table.name junction
      = candidate (Table.name sourceTable +:+ "_" +:+ Table.name targetTable) counter
    ∧ (Table.name junction ∉ Table.name <$> Schema.tables schema)
    ∧ Table.id junction
      = Some ("table-" +:+ Table.name junction +:+ "-" +:+ pretty now1)
    ∧ (∃ c1 c2, Table.columns junction = [c1; c2]
         ∧ Column.isPrimaryKey c1 ∧ Column.isForeignKey c1
         ∧ Column.foreignKeyTable c1 = Some (Table.name sourceTable)
         ∧ Column.foreignKeyColumn c1 = Some (Column.name sourcePk)
         ∧ Column.type c1 = Column.type sourcePk
         ∧ Column.isPrimaryKey c2 ∧ Column.isForeignKey c2
         ∧ Column.foreignKeyTable c2 = Some (Table.name targetTable)
         ∧ Column.foreignKeyColumn c2 = Some (Column.name targetPk)
         ∧ Column.type c2 = Column.type targetPk)
    ∧ Table.x junction
      = Some (midpoint (Table.x sourceTable ≫= jsonNumber)
                       (Table.x targetTable ≫= jsonNumber))
    ∧ Table.y junction
      = Some (midpoint (Table.y sourceTable ≫= jsonNumber)
                       (Table.y targetTable ≫= jsonNumber))
    ∧ activeSchema (handleAddConnection midpoint sourceTableId targetTableId n_to_n
                                        now1 now2 now3 nowCommit st)
      = Some (Schema.mk ((jsonTable <$> Schema.tables schema) ++ [junction]))
    ∧ (Forall (λ t', jsonTable t' = t') (Schema.tables schema) →
       activeSchema (handleAddConnection midpoint sourceTableId targetTableId n_to_n
                                         now1 now2 now3 nowCommit st)
       = Some (Schema.mk (Schema.tables schema ++ [junction])))
    ∧ (NoDup (Table.name <$> Schema.tables schema) →
       NoDup (Table.name <$> (jsonTable <$> Schema.tables schema) ++ [junction]))
    ∧ (NoDup (Table.name <$> Schema.tables schema) →
       NoDup (Table.id <$> Schema.tables schema) →
       (∀ n, Some ("table-" +:+ n +:+ "-" +:+ pretty now1)
             ∉ Table.id <$> Schema.tables schema) →
       ∃ g, derive (Some (Schema.mk ((jsonTable <$> Schema.tables schema) ++ [junction])))
            = Some g
            ∧ (∀ n, n ∈ Graph.nodes g → GraphNode.id n ≠ Table.id junction)
            ∧ GraphLink.mk (Table.id sourceTable) (Table.id targetTable) n_to_n
              ∈ Graph.links g).
Proof.
  intros Hs HS HT Hspk Htpk.
  assert (Table.name <$> (jsonTable <$> Schema.tables schema)
          = Table.name <$> Schema.tables schema) as Hnames_copy
    by (by rewrite <- list_fmap_compose).
  assert (Table.id <$> (jsonTable <$> Schema.tables schema)
          = Table.id <$> Schema.tables schema) as Hids_copy
    by (by rewrite <- list_fmap_compose).
  destruct (junction_name_loop_total (Schema.tables (jsonSchema schema))
              (Table.name sourceTable +:+ "_" +:+ Table.name targetTable))
    as [name Hname].
  destruct (bumpName_Some _ _ _ _ Hname) as (counter & Hle & Hcand & Hfree & _).
  cbn [jsonSchema Schema.tables] in Hfree. rewrite nameTaken_json in Hfree.
  apply nameTaken_false in Hfree.
  rewrite (handleAddConnection_n_n_schema st schema _ _ now1 now2 now3 nowCommit
             _ _ _ _ name Hs HS HT Hspk Htpk Hname).
  cbn [jsonSchema Schema.tables].
  match goal with
  | |- context [(jsonTable <$> Schema.tables schema) ++ [?J]] => set (junction := J)
  end.
  exists counter, junction. split; [done|].
  split; [exact Hcand|]. split; [exact Hfree|]. split; [done|].
  split; [by eexists _, _|]. split; [done|]. split; [done|]. split; [done|].
  split; [intros Hstable; by rewrite (jsonTables_stable _ Hstable)|].
  assert (NoDup (Table.name <$> Schema.tables schema) →
          NoDup (Table.name <$> (jsonTable <$> Schema.tables schema) ++ [junction]))
    as Hnames.
  { intros Hnd. rewrite fmap_app, Hnames_copy. by apply NoDup_snoc_fresh. }
  split; [exact Hnames|].
  intros Hndn Hndi Hfresh.
  set (schema' := Schema.mk ((jsonTable <$> Schema.tables schema) ++ [junction])).
  assert (NoDup (Table.id <$> Schema.tables schema')) as Hndi'.
  { unfold schema'. simpl. rewrite fmap_app, Hids_copy.
    apply NoDup_snoc_fresh; [done|apply Hfresh]. }
  assert (junction ∈ Schema.tables schema') as HJ
    by (apply elem_of_app; right; apply list_elem_of_here).
  assert (isJunction junction) as Hj by done.
  destruct (derive_Some schema' Hndi') as (jl & Hjl & Hg).
  eexists. split; [exact Hg|]. simpl. split.
  - intros n Hn. by eapply (junction_no_node schema' junction).
  - apply elem_of_app. left.
    destruct (junction_position schema' junction HJ Hj) as (k & Hk & _).
    apply mapM_Some in Hjl.
    destruct (Forall2_lookup_l _ _ _ _ _ Hjl Hk) as (e & He & Hlink).
    erewrite (junctionLink_junction schema' _ junction) in Hlink; [|done..| reflexivity].
    apply findTable_elem_of in HS as [HSin _]. apply findTable_elem_of in HT as [HTin _].
    simpl in Hlink.
    rewrite (Map_of_lookup_NoDup Table.name _ (jsonTable sourceTable)) in Hlink;
      [|by apply Hnames|by apply elem_of_app; left; apply list_elem_of_fmap_2].
    rewrite (Map_of_lookup_NoDup Table.name _ (jsonTable targetTable)) in Hlink;
      [|by apply Hnames|by apply elem_of_app; left; apply list_elem_of_fmap_2].
    injection Hlink as <-.
    apply list_elem_of_join. eexists. split; [apply list_elem_of_here|].
    by eapply list_elem_of_lookup_2.
Qed.

End JunctionTables.

(** ** Deletions, renames and column edits *)

Section Removals.
Context {num : Type} `{!JsNumber num}.
Implicit Types (st : App.t num) (schema : Schema.t num) (t : Table.t num).

Lemma with_columns_same t : Table.with_columns t (Table.columns t) = t.
Proof. by destruct t. Qed.

Lemma NoDup_fmap_filter {A B} (f : A → B) (P : A → Prop) `{∀ a, Decision (P a)}
    (l : list A) :
  NoDup (f <$> l) → NoDup (f <$> filter P l).
Proof.
  induction l as [|a l IH]; [done|].
  rewrite fmap_cons, NoDup_cons. intros [Ha Hl].
  rewrite filter_cons. case_decide; [|by apply IH].
  rewrite fmap_cons. apply NoDup_cons. split; [|by apply IH].
  intros (b & Hab & Hb%list_elem_of_filter)%list_elem_of_fmap.
  apply Ha. rewrite Hab. apply list_elem_of_fmap_2. tauto.
Qed.

(** X8.  A confirmed deletion of a table that is found commits a schema in
    which no table carries the deleted identifier and no column is a foreign
    key to the name of the deleted table.  A table with another identifier
    and without such a column is kept as it is; every remaining table keeps
    its identifier, name and position; names and identifiers that were
    pairwise distinct stay so.  Without the confirmation nothing changes. *)
Theorem deleteTable_cascade st schema (tableId : option string) (now : Z) (deleted : Table.t num) :
  activeSchema st = Some schema →
  findTable schema tableId = Some deleted →
  handleDeleteTable tableId false now st = st
  ∧ ∃ schema',
      activeSchema (handleDeleteTable tableId true now st) = Some schema'
      ∧ (∀ t', t' ∈ Schema.tables schema' →
           Table.id t' ≠ tableId
           ∧ (∀ c, c ∈ Table.columns t' →
                ¬ (Column.isForeignKey c
                   ∧ Column.foreignKeyTable c = Some (Table.name deleted)))
           ∧ ∃ t, t ∈ Schema.tables schema
                  ∧ Table.id t' = Table.id t ∧ Table.name t' = Table.name t
                  ∧ Table.x t' = Table.x t ∧ Table.y t' = Table.y t
                  ∧ ∀ c, c ∈ Table.columns t' → c ∈ Table.columns t)
      ∧ (∀ t, t ∈ Schema.tables schema → Table.id t ≠ tableId →
           (∀ c, c ∈ Table.columns t →
              ¬ (Column.isForeignKey c
                 ∧ Column.foreignKeyTable c = Some (Table.name deleted))) →
           t ∈ Schema.tables schema')
      ∧ (NoDup (Table.name <$> Schema.tables schema) →
         NoDup (Table.name <$> Schema.tables schema'))
      ∧ (NoDup (Table.id <$> Schema.tables schema) →
         NoDup (Table.id <$> Schema.tables schema')).
Proof.
  intros Hs Hfind. split; [apply handleDeleteTable_unconfirmed|].
  rewrite (handleDeleteTable_schema st schema tableId now deleted Hs Hfind).
  eexists. split; [done|]. simpl. split_and!.
  - intros t' (t & -> & [Hid Ht]%list_elem_of_filter)%list_elem_of_fmap.
    split; [done|]. split.
    + intros c [Hc _]%list_elem_of_filter. done.
    + exists t. split_and!; try done. by intros c [_ Hc]%list_elem_of_filter.
  - intros t Ht Hid Hcols. apply list_elem_of_fmap. exists t. split.
    + rewrite filter_all; [by rewrite with_columns_same|]. by apply Forall_forall.
    + by apply list_elem_of_filter.
  - intros Hnd. rewrite <- list_fmap_compose.
    by apply (NoDup_fmap_filter Table.name).
  - intros Hnd. rewrite <- list_fmap_compose.
    by apply (NoDup_fmap_filter Table.id).
Qed.

Lemma firstReference_None schema (tableName columnName : string) :
  (∀ t c, t ∈ Schema.tables schema → c ∈ Table.columns t →
          ¬ references tableName columnName c) →
  firstReference schema tableName columnName = None.
Proof.
  intros Hno. unfold firstReference.
  destruct (head _) as [[t c]|] eqn:Hhead; [|done].
  apply head_Some_elem_of in Hhead.
  apply list_elem_of_bind in Hhead as (t' & Hin & Ht').
  apply list_elem_of_fmap in Hin as (c' & [= -> ->] & [Href Hc]%list_elem_of_filter).
  by destruct (Hno t' c' Ht' Hc).
Qed.

(** X9.  The deletion of a column that is found and that no foreign key
    references commits a schema with the same tables in the same order: a
    table with another identifier is unchanged, a table with the identifier
    loses exactly its columns with the identifier of the column, and the
    previous schema is pushed on the undo stack. *)
Theorem deleteColumn_unreferenced st (ap : Project.t num) schema
    (tableId columnId : option string) (now : Z) (owner : Table.t num) (column : Column.t) :
  activeProject st = Some ap → Project.schema ap = Some schema →
  findTable schema tableId = Some owner →
  snd <$> list_find (λ c, Column.id c = columnId) (Table.columns owner) = Some column →
  (∀ t c, t ∈ Schema.tables schema → c ∈ Table.columns t →
          ¬ references (Table.name owner) (Column.name column) c) →
  ∃ ap' schema',
    activeProject (handleDeleteColumn tableId columnId now st) = Some ap'
    ∧ Project.schema ap' = Some schema'
    ∧ Project.undoStack ap' = Project.undoStack ap ++ [Some schema]
    ∧ Project.redoStack ap' = []
    ∧ length (Schema.tables schema') = length (Schema.tables schema)
    ∧ ∀ i t, Schema.tables schema !! i = Some t →
        ∃ t', Schema.tables schema' !! i = Some t'
          ∧ (Table.id t ≠ tableId → t' = t)
          ∧ (Table.id t = tableId →
             Table.id t' = Table.id t ∧ Table.name t' = Table.name t
             ∧ Table.x t' = Table.x t ∧ Table.y t' = Table.y t
             ∧ ∀ c, c ∈ Table.columns t' ↔ c ∈ Table.columns t ∧ Column.id c ≠ columnId).
Proof.
  intros E Hschema Hown Hcol Hfree.
  assert (activeSchema st = Some schema) as Hs by (apply activeSchema_Some; eauto).
  unfold handleDeleteColumn. rewrite Hs, Hown, Hcol.
  rewrite (firstReference_None schema _ _ Hfree).
  rewrite (commit_active st ap now _ E). rewrite Hschema.
  eexists _, _. split_and!; try done.
  { simpl. by rewrite length_fmap. }
  intros i t Hi. simpl. rewrite list_lookup_fmap, Hi. simpl.
  eexists. split; [done|]. case_decide; split; try done.
  intros _. split_and!; try done.
  intros c. simpl. rewrite list_elem_of_filter. tauto.
Qed.

(** X10.  A successful rename keeps the table names pairwise distinct,
    when they and the table identifiers were so; the identifiers do not
    change. *)
Theorem rename_keeps_names_distinct st schema (tableId : option string)
    (newName : string) (now : Z) (t0 : Table.t num) :
  activeSchema st = Some schema →
  ¬ Exists (λ t, Table.name t = newName ∧ Table.id t ≠ tableId) (Schema.tables schema) →
  findTable schema tableId = Some t0 →
  Table.name t0 ≠ EmptyString →
  NoDup (Table.id <$> Schema.tables schema) →
  NoDup (Table.name <$> Schema.tables schema) →
  ∃ schema',
    activeSchema (handleUpdateTable tableId newName now st) = Some schema'
    ∧ Table.id <$> Schema.tables schema' = Table.id <$> Schema.tables schema
    ∧ NoDup (Table.name <$> Schema.tables schema').
Proof.
  intros Hs Hfree Hfind Hname Hndi Hndn.
  rewrite (handleUpdateTable_schema st schema tableId newName now t0 Hs Hfree Hfind Hname).
  apply findTable_Some in Hfind as [k Hk].
  cbn [jsonSchema Schema.tables]. rewrite updateFound_json by done.
  eexists. split; [done|]. simpl.
  unfold updateFound. rewrite Hk.
  pose proof Hk as (Hkt & Hkid & _)%list_find_Some.
  split.
  - rewrite <- !list_fmap_compose. rewrite list_fmap_insert. simpl.
    rewrite list_insert_id; [done|]. by rewrite list_lookup_fmap, Hkt.
  - rewrite <- !list_fmap_compose. rewrite list_fmap_insert. simpl.
    apply NoDup_alt. intros i j n Hi Hj.
    assert (∀ i', i' ≠ k →
              <[k := newName]> (Table.name <$> Schema.tables schema) !! i' = Some newName →
              False) as Hclash.
    { intros i' Hne Hi'. rewrite list_lookup_insert_ne in Hi' by done.
      rewrite list_lookup_fmap in Hi'.
      destruct (Schema.tables schema !! i') as [t|] eqn:Ht; [|done].
      injection Hi' as Hi'.
      destruct (decide (Table.id t = tableId)) as [Hid|Hid].
      - apply Hne. eapply (NoDup_lookup _ _ _ tableId Hndi).
        + by rewrite list_lookup_fmap, Ht; simpl; rewrite Hid.
        + by rewrite list_lookup_fmap, Hkt; simpl; rewrite Hkid.
      - apply Hfree, Exists_exists. exists t.
        split; [by eapply list_elem_of_lookup_2|done]. }
    assert (k < length (Table.name <$> Schema.tables schema)) as Hlen
      by (rewrite length_fmap; by eapply lookup_lt_Some).
    destruct (decide (i = k)) as [->|Hik], (decide (j = k)) as [->|Hjk]; [done| | |].
    + rewrite list_lookup_insert_eq in Hi by done. injection Hi as <-.
      by destruct (Hclash j).
    + rewrite list_lookup_insert_eq in Hj by done. injection Hj as <-.
      by destruct (Hclash i).
    + rewrite list_lookup_insert_ne in Hi, Hj by done.
      by eapply NoDup_lookup.
Qed.

End Removals.

Section ColumnEdits.
Context {num : Type} `{!JsNumber num}.
Implicit Types (st : App.t num) (schema : Schema.t num) (t : Table.t num).

Lemma renameColumnReference_spec (tableName oldName newName : string) (c : Column.t) :
  (references tableName oldName c →
   renameColumnReference tableName oldName newName c
   = withForeignKeyColumn c (Some newName))
  ∧ (¬ references tableName oldName c →
     renameColumnReference tableName oldName newName c = c).
Proof.
  unfold renameColumnReference, references. split.
  - intros (Hfk & Ht & Hc). destruct (Column.isForeignKey c); [|done].
    by rewrite !bool_decide_eq_true_2.
  - intros Hn. destruct (Column.isForeignKey c); [|done]. simpl.
    destruct (decide (Column.foreignKeyTable c = Some tableName)) as [Ht|Ht].
    + rewrite (bool_decide_eq_true_2 _ Ht). simpl.
      rewrite bool_decide_eq_false_2; [done|]. intros Hc. by apply Hn.
    + by rewrite (bool_decide_eq_false_2 _ Ht).
Qed.

Lemma renameColumnReference_clears (tableName oldName newName : string) (c : Column.t) :
  oldName ≠ newName →
  ¬ references tableName oldName (renameColumnReference tableName oldName newName c).
Proof.
  intros Hne.
  destruct (renameColumnReference_spec tableName oldName newName c) as [Hyes Hno].
  destruct (decide (references tableName oldName c)) as [Hr|Hr].
  - rewrite (Hyes Hr). intros (_ & _ & Hc). simpl in Hc. congruence.
  - by rewrite (Hno Hr).
Qed.

(** X11.  The edit of a column in the table found under [tableId].  When
    another column of the table has the new name the edit is rejected.
    Otherwise, with the column found under [columnId], the edit commits a
    schema with as many tables, made from the deep copy of the schema.
    Unless the old column is a primary key whose name changes, only that
    column changes: it is replaced by the edited column.  When a primary key
    is renamed, every foreign key to the old name in this table is
    redirected to the new name, in every table, so that no foreign key to
    the old name is left.  Tables keep their identifier and name, and their
    position as the copy has it: a coordinate that is finite or absent is
    kept, another one becomes [null]. *)
Theorem updateColumn_propagates st schema (tableId columnId : option string)
    (updatedColumn : Column.t) (now : Z) (k : nat) (owner : Table.t num) :
  activeSchema st = Some schema →
  list_find (λ t, Table.id t = tableId) (Schema.tables schema) = Some (k, owner) →
  (Exists (λ c, Column.name c = Column.name updatedColumn ∧ Column.id c ≠ columnId)
          (Table.columns owner) →
   rejected st (handleUpdateColumnDetails tableId columnId updatedColumn now st))
  ∧ (¬ Exists (λ c, Column.name c = Column.name updatedColumn ∧ Column.id c ≠ columnId)
              (Table.columns owner) →
     ∀ (j : nat) (oldColumn : Column.t),
       list_find (λ c, Column.id c = columnId) (Table.columns owner) = Some (j, oldColumn) →
       ∃ schema',
         activeSchema (handleUpdateColumnDetails tableId columnId updatedColumn now st)
           = Some schema'
         ∧ length (Schema.tables schema') = length (Schema.tables schema)
         ∧ (¬ (Column.isPrimaryKey oldColumn
               ∧ Column.name oldColumn ≠ Column.name updatedColumn) →
            Schema.tables schema'
            = <[k := Table.with_columns (jsonTable owner)
                       (<[j := updatedColumn]> (Table.columns owner))]>
                (jsonTable <$> Schema.tables schema))
         ∧ (¬ (Column.isPrimaryKey oldColumn
               ∧ Column.name oldColumn ≠ Column.name updatedColumn) →
            Forall (λ t, jsonTable t = t) (Schema.tables schema) →
            Schema.tables schema'
            = <[k := Table.with_columns owner
                       (<[j := updatedColumn]> (Table.columns owner))]>
                (Schema.tables schema))
         ∧ (Column.isPrimaryKey oldColumn →
            Column.name oldColumn ≠ Column.name updatedColumn →
            (∀ t' c, t' ∈ Schema.tables schema' → c ∈ Table.columns t' →
                     ¬ references (Table.name owner) (Column.name oldColumn) c)
            ∧ Schema.tables schema'
              = (λ table, Table.with_columns table
                   (renameColumnReference (Table.name owner) (Column.name oldColumn)
                      (Column.name updatedColumn) <$> Table.columns table))
                <$> <[k := Table.with_columns (jsonTable owner)
                             (<[j := updatedColumn]> (Table.columns owner))]>
                      (jsonTable <$> Schema.tables schema))
         ∧ ∀ i t', Schema.tables schema' !! i = Some t' →
             ∃ t, Schema.tables schema !! i = Some t
                  ∧ Table.id t' = Table.id t ∧ Table.name t' = Table.name t
                  ∧ Table.x t' = Table.x t ≫= jsonNumber
                  ∧ Table.y t' = Table.y t ≫= jsonNumber
                  ∧ length (Table.columns t') = length (Table.columns t)).
Proof.
  intros Hs Hfind.
  assert (list_find (λ t, Table.id t = tableId) (Schema.tables (jsonSchema schema))
          = Some (k, jsonTable owner)) as Hfind'.
  { cbn [jsonSchema Schema.tables].
    rewrite (list_find_json (λ t, Table.id t = tableId)) by done. by rewrite Hfind. }
  split.
  - intros Hdup. unfold handleUpdateColumnDetails. rewrite Hs. cbv zeta.
    rewrite Hfind'. cbn [jsonTable Table.columns Table.name].
    rewrite bool_decide_eq_true_2 by done. apply rejected_setError.
  - intros Hfree j oldColumn Hcol. unfold handleUpdateColumnDetails.
    rewrite Hs. cbv zeta. rewrite Hfind'. cbn [jsonTable Table.columns Table.name].
    rewrite bool_decide_eq_false_2, Hcol by done.
    rewrite (activeSchema_commit st schema) by done.
    pose proof Hfind as (Hk & _ & _)%list_find_Some.
    fold (jsonTable owner).
    set (replaced := <[k := Table.with_columns (jsonTable owner)
                               (<[j := updatedColumn]> (Table.columns owner))]>
                       (jsonTable <$> Schema.tables schema)).
    assert (∀ i t', replaced !! i = Some t' →
              ∃ t, Schema.tables schema !! i = Some t
                   ∧ Table.id t' = Table.id t ∧ Table.name t' = Table.name t
                   ∧ Table.x t' = Table.x t ≫= jsonNumber
                   ∧ Table.y t' = Table.y t ≫= jsonNumber
                   ∧ length (Table.columns t') = length (Table.columns t)) as Hframe.
    { intros i t' Hi. unfold replaced in Hi.
      destruct (decide (i = k)) as [->|Hik].
      - rewrite list_lookup_insert_eq in Hi
          by (rewrite length_fmap; by eapply lookup_lt_Some).
        injection Hi as <-. exists owner. simpl. by rewrite length_insert.
      - rewrite list_lookup_insert_ne, list_lookup_fmap in Hi by done.
        destruct (Schema.tables schema !! i) as [t|]; [|done].
        injection Hi as <-. by exists t. }
    eexists. split; [done|]. cbn [Schema.tables jsonSchema]. fold replaced. split_and!.
    + destruct (Column.isPrimaryKey oldColumn && _);
        unfold replaced; by rewrite ?length_fmap, length_insert, length_fmap.
    + intros Hnot. destruct (Column.isPrimaryKey oldColumn) eqn:Hpk; [|done]. simpl.
      rewrite bool_decide_eq_true_2; [done|].
      destruct (decide (Column.name oldColumn = Column.name updatedColumn)); [done|].
      by destruct Hnot.
    + intros Hnot Hstable.
      assert (replaced = <[k := Table.with_columns owner
                                  (<[j := updatedColumn]> (Table.columns owner))]>
                           (Schema.tables schema)) as ->.
      { unfold replaced. rewrite (jsonTables_stable _ Hstable).
        rewrite Forall_forall in Hstable. rewrite (Hstable owner); [done|].
        by eapply list_elem_of_lookup_2. }
      destruct (Column.isPrimaryKey oldColumn) eqn:Hpk; [|done]. simpl.
      rewrite bool_decide_eq_true_2; [done|].
      destruct (decide (Column.name oldColumn = Column.name updatedColumn)); [done|].
      by destruct Hnot.
    + intros Hpk Hne. destruct (Column.isPrimaryKey oldColumn); [|done]. simpl.
      rewrite bool_decide_eq_false_2 by done. simpl. split_and!.
      * intros t' c (t & -> & _)%list_elem_of_fmap Hc. simpl in Hc.
        apply list_elem_of_fmap in Hc as (c0 & -> & _).
        by apply renameColumnReference_clears.
      * done.
    + intros i t' Hi.
      destruct (Column.isPrimaryKey oldColumn && _); [|by apply Hframe].
      rewrite list_lookup_fmap in Hi.
      destruct (replaced !! i) as [t1|] eqn:Ht1; [|done].
      injection Hi as <-. destruct (Hframe i t1 Ht1) as (t & Ht & ?).
      exists t. simpl. by rewrite length_fmap.
Qed.

End ColumnEdits.

(** ** Minted identifiers *)

Section Numerals.

Lemma pretty_N_char_no_dash (x : N) : pretty_N_char x ≠ "-"%char.
Proof. unfold pretty_N_char. by repeat case_match. Qed.

Lemma pretty_N_go_no_dash (x : N) (s : string) :
  occurs "-" s = false → occurs "-" (pretty_N_go x s) = false.
Proof.
  revert s. induction (N.lt_wf_0 x) as [x _ IH]. intros s Hs.
  destruct (decide (0 < x)%N) as [Hx|Hx].
  - rewrite pretty_N_go_step by done. apply IH.
    + by apply N.div_lt.
    + simpl. rewrite Hs, orb_false_r. apply bool_decide_eq_false.
      intros Heq. by apply (pretty_N_char_no_dash (x `mod` 10)).
  - assert (x = 0%N) as -> by lia. by rewrite pretty_N_go_0.
Qed.

(** A decimal numeral holds no dash. *)
Lemma pretty_nat_no_dash (n : nat) : occurs "-" (pretty n) = false.
Proof.
  unfold pretty, pretty_nat, pretty, pretty_N. case_decide; [done|].
  by apply pretty_N_go_no_dash.
Qed.

(** A string is cut in one way only at its last dash. *)
Lemma last_dash_unique (a b s s' : string) :
  occurs "-" s = false → occurs "-" s' = false →
  a +:+ String "-" s = b +:+ String "-" s' → a = b ∧ s = s'.
Proof.
  intros Hs Hs'. revert b. induction a as [|x a IH]; intros [|y b] Heq.
  - by injection Heq as ->.
  - injection Heq as <- ->.
    assert (occurs "-" (b +:+ String "-" s') = true) as Hocc.
    { clear. induction b as [|z b IH]; simpl; [done|].
      change (bool_decide ("-"%char = z) || occurs "-" (b +:+ String "-" s') = true).
      by rewrite IH, orb_true_r. }
    congruence.
  - injection Heq as -> <-.
    assert (occurs "-" (a +:+ String "-" s) = true) as Hocc.
    { clear. induction a as [|z a IH]; simpl; [done|].
      change (bool_decide ("-"%char = z) || occurs "-" (a +:+ String "-" s) = true).
      by rewrite IH, orb_true_r. }
    congruence.
  - injection Heq as -> Heq. destruct (IH b Heq) as [-> ->]. done.
Qed.

(** An identifier carries one stamp at most. *)
Lemma stamped_inj (i : option string) (n n' : nat) : stamped i n → stamped i n' → n = n'.
Proof.
  intros [p ->] [p' [= Heq]].
  apply last_dash_unique in Heq as [_ Heq]; [|apply pretty_nat_no_dash..].
  by apply (inj pretty).
Qed.

End Numerals.

Section MintOrder.
Context {A B : Type}.

Lemma mapM_Mint_length (f : A → Mint B) (l : list A) (c : nat) :
  length (mapM f l c).1 = length l.
Proof.
  revert c. induction l as [|a l IH]; intros c; [done|].
  rewrite mapM_Mint_cons. destruct (f a c) as [b c1].
  specialize (IH c1). destruct (mapM f l c1) as [bs c2]. simpl in *. by rewrite IH.
Qed.

(** When every call mints exactly one identifier the counter advances by the
    length of the list. *)
Lemma mapM_Mint_counter (f : A → Mint B) (l : list A) (c : nat) :
  (∀ a c', (f a c').2 = S c') → (mapM f l c).2 = c + length l.
Proof.
  intros Hf. revert c. induction l as [|a l IH]; intros c; [simpl; lia|].
  rewrite mapM_Mint_cons. pose proof (Hf a c) as Ha. destruct (f a c) as [b c1].
  specialize (IH c1). destruct (mapM f l c1) as [bs c2]. simpl in *. lia.
Qed.

(** When every call stamps its result with the value of the counter it
    starts from and advances the counter, the results carry pairwise
    distinct identifiers. *)
Lemma mapM_Mint_stamped (f : A → Mint B) (key : B → option string) (l : list A)
    (c : nat) :
  (∀ a c', stamped (key (f a c').1) c' ∧ c' < (f a c').2) →
  (c ≤ (mapM f l c).2)%nat
  ∧ Forall (λ b, ∃ n, (c ≤ n)%nat ∧ n < (mapM f l c).2 ∧ stamped (key b) n)
           (mapM f l c).1
  ∧ NoDup (key <$> (mapM f l c).1).
Proof.
  intros Hf. revert c. induction l as [|a l IH]; intros c.
  - simpl. split_and!; [done|constructor|constructor].
  - rewrite mapM_Mint_cons. destruct (Hf a c) as [Hstamp Hlt].
    destruct (f a c) as [b c1]. destruct (IH c1) as (Hle & Hall & Hnd).
    destruct (mapM f l c1) as [bs c2]. simpl in *. split_and!.
    + lia.
    + constructor; [exists c; split_and!; [done|lia|done]|].
      eapply Forall_impl; [exact Hall|]. intros b' (n & ? & ? & ?).
      exists n. split_and!; [lia|done..].
    + constructor; [|done].
      intros (b' & Hkey & Hb')%list_elem_of_fmap.
      rewrite Forall_forall in Hall. destruct (Hall b' Hb') as (n & Hn & _ & Hstamp').
      rewrite <- Hkey in Hstamp'.
      pose proof (stamped_inj _ _ _ Hstamp Hstamp'). lia.
Qed.

End MintOrder.

Section MintCounters.
Context {A B : Type}.

Lemma mapM_Mint_counter_sum (f : A → Mint B) (w : A → nat) (l : list A) (c : nat) :
  (∀ a c', (f a c').2 = c' + w a) → (mapM f l c).2 = c + sum_list (w <$> l).
Proof.
  intros Hf. revert c. induction l as [|a l IH]; intros c; [simpl; lia|].
  rewrite mapM_Mint_cons. pose proof (Hf a c) as Ha. destruct (f a c) as [b c1].
  specialize (IH c1). destruct (mapM f l c1) as [bs c2]. csimpl in *. lia.
Qed.

Lemma mapM_Mint_monotone (f : A → Mint B) (l : list A) (c : nat) :
  (∀ a c', (c' ≤ (f a c').2)%nat) → (c ≤ (mapM f l c).2)%nat.
Proof.
  intros Hf. revert c. induction l as [|a l IH]; intros c; [done|].
  rewrite mapM_Mint_cons. pose proof (Hf a c) as Ha. destruct (f a c) as [b c1].
  specialize (IH c1). destruct (mapM f l c1) as [bs c2]. simpl in *. lia.
Qed.

End MintCounters.

Section InitializeFacts.
Context {num : Type}.
Implicit Types (s : Schema.t num) (t : Table.t num).

Lemma truthy_mintTableId (name : string) (n : nat) :
  truthy (Some (mintTableId name n).1).
Proof. done. Qed.

Lemma truthy_mintColumnId (tableId name : string) (n : nat) :
  truthy (Some (mintColumnId tableId name n).1).
Proof. done. Qed.

(** The callback of [schema.tables.map] in [initializeSchemaIds]. *)
Lemma initializeTable_spec t (c : nat) :
  let r := (tableId ← mintTableId (Table.name t);
            columns ← mapM (λ column : Column.t,
              cid ← mintColumnId tableId (Column.name column);
              mret (Column.with_id column (Some cid))) (Table.columns t);
            mret (Table.mk (Some tableId) (Table.name t) columns
                           (Table.x t) (Table.y t))) c in
  r.2 = c + S (length (Table.columns t))
  ∧ Table.id r.1 = Some (mintTableId (Table.name t) c).1
  ∧ Table.name r.1 = Table.name t ∧ Table.x r.1 = Table.x t ∧ Table.y r.1 = Table.y t
  ∧ length (Table.columns r.1) = length (Table.columns t)
  ∧ ∀ j col, Table.columns t !! j = Some col →
      ∃ col' m, Table.columns r.1 !! j = Some col'
        ∧ (c < m)%nat
        ∧ col' = Column.with_id col
                   (Some (mintColumnId (mintTableId (Table.name t) c).1
                                       (Column.name col) m).1).
Proof.
  intros r. subst r. unfold mbind, Mint_bind, mret, Mint_ret.
  set (tableId := (mintTableId (Table.name t) c).1).
  change (mintTableId (Table.name t) c) with (tableId, S c).
  cbn [fst snd]. cbv beta iota.
  match goal with |- context [mapM ?g0 (Table.columns t) _] => set (g := g0) end.
  pose proof (mapM_Mint_counter g (Table.columns t) (S c) (λ _ _, eq_refl)) as Hcount.
  pose proof (mapM_Mint_length g (Table.columns t) (S c)) as Hlen.
  assert (∀ j col, Table.columns t !! j = Some col →
            ∃ col' m, (mapM (M:=Mint) g (Table.columns t) (S c)).1 !! j = Some col'
              ∧ (c < m)%nat
              ∧ col' = Column.with_id col (Some (mintColumnId tableId (Column.name col) m).1))
    as Hcols.
  { generalize (S c) (Nat.lt_succ_diag_r c). generalize (Table.columns t).
    induction l as [|a l IH]; intros c0 Hc0 j col Hj; [done|].
    rewrite mapM_Mint_cons. unfold g at 1. simpl.
    specialize (IH (S c0) ltac:(lia)).
    destruct (mapM (M:=Mint) g l (S c0)) as [bs c2]. simpl in *.
    destruct j as [|j]; simpl in *.
    - injection Hj as ->. exists (g col c0).1, c0. by split_and!.
    - by apply IH. }
  destruct (mapM (M:=Mint) g (Table.columns t) (S c)) as [cols c']. simpl in *.
  split_and!; try done. lia.
Qed.

(** X12.  [initializeSchemaIds] keeps the tables and the columns in place,
    with their names, positions and all other fields, and gives every table
    and every column a non-empty identifier minted from the counter, whatever
    identifier it had; the counter advances by the number of tables plus the
    number of columns. *)
Theorem initialize_assigns_ids s (c : nat) :
  length (Schema.tables (initializeSchemaIds s c).1) = length (Schema.tables s)
  ∧ (initializeSchemaIds s c).2
    = c + sum_list ((λ t, S (length (Table.columns t))) <$> Schema.tables s)
  ∧ ∀ i t, Schema.tables s !! i = Some t →
      ∃ t' n, Schema.tables (initializeSchemaIds s c).1 !! i = Some t'
        ∧ Table.id t' = Some (mintTableId (Table.name t) n).1
        ∧ truthy (Table.id t')
        ∧ Table.name t' = Table.name t
        ∧ Table.x t' = Table.x t ∧ Table.y t' = Table.y t
        ∧ length (Table.columns t') = length (Table.columns t)
        ∧ ∀ j col, Table.columns t !! j = Some col →
            ∃ col' m, Table.columns t' !! j = Some col'
              ∧ col' = Column.with_id col
                         (Some (mintColumnId (mintTableId (Table.name t) n).1
                                             (Column.name col) m).1)
              ∧ truthy (Column.id col').
Proof.
  unfold initializeSchemaIds.
  match goal with |- context [mapM ?f0 (Schema.tables s)] => set (f := f0) end.
  unfold mbind, Mint_bind, mret, Mint_ret.
  pose proof (mapM_Mint_length f (Schema.tables s) c) as Hlen.
  pose proof (mapM_Mint_counter_sum f (λ t, S (length (Table.columns t)))
                (Schema.tables s) c) as Hcount.
  assert (∀ i t, Schema.tables s !! i = Some t →
            ∃ ci, (mapM (M:=Mint) f (Schema.tables s) c).1 !! i = Some (f t ci).1) as Hlook
    by (intros i t Hi; by apply mapM_Mint_lookup).
  destruct (mapM (M:=Mint) f (Schema.tables s) c) as [ts c']. simpl in *.
  split; [done|]. split.
  { apply Hcount. intros t c0. exact (proj1 (initializeTable_spec t c0)). }
  intros i t Hi. destruct (Hlook i t Hi) as [ci Hci].
  exists (f t ci).1, ci. split; [done|]. clear Hci Hlook Hcount. subst f. cbv beta.
  destruct (initializeTable_spec t ci) as (_ & Hid & Hname & Hx & Hy & Hl & Hcols).
  split; [done|].
  split; [by rewrite Hid|]. split_and!; try done.
  intros j col Hj. destruct (Hcols j col Hj) as (col' & m & Hcol' & _ & Heq).
  exists col', m. split_and!; [done..|]. by rewrite Heq.
Qed.

Lemma stamped_mintTableId (name : string) (n : nat) :
  stamped (Some (mintTableId name n).1) n.
Proof.
  exists ("table-" +:+ replaceSpaces false name).
  unfold mintTableId. cbn [fst]. f_equal.
Qed.

(** X13.  The table identifiers that [initializeSchemaIds] mints are
    pairwise distinct, so the graph of the result is derived without a
    failure. *)
Theorem initialize_ids_distinct s (c : nat) :
  NoDup (Table.id <$> Schema.tables (initializeSchemaIds s c).1)
  ∧ is_Some (derive (Some (initializeSchemaIds s c).1)).
Proof.
  assert (NoDup (Table.id <$> Schema.tables (initializeSchemaIds s c).1)) as Hnd.
  { unfold initializeSchemaIds.
    match goal with |- context [mapM ?f0 (Schema.tables s)] => set (f := f0) end.
    unfold mbind, Mint_bind, mret, Mint_ret.
    destruct (mapM_Mint_stamped f Table.id (Schema.tables s) c) as (_ & _ & Hnd).
    - intros t c0.
      subst f. cbv beta.
      destruct (initializeTable_spec t c0) as (Hc & Hid & _).
      rewrite Hid, Hc. split; [apply stamped_mintTableId|lia].
    - by destruct (mapM (M:=Mint) f (Schema.tables s) c). }
  split; [done|].
  destruct (derive_Some _ Hnd) as (jl & _ & ->). done.
Qed.

End InitializeFacts.

(** ** Reconciliation beyond matched tables *)

Section MintRelations.
Context {A B : Type}.

Lemma mapM_Mint_Forall2 (R : A → B → Prop) (f : A → Mint B) (l : list A) (c : nat) :
  (∀ a c', R a (f a c').1) → Forall2 R l (mapM f l c).1.
Proof.
  intros Hf. revert c. induction l as [|a l IH]; intros c; [by constructor|].
  rewrite mapM_Mint_cons. pose proof (Hf a c) as Ha. destruct (f a c) as [b c1].
  specialize (IH c1). destruct (mapM f l c1) as [bs c2]. by constructor.
Qed.

Lemma mapM_Mint_lookup_ge (f : A → Mint B) (l : list A) (c i : nat) (a : A) :
  (∀ a' c', (c' ≤ (f a' c').2)%nat) →
  l !! i = Some a → ∃ ci, (c ≤ ci)%nat ∧ (mapM f l c).1 !! i = Some (f a ci).1.
Proof.
  intros Hf. revert c i. induction l as [|a0 l IH]; intros c i Hi; [done|].
  rewrite mapM_Mint_cons. pose proof (Hf a0 c) as Hle.
  destruct (f a0 c) as [b c1] eqn:Eb.
  destruct (mapM f l c1) as [bs c2] eqn:Ebs.
  destruct i as [|i]; simpl in *.
  - injection Hi as ->. exists c. by rewrite Eb.
  - destruct (IH c1 i Hi) as (ci & Hci & Hl). exists ci.
    rewrite Ebs in Hl. split; [lia|done].
Qed.

End MintRelations.

Section ReconcileFacts.
Context {num : Type}.
Implicit Types (s : Schema.t num) (t : Table.t num).

Lemma orMint_cases (a : option string) (fresh : Mint string) (c : nat) :
  (truthy a ∧ a = Some (orMint a fresh c).1 ∧ (orMint a fresh c).2 = c)
  ∨ (¬ truthy a ∧ orMint a fresh c = fresh c).
Proof.
  destruct (truthy a) eqn:Ht.
  - left. destruct (orMint_truthy a fresh c) as (i & Ha & Hb); [by rewrite Ht|].
    by rewrite Hb.
  - right. split; [by intros []|]. apply orMint_falsy. rewrite Ht. by intros [].
Qed.

Lemma reconcileColumn_spec (m : gmap string Column.t) (tableId : string)
    (col : Column.t) (c : nat) :
  (c ≤ (reconcileColumn m tableId col c).2)%nat
  ∧ ∃ cid, truthy (Some cid)
      ∧ (reconcileColumn m tableId col c).1 = Column.with_id col (Some cid).
Proof.
  unfold reconcileColumn. set (a := m !! Column.name col ≫= Column.id).
  unfold mbind, Mint_bind, mret, Mint_ret.
  destruct (orMint_cases a (mintColumnId tableId (Column.name col)) c)
    as [(Ht & Ha & Hc)|(Hf & ->)].
  - destruct (orMint _ _ c) as [cid c1]. cbn [fst snd] in *. subst c1.
    split; [done|]. exists cid. split; [by rewrite <- Ha|done].
  - split; [simpl; lia|]. exists (mintColumnId tableId (Column.name col) c).1.
    by split.
Qed.

Lemma reconcileColumn_matched (m : gmap string Column.t) (tableId : string)
    (col oldC : Column.t) (c : nat) :
  m !! Column.name col = Some oldC → truthy (Column.id oldC) →
  reconcileColumn m tableId col c = (Column.with_id col (Column.id oldC), c).
Proof.
  intros Hm Ht. unfold reconcileColumn, mbind, Mint_bind, mret, Mint_ret.
  rewrite Hm. simpl.
  destruct (orMint_truthy (Column.id oldC) (mintColumnId tableId (Column.name col)) c Ht)
    as (i & -> & ->). done.
Qed.

Lemma reconcileColumn_unmatched (m : gmap string Column.t) (tableId : string)
    (col : Column.t) (c : nat) :
  m !! Column.name col = None →
  reconcileColumn m tableId col c
  = (Column.with_id col (Some (mintColumnId tableId (Column.name col) c).1), S c).
Proof.
  intros Hm. unfold reconcileColumn, mbind, Mint_bind, mret, Mint_ret.
  by rewrite Hm.
Qed.

Lemma reconcileTable_spec (m : gmap string (Table.t num)) t (c : nat) :
  (c ≤ (reconcileTable m t c).2)%nat
  ∧ Table.name (reconcileTable m t c).1 = Table.name t
  ∧ truthy (Table.id (reconcileTable m t c).1)
  ∧ Forall2 (λ col col', ∃ cid, truthy (Some cid) ∧ col' = Column.with_id col (Some cid))
      (Table.columns t) (Table.columns (reconcileTable m t c).1).
Proof.
  unfold reconcileTable. set (oldTable := m !! Table.name t).
  set (a := oldTable ≫= Table.id).
  set (ox := oldTable ≫= Table.x). set (oy := oldTable ≫= Table.y).
  unfold mbind, Mint_bind, mret, Mint_ret.
  assert (∃ tableId c1, orMint a (mintTableId (Table.name t)) c
                        = (tableId, c1) ∧ (c ≤ c1)%nat ∧ truthy (Some tableId))
    as (tableId & c1 & -> & Hc1 & Htid).
  { destruct (orMint_cases a (mintTableId (Table.name t)) c)
      as [(Ht & Ha & Hc)|(Hf & ->)].
    - destruct (orMint _ _ c) as [tableId c1]. cbn [fst snd] in *. exists tableId, c1.
      split; [done|]. split; [lia|]. by rewrite <- Ha.
    - exists (mintTableId (Table.name t) c).1, (S c). split; [done|]. split; [lia|done]. }
  set (cm := Map_of Column.name (from_option Table.columns [] oldTable)).
  pose proof (mapM_Mint_monotone (reconcileColumn cm tableId) (Table.columns t) c1
                (λ col c', proj1 (reconcileColumn_spec cm tableId col c'))) as Hmono.
  pose proof (mapM_Mint_Forall2
                (λ col col', ∃ cid, truthy (Some cid) ∧ col' = Column.with_id col (Some cid))
                (reconcileColumn cm tableId) (Table.columns t) c1
                (λ col c', proj2 (reconcileColumn_spec cm tableId col c'))) as Hcols.
  destruct (mapM (M:=Mint) _ (Table.columns t) c1) as [cols c2]. simpl in *.
  split_and!; [lia|done..].
Qed.

(** X14.  [reconcileSchemaIds] returns the tables of the new schema in their
    order, each with its name and with its columns in their order, unchanged
    but for the identifier; every table and every column of the result has a
    non-empty identifier, whatever the two schemas hold, so the result never
    needs identifiers, and the counter does not go back. *)
Theorem reconcile_fills_ids (newSchema oldSchema : Schema.t num) (c : nat) :
  Forall2 (λ t t', Table.name t' = Table.name t
                   ∧ truthy (Table.id t')
                   ∧ Forall2 (λ col col', ∃ cid, truthy (Some cid)
                                            ∧ col' = Column.with_id col (Some cid))
                       (Table.columns t) (Table.columns t'))
    (Schema.tables newSchema)
    (Schema.tables (reconcileSchemaIds newSchema oldSchema c).1)
  ∧ needsIds (reconcileSchemaIds newSchema oldSchema c).1 = false
  ∧ (c ≤ (reconcileSchemaIds newSchema oldSchema c).2)%nat.
Proof.
  unfold reconcileSchemaIds, mbind, Mint_bind, mret, Mint_ret.
  set (m := Map_of Table.name (Schema.tables oldSchema)).
  pose proof (mapM_Mint_monotone (reconcileTable m) (Schema.tables newSchema) c
                (λ t c', proj1 (reconcileTable_spec m t c'))) as Hmono.
  pose proof (mapM_Mint_Forall2
                (λ t t', Table.name t' = Table.name t
                   ∧ truthy (Table.id t')
                   ∧ Forall2 (λ col col', ∃ cid, truthy (Some cid)
                                            ∧ col' = Column.with_id col (Some cid))
                       (Table.columns t) (Table.columns t'))
                (reconcileTable m) (Schema.tables newSchema) c
                (λ t c', proj2 (reconcileTable_spec m t c'))) as Hall.
  destruct (mapM (M:=Mint) _ (Schema.tables newSchema) c) as [ts c']. simpl in *.
  split; [done|]. split; [|done].
  apply bool_decide_eq_false. rewrite Exists_exists.
  intros (t' & Ht' & Hbad).
  apply list_elem_of_lookup in Ht' as [i Hi].
  destruct (Forall2_lookup_r _ _ _ _ _ Hall Hi) as (t & _ & _ & Hid & Hcols).
  destruct Hbad as [Hbad|Hbad]; [done|].
  apply Exists_exists in Hbad as (col' & Hcol' & Hbad).
  apply list_elem_of_lookup in Hcol' as [j Hj].
  destruct (Forall2_lookup_r _ _ _ _ _ Hcols Hj) as (col & _ & cid & Hcid & ->).
  by destruct col.
Qed.

(** X15.  A table of the new schema whose name no table of the old schema
    has gets an identifier minted from its name, keeps its own position, and
    each of its columns gets an identifier minted, after that of the table,
    from the identifier of the table and the name of the column. *)
Theorem reconcile_unmatched_table (newSchema oldSchema : Schema.t num) (c : nat)
    (i : nat) newT :
  Schema.tables newSchema !! i = Some newT →
  (∀ oldT, oldT ∈ Schema.tables oldSchema → Table.name oldT ≠ Table.name newT) →
  ∃ t' n tableId,
    Schema.tables (reconcileSchemaIds newSchema oldSchema c).1 !! i = Some t'
    ∧ (c ≤ n)%nat
    ∧ tableId = (mintTableId (Table.name newT) n).1
    ∧ Table.id t' = Some tableId
    ∧ Table.x t' = Table.x newT ∧ Table.y t' = Table.y newT
    ∧ ∀ j col, Table.columns newT !! j = Some col →
        ∃ k, n < k
          ∧ Table.columns t' !! j
            = Some (Column.with_id col
                      (Some (mintColumnId tableId (Column.name col) k).1)).
Proof.
  intros Hi Hnone.
  unfold reconcileSchemaIds, mbind, Mint_bind, mret, Mint_ret.
  set (m := Map_of Table.name (Schema.tables oldSchema)).
  destruct (mapM_Mint_lookup_ge (reconcileTable m) (Schema.tables newSchema) c i newT
              (λ t c', proj1 (reconcileTable_spec m t c')) Hi) as (n & Hn & Hlook).
  destruct (mapM (M:=Mint) _ (Schema.tables newSchema) c) as [ts c']. simpl in *.
  assert (m !! Table.name newT = None) as Hm.
  { destruct (m !! Table.name newT) as [oldT|] eqn:E; [|done].
    apply Map_of_lookup_Some in E as [Hin Hname]. by destruct (Hnone oldT Hin). }
  exists (reconcileTable m newT n).1, n, (mintTableId (Table.name newT) n).1.
  split; [done|]. split; [done|]. split; [done|].
  unfold reconcileTable, mbind, Mint_bind, mret, Mint_ret. rewrite Hm.
  cbn [option_bind orMint from_option Map_of foldl].
  set (tableId := (mintTableId (Table.name newT) n).1).
  change (mintTableId (Table.name newT) n) with (tableId, S n).
  cbn [fst snd]. cbv beta iota.
  assert (∀ j col, Table.columns newT !! j = Some col →
            ∃ k, n < k
              ∧ (mapM (M:=Mint) (reconcileColumn ∅ tableId) (Table.columns newT) (S n)).1
                !! j = Some (Column.with_id col
                               (Some (mintColumnId tableId (Column.name col) k).1)))
    as Hcols.
  { intros j col Hj.
    destruct (mapM_Mint_lookup_ge (reconcileColumn ∅ tableId) (Table.columns newT)
                (S n) j col (λ a c', proj1 (reconcileColumn_spec ∅ tableId a c')) Hj)
      as (k & Hk & Hlook').
    exists k. split; [lia|]. rewrite Hlook'.
    by rewrite reconcileColumn_unmatched by apply lookup_empty. }
  destruct (mapM (M:=Mint) _ (Table.columns newT) (S n)) as [cols c2].
  cbn [fst snd Table.id Table.x Table.y Table.columns] in *.
  split_and!; try done; by destruct (Table.x newT), (Table.y newT).
Qed.

(** X16.  A column of the new schema whose table is matched by name with a
    table of the old schema, and whose name is that of a column of that old
    table (the last one of that name) with a non-empty identifier, takes the
    identifier of the old column and is otherwise as the new schema has
    it. *)
Theorem reconcile_matched_column (newSchema oldSchema : Schema.t num) (c : nat)
    (i j : nat) newT oldT (col oldC : Column.t) :
  Schema.tables newSchema !! i = Some newT →
  last (filter (λ t, Table.name t = Table.name newT) (Schema.tables oldSchema))
    = Some oldT →
  Table.columns newT !! j = Some col →
  last (filter (λ c', Column.name c' = Column.name col) (Table.columns oldT))
    = Some oldC →
  truthy (Column.id oldC) →
  ∃ t', Schema.tables (reconcileSchemaIds newSchema oldSchema c).1 !! i = Some t'
    ∧ Table.columns t' !! j = Some (Column.with_id col (Column.id oldC)).
Proof.
  intros Hi Hlast Hj Hlastc Htruthy.
  rewrite <- Map_of_lookup in Hlast. rewrite <- Map_of_lookup in Hlastc.
  unfold reconcileSchemaIds, mbind, Mint_bind, mret, Mint_ret.
  set (m := Map_of Table.name (Schema.tables oldSchema)) in *.
  destruct (mapM_Mint_lookup (reconcileTable m) (Schema.tables newSchema) c i newT Hi)
    as (n & Hlook).
  destruct (mapM (M:=Mint) _ (Schema.tables newSchema) c) as [ts c']. simpl in *.
  exists (reconcileTable m newT n).1. split; [done|].
  unfold reconcileTable, mbind, Mint_bind, mret, Mint_ret. rewrite Hlast.
  cbn [option_bind from_option].
  destruct (orMint (Table.id oldT) (mintTableId (Table.name newT)) n) as [tableId c1].
  destruct (mapM_Mint_lookup
              (reconcileColumn (Map_of Column.name (Table.columns oldT)) tableId)
              (Table.columns newT) c1 j col Hj) as (k & Hk).
  destruct (mapM (M:=Mint) _ (Table.columns newT) c1) as [cols c2]. simpl in *.
  by rewrite Hk, (reconcileColumn_matched _ _ _ oldC).
Qed.

End ReconcileFacts.

(** ** Import of a shared schema *)

Section ImportFacts.
Context {num : Type} (trim : string → string) (decode : string → option (Schema.t num)).
Implicit Types (st : App.t num) (ap : Project.t num) (s : Schema.t num).

Lemma initializeTable_truthy (t : Table.t num) (c : nat) :
  let r := (tableId ← mintTableId (Table.name t);
            columns ← mapM (λ column : Column.t,
              cid ← mintColumnId tableId (Column.name column);
              mret (Column.with_id column (Some cid))) (Table.columns t);
            mret (Table.mk (Some tableId) (Table.name t) columns
                           (Table.x t) (Table.y t))) c in
  truthy (Table.id r.1) ∧ Forall (λ col, truthy (Column.id col)) (Table.columns r.1).
Proof.
  intros r. pose proof (initializeTable_spec t c) as Hspec. cbv zeta in Hspec.
  fold r in Hspec. destruct Hspec as (_ & Hid & _ & _ & _ & Hl & Hcols).
  split; [by rewrite Hid|].
  apply Forall_lookup. intros j col' Hj.
  destruct (lookup_lt_is_Some_2 (Table.columns t) j) as [col Hcol].
  { rewrite <- Hl. by eapply lookup_lt_Some. }
  destruct (Hcols j col Hcol) as (col'' & m & Hj' & _ & ->).
  rewrite Hj in Hj'. by injection Hj' as ->.
Qed.

Lemma initialize_needsIds s (c : nat) : needsIds (initializeSchemaIds s c).1 = false.
Proof.
  unfold initializeSchemaIds.
  match goal with |- context [mapM ?f0 (Schema.tables s)] => set (f := f0) end.
  unfold mbind, Mint_bind, mret, Mint_ret.
  pose proof (mapM_Mint_Forall2
                (λ (_ t' : Table.t num),
                   truthy (Table.id t')
                   ∧ Forall (λ col, truthy (Column.id col)) (Table.columns t'))
                f (Schema.tables s) c initializeTable_truthy) as Hall.
  destruct (mapM (M:=Mint) f (Schema.tables s) c) as [ts c']. cbn [fst snd] in *.
  apply bool_decide_eq_false. rewrite Exists_exists. intros (t' & Ht' & Hbad).
  apply list_elem_of_lookup in Ht' as [i Hi].
  destruct (Forall2_lookup_r _ _ _ _ _ Hall Hi) as (t & _ & Hid & Hcols).
  destruct Hbad as [Hbad|Hbad]; [done|].
  apply Exists_exists in Hbad as (col' & Hcol' & Hbad).
  rewrite Forall_forall in Hcols. by apply Hbad, Hcols.
Qed.

Lemma commit_keeps_activeProjectId (r st : App.t num) now (s : option (Schema.t num)) :
  App.activeProjectId (commitSchemaChange r now s st) = App.activeProjectId st.
Proof. unfold commitSchemaChange. by destruct (activeProject r). Qed.

Lemma commit_keeps_error (r st : App.t num) now (s : option (Schema.t num)) :
  App.error (commitSchemaChange r now s st) = App.error st.
Proof. unfold commitSchemaChange. by destruct (activeProject r). Qed.

(** X17.  An import of a text that is not blank and decodes to a schema
    commits a schema in which every table and every column has a non-empty
    identifier: the decoded schema itself, with the counter untouched, when
    it has them all, the schema with all identifiers minted anew otherwise.
    The schema it replaces goes on the undo stack, the redo stack is
    emptied, the conversation is replaced by the one message of success, the
    DDL text is emptied and the error is cleared. *)
Theorem import_commits_schema (base64String : string) (nowCommit nowMessages nowReset : Z)
    st ap (parsed : Schema.t num) (c : nat) :
  activeProject st = Some ap →
  truthy (Some (trim base64String)) →
  decode base64String = Some parsed →
  ∃ ap' schema',
    activeProject (handleImportBase64 trim decode base64String
                     nowCommit nowMessages nowReset st c).1 = Some ap'
    ∧ Project.schema ap' = Some schema'
    ∧ needsIds schema' = false
    ∧ (schema', (handleImportBase64 trim decode base64String
                   nowCommit nowMessages nowReset st c).2)
      = (if needsIds parsed then initializeSchemaIds parsed c else (parsed, c))
    ∧ Project.undoStack ap' = Project.undoStack ap ++ [Project.schema ap]
    ∧ Project.redoStack ap' = []
    ∧ Project.messages ap' = [Message.mk ai "Schema imported from Base64 successfully!"]
    ∧ Project.ddl ap' = EmptyString
    ∧ App.error (handleImportBase64 trim decode base64String
                   nowCommit nowMessages nowReset st c).1 = None.
Proof.
  intros E Hblank Hdecode. unfold handleImportBase64.
  destruct (truthy (Some (trim base64String))); [|done]. cbn [negb]. rewrite Hdecode.
  unfold mbind, Mint_bind, mret, Mint_ret.
  assert (∃ schema' c', (if needsIds parsed then initializeSchemaIds parsed
                         else λ c0, (parsed, c0)) c = (schema', c')
            ∧ needsIds schema' = false
            ∧ (schema', c') = (if needsIds parsed then initializeSchemaIds parsed c
                               else (parsed, c)))
    as (schema' & c' & -> & Hids & Heq).
  { destruct (needsIds parsed) eqn:Hneeds.
    - pose proof (initialize_needsIds parsed c) as Hinit.
      destruct (initializeSchemaIds parsed c) as [schema' c']. by exists schema', c'.
    - by exists parsed, c. }
  cbn [fst snd].
  rewrite activeProject_update_other by (by rewrite commit_keeps_activeProjectId).
  rewrite (commit_active_after st (setError None st) ap ap nowCommit (Some schema') E)
    by done.
  eexists _, schema'. split; [done|]. split_and!; try done.
  cbn [updateActiveProject App.error]. by rewrite commit_keeps_error.
Qed.

(** X18.  An import of a text that is not blank and does not decode sets
    the error and empties the schema of the active project past the
    history: the schema that was there is pushed on no stack, and the
    conversation, the DDL text and both stacks stay as they were.  No
    identifier is minted. *)
Theorem import_failure_drops_schema (base64String : string)
    (nowCommit nowMessages nowReset : Z) st ap (c : nat) :
  activeProject st = Some ap →
  truthy (Some (trim base64String)) →
  decode base64String = None →
  activeProject (handleImportBase64 trim decode base64String
                   nowCommit nowMessages nowReset st c).1
  = Some (Project.mk (Project.id ap) (Project.name ap) None (Project.messages ap)
            (Project.ddl ap) (Project.undoStack ap) (Project.redoStack ap) nowReset)
  ∧ App.error (handleImportBase64 trim decode base64String
                 nowCommit nowMessages nowReset st c).1
    = Some "Failed to parse compressed Base64. Please ensure the string is valid."
  ∧ (handleImportBase64 trim decode base64String nowCommit nowMessages nowReset st c).2 = c.
Proof.
  intros E Hblank Hdecode. unfold handleImportBase64.
  destruct (truthy (Some (trim base64String))); [|done]. cbn [negb]. rewrite Hdecode.
  unfold mret, Mint_ret. cbn [fst snd].
  rewrite activeProject_update_other by done.
  rewrite !activeProject_setError, E. done.
Qed.

End ImportFacts.

(** ** Projects *)

Section ProjectFacts.
Context {num : Type}.
Implicit Types (st : App.t num) (p : Project.t num).

Lemma list_find_filter_snd {A} (P Q : A → Prop) `{∀ a, Decision (P a)}
    `{∀ a, Decision (Q a)} (l : list A) :
  (∀ a, P a → Q a) → snd <$> list_find P (filter Q l) = snd <$> list_find P l.
Proof.
  intros HPQ. induction l as [|a l IH]; [done|].
  destruct (decide (Q a)) as [HQ|HQ].
  - rewrite filter_cons_True by done. csimpl. case_decide; [done|].
    rewrite <- !option_fmap_compose. exact IH.
  - rewrite filter_cons_False by done. csimpl. case_decide; [by destruct HQ; auto|].
    rewrite <- !option_fmap_compose. exact IH.
Qed.

(** X19.  A confirmed [handleDeleteProject] removes the projects with the
    given identifier and no other.  When the active project is another one it
    stays the active project; when it is the deleted one, the first of the
    remaining projects becomes the active project, and none when no project
    remains. *)
Theorem deleteProject_next_active (projectId : string) st :
  (∀ p, p ∈ App.projects (handleDeleteProject projectId true st)
        ↔ p ∈ App.projects st ∧ Project.id p ≠ projectId)
  ∧ (App.activeProjectId st ≠ Some projectId →
     activeProject (handleDeleteProject projectId true st) = activeProject st)
  ∧ (App.activeProjectId st = Some projectId →
     activeProject (handleDeleteProject projectId true st)
     = head (App.projects (handleDeleteProject projectId true st))).
Proof.
  unfold handleDeleteProject. split_and!.
  - intros p. case_decide; simpl; rewrite list_elem_of_filter; tauto.
  - intros Hother. rewrite decide_False by done. unfold activeProject. simpl.
    apply (list_find_filter_snd _ (λ p, Project.id p ≠ projectId)).
    intros p Hp Heq. rewrite Heq in Hp. by destruct Hother.
  - intros Hsame. rewrite decide_True by done. unfold activeProject. simpl.
    destruct (filter _ (App.projects st)) as [|p0 rest]; [done|].
    csimpl. by rewrite decide_True.
Qed.

(** X20.  [handleCreateProject] appends one empty project, named after the
    number of projects, and keeps the others.  The new project is the active
    one afterwards, provided that no project already has the identifier that
    the clock gives it. *)
Theorem createProject_becomes_active (nowId nowModified : Z) st :
  (∀ p, p ∈ App.projects st → Project.id p ≠ "proj-" +:+ pretty nowId) →
  App.projects (handleCreateProject nowId nowModified st)
  = App.projects st
    ++ [freshProject nowId ("Untitled Schema " +:+ pretty (length (App.projects st) + 1))
          nowModified]
  ∧ activeProject (handleCreateProject nowId nowModified st)
    = Some (freshProject nowId
              ("Untitled Schema " +:+ pretty (length (App.projects st) + 1)) nowModified).
Proof.
  intros Hfresh. split; [done|].
  unfold activeProject, handleCreateProject. cbn [App.projects App.activeProjectId
    setActiveProjectId setProjects].
  rewrite list_find_app_r.
  - csimpl. by rewrite decide_True.
  - apply list_find_None, Forall_forall. intros p Hp [= Hid]. by apply (Hfresh p).
Qed.

(** X21.  After the start-up effect has read a stored list of projects that
    is not empty, the projects are the stored ones and there is an active
    project: when the stored active identifier is not empty and a project has
    it, the identifier is the stored one and the active project is the first
    project that has it; otherwise the identifier and the active project are
    those of the first project.  With nothing stored, the project
    [My First Schema] is created: it is the only project and the active
    one. *)
Theorem loadProjects_active (loadedProjects : list (Project.t num))
    (savedActiveId : option string) (nowId nowModified : Z) st :
  loadedProjects ≠ [] →
  App.projects (loadProjects (Parsed loadedProjects) savedActiveId nowId nowModified st)
  = loadedProjects
  ∧ (truthy savedActiveId →
     (∃ q, q ∈ loadedProjects ∧ Some (Project.id q) = savedActiveId) →
     App.activeProjectId
       (loadProjects (Parsed loadedProjects) savedActiveId nowId nowModified st)
     = savedActiveId
     ∧ ∃ k p,
         list_find (λ p, Some (Project.id p) = savedActiveId) loadedProjects = Some (k, p)
         ∧ activeProject
             (loadProjects (Parsed loadedProjects) savedActiveId nowId nowModified st)
           = Some p)
  ∧ (¬ (truthy savedActiveId
        ∧ ∃ q, q ∈ loadedProjects ∧ Some (Project.id q) = savedActiveId) →
     App.activeProjectId
       (loadProjects (Parsed loadedProjects) savedActiveId nowId nowModified st)
     = Project.id <$> head loadedProjects
     ∧ activeProject
         (loadProjects (Parsed loadedProjects) savedActiveId nowId nowModified st)
       = head loadedProjects)
  ∧ App.projects (loadProjects Missing savedActiveId nowId nowModified st)
    = [freshProject nowId "My First Schema" nowModified]
  ∧ App.activeProjectId (loadProjects Missing savedActiveId nowId nowModified st)
    = Some ("proj-" +:+ pretty nowId)
  ∧ activeProject (loadProjects Missing savedActiveId nowId nowModified st)
    = Some (freshProject nowId "My First Schema" nowModified).
Proof.
  intros Hne.
  assert (∀ st0 : App.t num, ∀ p0 rest,
            activeProject (setActiveProjectId (Some (Project.id p0))
                             (setProjects (p0 :: rest) st0)) = Some p0) as Hfirst.
  { intros st0 p0 rest. unfold activeProject. csimpl. by rewrite decide_True. }
  split_and!.
  - unfold loadProjects. destruct (_ && _); [done|]. by destruct loadedProjects.
  - intros Ht Hex. unfold loadProjects.
    rewrite (bool_decide_eq_true_2 _); [|by apply Exists_exists].
    destruct (truthy savedActiveId); [|done]. cbn [andb]. split; [done|].
    destruct Hex as (q & Hq & Hid).
    destruct (list_find_elem_of (λ p, Some (Project.id p) = savedActiveId)
                loadedProjects q Hq Hid) as [[k p] Hfind].
    exists k, p. split; [done|]. unfold activeProject. simpl. by rewrite Hfind.
  - intros Hnot. unfold loadProjects.
    destruct (truthy savedActiveId) eqn:Ht; cbn [andb].
    + rewrite (bool_decide_eq_false_2 _).
      * destruct loadedProjects as [|p0 rest]; [done|]. split; [done|]. apply Hfirst.
      * intros Hex%Exists_exists. apply Hnot. split; [done|exact Hex].
    + destruct loadedProjects as [|p0 rest]; [done|]. split; [done|]. apply Hfirst.
  - done.
  - done.
  - unfold loadProjects. apply Hfirst.
Qed.

End ProjectFacts.

(** ** The conversation as [ChatPanel] shows it *)

Section ChatFacts.

Lemma shown_message (m : Message.t) :
  match Message.sender m with
  | user => shown (Group.mk (Some (Message.text m)) [])
  | ai => shown (Group.mk None [Message.text m])
  end = [m].
Proof. by destruct m as [[] text]. Qed.

Lemma shown_answer (g : Group.t) (m : Message.t) :
  Message.sender m = ai →
  shown (Group.mk (Group.user g) (Group.ai g ++ [Message.text m])) = shown g ++ [m].
Proof.
  intros Hai. unfold shown. cbn [Group.user Group.ai].
  rewrite fmap_app, (assoc_L (++)). destruct m as [sender text]. simpl in *. by subst.
Qed.

Lemma groupStep_shown (acc : list Group.t * option nat) (m : Message.t) :
  current_is_last acc →
  current_is_last (groupStep acc m)
  ∧ (groupStep acc m).1 ≫= shown = (acc.1 ≫= shown) ++ [m].
Proof.
  intros Hlast. destruct acc as [result current]. unfold groupStep, current_is_last in *.
  pose proof (shown_message m) as Hm.
  destruct (Message.sender m) eqn:Hsender; cbn [fst snd] in *.
  - split.
    + intros i [= <-]. by eexists result, _.
    + by rewrite bind_app, bind_singleton, Hm.
  - destruct current as [i|]; cbn [fst snd].
    + destruct (Hlast i eq_refl) as (gs & g & -> & ->). split.
      * intros i [= <-]. exists gs. eexists. split; [|done].
        rewrite alter_app_r_alt by done. by rewrite Nat.sub_diag.
      * rewrite alter_app_r_alt by done. rewrite Nat.sub_diag.
        cbn [alter list_alter].
        rewrite !bind_app, !bind_singleton, shown_answer by done.
        by rewrite (assoc_L (++)).
    + split; [by intros i [=]|].
      by rewrite bind_app, bind_singleton, Hm.
Qed.

Lemma groups_fold (messages : list Message.t) (acc : list Group.t * option nat) :
  current_is_last acc →
  (foldl groupStep acc messages).1 ≫= shown = (acc.1 ≫= shown) ++ messages.
Proof.
  revert acc. induction messages as [|m messages IH]; intros acc Hlast.
  - by rewrite app_nil_r.
  - destruct (groupStep_shown acc m Hlast) as [Hlast' Hshown].
    simpl. rewrite (IH _ Hlast'), Hshown. by rewrite <- (assoc_L (++)).
Qed.

(** X22.  The groups of [ChatPanel] show every message of the conversation
    once, in the order of the conversation: the messages of the groups, read
    group after group, are the messages. *)
Theorem groups_show_all_messages (messages : list Message.t) :
  groups messages ≫= shown = messages.
Proof.
  unfold groups. rewrite groups_fold; [done|]. by intros i [=].
Qed.

(** X23.  Every message of the user opens a group: there are as many groups
    with a user message as there are user messages, and a group without one
    holds exactly one answer. *)
Theorem groups_of_user_messages (messages : list Message.t) :
  length (filter (λ g, is_Some (Group.user g)) (groups messages))
  = length (filter (λ m, Message.sender m = user) messages)
  ∧ Forall (λ g, Group.user g = None → length (Group.ai g) = 1) (groups messages).
Proof.
  unfold groups.
  assert (∀ acc : list Group.t * option nat,
            current_is_last acc →
            (∀ i g, acc.2 = Some i → acc.1 !! i = Some g → is_Some (Group.user g)) →
            Forall (λ g, Group.user g = None → length (Group.ai g) = 1) acc.1 →
            length (filter (λ g, is_Some (Group.user g)) (foldl groupStep acc messages).1)
            = length (filter (λ g, is_Some (Group.user g)) acc.1)
              + length (filter (λ m, Message.sender m = user) messages)
            ∧ Forall (λ g, Group.user g = None → length (Group.ai g) = 1)
                (foldl groupStep acc messages).1) as Hgen.
  { induction messages as [|m messages IH]; intros acc Hlast Hcur Hall.
    - simpl. split; [lia|done].
    - simpl. destruct (groupStep_shown acc m Hlast) as [Hlast' _].
      destruct acc as [result current]. unfold current_is_last in Hlast.
      cbn [fst snd] in *.
      destruct (Message.sender m) eqn:Hsender.
      + rewrite filter_cons_True by done.
        assert (groupStep (result, current) m
                = (result ++ [Group.mk (Some (Message.text m)) []], Some (length result)))
          as Hstep by (unfold groupStep; by rewrite Hsender).
        rewrite Hstep in *.
        destruct (IH _ Hlast') as [Hlen Hall'].
        * intros i g [= <-]. cbn [fst]. rewrite lookup_app_r, Nat.sub_diag by done.
          intros [= <-]. by eexists.
        * cbn [fst]. apply Forall_app. split; [done|]. by constructor.
        * split; [|done]. rewrite Hlen. cbn [fst]. rewrite filter_app, length_app.
          rewrite filter_cons_True by (by eexists). simpl. lia.
      + rewrite filter_cons_False by (by rewrite Hsender).
        destruct current as [i|].
        * destruct (Hlast i eq_refl) as (gs & g & -> & ->).
          assert (is_Some (Group.user g)) as Hg.
          { apply (Hcur (length gs) g eq_refl).
            by rewrite lookup_app_r, Nat.sub_diag by done. }
          assert (groupStep (gs ++ [g], Some (length gs)) m
                  = (gs ++ [Group.mk (Group.user g) (Group.ai g ++ [Message.text m])],
                     Some (length gs))) as Hstep.
          { unfold groupStep. rewrite Hsender. cbn [fst snd].
            by rewrite alter_app_r_alt, Nat.sub_diag by done. }
          rewrite Hstep in *.
          apply Forall_app in Hall as [Hgs _].
          destruct (IH _ Hlast') as [Hlen Hall'].
          -- intros i g' [= <-]. cbn [fst]. rewrite lookup_app_r, Nat.sub_diag by done.
             by intros [= <-].
          -- cbn [fst]. apply Forall_app. split; [done|]. constructor; [|done].
             simpl. intros Hnone. rewrite Hnone in Hg. by destruct Hg.
          -- split; [|done]. rewrite Hlen. cbn [fst]. rewrite !filter_app, !length_app.
             rewrite !filter_cons_True by done. done.
        * assert (groupStep (result, None) m
                  = (result ++ [Group.mk None [Message.text m]], None))
            as Hstep by (unfold groupStep; by rewrite Hsender).
          rewrite Hstep in *.
          destruct (IH _ Hlast') as [Hlen Hall'].
          -- by intros i g [=].
          -- cbn [fst]. apply Forall_app. split; [done|]. by constructor.
          -- split; [|done]. rewrite Hlen. cbn [fst]. rewrite filter_app, length_app.
             rewrite filter_cons_False by (by intros [? [=]]). simpl. lia. }
  destruct (Hgen ([], None)) as [Hlen Hall]; [by intros i [=]|by intros i g [=]|done|].
  by split.
Qed.

End ChatFacts.

(** ** Search *)

Section SearchFacts.
Context {num : Type} (toLowerCase : string → string).
Implicit Types (s : Schema.t num) (t : Table.t num) (i : option string).

Lemma highlightColumns_spec (q : string) (cols : list Column.t)
    (acc : gset (option string)) (b : bool) :
  (∀ i, i ∈ (foldl (highlightColumn toLowerCase q) (acc, b) cols).1
        ↔ i ∈ acc ∨ ∃ col, col ∈ cols
                      ∧ matchesQuery toLowerCase q (Column.name col)
                      ∧ i = Column.id col)
  ∧ ((foldl (highlightColumn toLowerCase q) (acc, b) cols).2
     ↔ b ∨ Exists (λ col, matchesQuery toLowerCase q (Column.name col)) cols).
Proof.
  revert acc b. induction cols as [|col cols IH]; intros acc b.
  - simpl. split.
    + intros i. split; [by left|]. intros [?|(col & Hcol & _)]; [done|].
      by apply elem_of_nil in Hcol.
    + rewrite Exists_nil. tauto.
  - cbn [foldl]. unfold highlightColumn at 2 4.
    destruct (matchesQuery toLowerCase q (Column.name col)) eqn:Hmatch; cbn [fst snd].
    + destruct (IH ({[Column.id col]} ∪ acc) true) as [IH1 IH2]. split.
      * intros i. rewrite IH1, elem_of_union, elem_of_singleton. split.
        -- intros [[->|?]|(col' & Hcol' & Hm & ->)]; [right|by left|right].
           ++ exists col. split; [apply list_elem_of_here|]. by rewrite Hmatch.
           ++ exists col'. split; [by apply list_elem_of_further|done].
        -- intros [?|(col' & Hcol' & Hm & ->)]; [by left; right|].
           apply elem_of_cons in Hcol' as [->|Hcol']; [by left; left|].
           right. by exists col'.
      * rewrite IH2, Exists_cons, Hmatch. simpl. tauto.
    + destruct (IH acc b) as [IH1 IH2]. split.
      * intros i. rewrite IH1. split.
        -- intros [?|(col' & Hcol' & Hm & ->)]; [by left|right].
           exists col'. split; [by apply list_elem_of_further|done].
        -- intros [?|(col' & Hcol' & Hm & ->)]; [by left|].
           apply elem_of_cons in Hcol' as [->|Hcol']; [by rewrite Hmatch in Hm|].
           right. by exists col'.
      * rewrite IH2, Exists_cons, Hmatch. simpl. tauto.
Qed.

Lemma highlightTable_spec (q : string) t (acc : gset (option string)) i :
  i ∈ highlightTable toLowerCase q acc t
  ↔ i ∈ acc
    ∨ ((matchesQuery toLowerCase q (Table.name t)
        ∨ Exists (λ col, matchesQuery toLowerCase q (Column.name col)) (Table.columns t))
       ∧ (i = Table.id t
          ∨ ∃ col, col ∈ Table.columns t
              ∧ matchesQuery toLowerCase q (Column.name col)
              ∧ i = Column.id col)).
Proof.
  unfold highlightTable.
  destruct (highlightColumns_spec q (Table.columns t) acc false) as [Hids Hhas].
  destruct (foldl (highlightColumn toLowerCase q) (acc, false) (Table.columns t))
    as [ids has]. cbn [fst snd] in *.
  assert (has ↔ Exists (λ col, matchesQuery toLowerCase q (Column.name col))
                   (Table.columns t)) as Hhas' by (rewrite Hhas; simpl; tauto).
  assert ((∃ col, col ∈ Table.columns t ∧ matchesQuery toLowerCase q (Column.name col)
                  ∧ i = Column.id col) → has) as Hcol.
  { intros (col & Hcol & Hm & _). apply Hhas', Exists_exists. by exists col. }
  clear Hhas.
  destruct (matchesQuery toLowerCase q (Table.name t)), has; cbn [orb];
    rewrite ?elem_of_union, ?elem_of_singleton, Hids; simpl in *; tauto.
Qed.

Lemma highlightTables_spec (q : string) (tables : list (Table.t num))
    (acc : gset (option string)) i :
  i ∈ foldl (highlightTable toLowerCase q) acc tables
  ↔ i ∈ acc
    ∨ ∃ t, t ∈ tables
        ∧ (matchesQuery toLowerCase q (Table.name t)
           ∨ Exists (λ col, matchesQuery toLowerCase q (Column.name col)) (Table.columns t))
        ∧ (i = Table.id t
           ∨ ∃ col, col ∈ Table.columns t
               ∧ matchesQuery toLowerCase q (Column.name col)
               ∧ i = Column.id col).
Proof.
  revert acc. induction tables as [|t tables IH]; intros acc.
  - simpl. split; [by left|]. intros [?|(t & Ht & _)]; [done|].
    by apply elem_of_nil in Ht.
  - cbn [foldl]. rewrite IH, highlightTable_spec. split.
    + intros [[?|[Hshown Hi]]|(t' & Ht' & Hshown & Hi)]; [by left|right..].
      * exists t. split; [apply list_elem_of_here|done].
      * exists t'. split; [by apply list_elem_of_further|done].
    + intros [?|(t' & Ht' & Hshown & Hi)]; [by left; left|].
      apply elem_of_cons in Ht' as [->|Ht']; [by left; right|].
      right. by exists t'.
Qed.

(** X24.  Under a search query that is not empty, the highlighted
    identifiers are those of the tables that the explorer lists and of the
    columns of these tables whose name matches the query; so every table that
    the explorer lists is drawn at full opacity by the graph. *)
Theorem search_highlights_listed s (searchQuery : string) :
  truthy (Some searchQuery) →
  (∀ i, i ∈ highlightedIds toLowerCase (Some s) searchQuery
        ↔ ∃ t, t ∈ tablesToDisplay toLowerCase (Some s) searchQuery
            ∧ (i = Table.id t
               ∨ ∃ col, col ∈ Table.columns t
                   ∧ matchesQuery toLowerCase (toLowerCase searchQuery) (Column.name col)
                   ∧ i = Column.id col))
  ∧ ∀ t (d : GraphNode.t num),
      t ∈ tablesToDisplay toLowerCase (Some s) searchQuery →
      GraphNode.id d = Table.id t →
      dimmed searchQuery (highlightedIds toLowerCase (Some s) searchQuery) d = false.
Proof.
  intros Hq.
  assert (∀ i, i ∈ highlightedIds toLowerCase (Some s) searchQuery
        ↔ ∃ t, t ∈ tablesToDisplay toLowerCase (Some s) searchQuery
            ∧ (i = Table.id t
               ∨ ∃ col, col ∈ Table.columns t
                   ∧ matchesQuery toLowerCase (toLowerCase searchQuery) (Column.name col)
                   ∧ i = Column.id col)) as Hiff.
  { intros i. unfold highlightedIds, tablesToDisplay.
    destruct (truthy (Some searchQuery)); [|done]. cbn [negb].
    rewrite highlightTables_spec. split.
    - intros [Hi|(t & Ht & Hshown & Hi)]; [by apply elem_of_empty in Hi|].
      exists t. split; [|done]. by apply list_elem_of_filter.
    - intros (t & Ht & Hi). apply list_elem_of_filter in Ht as [Hshown Ht].
      right. by exists t. }
  split; [done|].
  intros t d Ht Hd. unfold dimmed. rewrite (bool_decide_eq_true_2 _).
  - by rewrite orb_true_r.
  - apply Hiff. exists t. split; [done|]. by left.
Qed.

(** X25.  The columns that the explorer lists under a table it displays: all
    the columns of the table when the query is empty or matches the name of
    the table, and otherwise the columns whose name matches, of which there
    is at least one. *)
Theorem search_lists_columns s (searchQuery : string) t :
  t ∈ tablesToDisplay toLowerCase (Some s) searchQuery →
  ((¬ truthy (Some searchQuery)
    ∨ matchesQuery toLowerCase (toLowerCase searchQuery) (Table.name t)) →
   columnsToDisplay toLowerCase searchQuery t = Table.columns t)
  ∧ (truthy (Some searchQuery) →
     ¬ matchesQuery toLowerCase (toLowerCase searchQuery) (Table.name t) →
     columnsToDisplay toLowerCase searchQuery t ≠ []
     ∧ ∀ col, col ∈ columnsToDisplay toLowerCase searchQuery t
              ↔ col ∈ Table.columns t
                ∧ matchesQuery toLowerCase (toLowerCase searchQuery) (Column.name col)).
Proof.
  intros Ht. split.
  - intros Hall. unfold columnsToDisplay. apply filter_all.
    apply Forall_forall. intros col _. destruct Hall as [Hempty|Hname].
    + left. by destruct (truthy (Some searchQuery)).
    + by right; right.
  - intros Hq Hname. unfold tablesToDisplay in Ht.
    destruct (truthy (Some searchQuery)) eqn:Eq; [|done]. cbn [negb] in Ht.
    apply list_elem_of_filter in Ht as [[Hn|Hex] Ht]; [done|].
    assert (∀ col, col ∈ columnsToDisplay toLowerCase searchQuery t
              ↔ col ∈ Table.columns t
                ∧ matchesQuery toLowerCase (toLowerCase searchQuery) (Column.name col))
      as Hiff.
    { intros col. unfold columnsToDisplay. rewrite list_elem_of_filter, Eq. simpl.
      tauto. }
    split; [|done].
    apply Exists_exists in Hex as (col & Hcol & Hm).
    intros Hnil. assert (col ∈ columnsToDisplay toLowerCase searchQuery t) as Hin
      by (by apply Hiff).
    rewrite Hnil in Hin. by apply elem_of_nil in Hin.
Qed.

End SearchFacts.

(** ** The canvas *)

Section CanvasFacts.
Context {num : Type}.

Lemma handleAddTable_activeTool (position : option (num * num))
    (nowId nowMessages nowCommit : Z) (st : App.t num) :
  App.activeTool (handleAddTable position nowId nowMessages nowCommit st)
  = App.activeTool st.
Proof.
  unfold handleAddTable. destruct (activeProject st) as [ap|] eqn:E; [|done].
  destruct (firstFree _ _ _ _); [|done].
  unfold commitSchemaChange. rewrite E. by case_decide.
Qed.

(** X27.  A click on the canvas with the add-table tool, in a state with an
    active project, places one table: the schema gains exactly one table,
    named with the first unused one of [new_table], [new_table_2], ..., at
    the position of the click; the tool becomes the select tool and the
    source of a connection is forgotten.  The click that follows it, on the
    canvas or anywhere else, changes nothing, and so does every click that is
    not on the canvas or comes with another tool: the tool places one table
    each time it is chosen. *)
Theorem canvas_click_places_one_table (position : num * num)
    (nowId nowMessages nowCommit : Z) (ui : App.t num * GraphState)
    (ap : Project.t num) :
  activeProject ui.1 = Some ap →
  App.activeTool ui.1 = addTable →
  (∃ counter,
     (1 ≤ counter)%nat
     ∧ (candidate "new_table" counter
        ∉ Table.name <$> Schema.tables (default (Schema.mk []) (Project.schema ap)))
     ∧ (∀ j, (1 ≤ j)%nat → j < counter →
          candidate "new_table" j
          ∈ Table.name <$> Schema.tables (default (Schema.mk []) (Project.schema ap)))
     ∧ activeSchema (canvasClick true position nowId nowMessages nowCommit ui).1
       = Some (Schema.mk
           (Schema.tables (default (Schema.mk []) (Project.schema ap))
            ++ [Table.mk
                  (Some ("table-" +:+ candidate "new_table" counter +:+ "-"
                         +:+ pretty nowId))
                  (candidate "new_table" counter)
                  [Column.mk
                     (Some (("table-" +:+ candidate "new_table" counter +:+ "-"
                             +:+ pretty nowId) +:+ "-col-id"))
                     "id" "INTEGER" true false None None ["NOT NULL"]]
                  (Some position.1) (Some position.2)])))
  ∧ App.activeTool (canvasClick true position nowId nowMessages nowCommit ui).1 = select
  ∧ connectionSource (canvasClick true position nowId nowMessages nowCommit ui).2 = None
  ∧ (∀ (onCanvas' : bool) (position' : num * num) (nowId' nowMessages' nowCommit' : Z),
       canvasClick onCanvas' position' nowId' nowMessages' nowCommit'
         (canvasClick true position nowId nowMessages nowCommit ui)
       = canvasClick true position nowId nowMessages nowCommit ui)
  ∧ (∀ (onCanvas' : bool) (position' : num * num) (nowId' nowMessages' nowCommit' : Z)
       (ui' : App.t num * GraphState),
       onCanvas' = false ∨ App.activeTool ui'.1 ≠ addTable →
       canvasClick onCanvas' position' nowId' nowMessages' nowCommit' ui' = ui').
Proof.
  intros E Htool.
  assert (canvasClick true position nowId nowMessages nowCommit ui
          = (setActiveTool select
               (handleAddTable (Some position) nowId nowMessages nowCommit ui.1),
             setConnectionSource None ui.2)) as Hclick.
  { unfold canvasClick. cbn [andb]. rewrite (bool_decide_eq_true_2 _ Htool).
    unfold switchTool. rewrite handleAddTable_activeTool, Htool.
    by rewrite decide_False. }
  assert (∀ (onCanvas' : bool) (position' : num * num) (nowId' nowMessages' nowCommit' : Z)
            (ui' : App.t num * GraphState),
            onCanvas' = false ∨ App.activeTool ui'.1 ≠ addTable →
            canvasClick onCanvas' position' nowId' nowMessages' nowCommit' ui' = ui')
    as Hidle.
  { intros onCanvas' position' nowId' nowMessages' nowCommit' ui' [->|Hother];
      unfold canvasClick; [done|].
    rewrite (bool_decide_eq_false_2 _ Hother). by rewrite andb_false_r. }
  split_and!.
  - set (tables := Schema.tables (default (Schema.mk []) (Project.schema ap))).
    destruct (table_name_loop_total tables "new_table") as [counter Hfree].
    pose proof (firstFree_Some _ _ _ _ _ Hfree) as (Hle & Hnot & Hbefore).
    exists counter. split; [done|].
    split; [by apply nameTaken_false|].
    split; [intros j Hj Hjk; by apply nameTaken_elem_of, Hbefore|].
    rewrite Hclick. cbn [fst].
    change (activeSchema (setActiveTool select ?st)) with (activeSchema st).
    by rewrite (handleAddTable_schema ui.1 ap (Some position) nowId nowMessages nowCommit
                  counter E Hfree).
  - by rewrite Hclick.
  - by rewrite Hclick.
  - intros. apply Hidle. right. by rewrite Hclick.
  - exact Hidle.
Qed.

End CanvasFacts.

(** ** The further properties on concrete inputs *)

Section FurtherInstances.
Import Examples DeriverExamples MutationExamples.

(** Adding a table to the blog schema commits. *)
Lemma edits_go_through_history_witness :
  ∃ ap', activeProject (perform mid (AddTable None 1 2 3) editing) = Some ap'
    ∧ ((Project.schema ap' = Some blog
        ∧ Project.undoStack ap' = [] ∧ Project.redoStack ap' = [])
       ∨ (Project.undoStack ap' = [Some blog] ∧ Project.redoStack ap' = [])).
Proof.
  exact (edits_go_through_history mid (AddTable None 1 2 3) editing
           (project (Some blog) [] []) I eq_refl).
Defined.

(** An undo in a project whose undo stack holds the empty schema. *)
Lemma history_timeline_witness :
  ∃ ap', activeProject (handleUndo 5 (app (Some blog) [None] [] select)) = Some ap'
    ∧ timeline ap' = [None; Some blog].
Proof.
  destruct (history_timeline (app (Some blog) [None] [] select)
              (project (Some blog) [None] []) eq_refl) as (Hundo & _ & _).
  destruct (Hundo 5%Z) as (ap' & E & Ht & _).
  exists ap'. split; [exact E|exact Ht].
Defined.

Lemma addTable_first_unused_name_witness :
  ∃ counter, (1 ≤ counter)%nat
    ∧ candidate "new_table" counter ∉ Table.name <$> Schema.tables blog.
Proof.
  destruct (addTable_first_unused_name editing (project (Some blog) [] []) None 1 2 3
              eq_refl) as (counter & Hle & Hnot & _).
  exists counter. split; [exact Hle|exact Hnot].
Defined.

Lemma addColumn_first_unused_name_witness :
  ∃ counter, (1 ≤ counter)%nat
    ∧ candidate "new_column" counter ∉ Column.name <$> Table.columns users.
Proof.
  destruct (addColumn_first_unused_name editing blog (Some "t1") 1 2 0 users
              eq_refl eq_refl) as (counter & Hle & Hnot & _).
  exists counter. split; [exact Hle|exact Hnot].
Defined.

(** A 1-to-N connection from [posts] to [users]. *)
Lemma addConnection_1_n_column_witness :
  ∃ counter, (1 ≤ counter)%nat
    ∧ candidate "users_id" counter ∉ Column.name <$> Table.columns posts.
Proof.
  destruct (addConnection_1_n_column mid editing blog (Some "t2") (Some "t1") 1 2 3 4
              1 posts users (idColumn "t1") eq_refl eq_refl eq_refl eq_refl)
    as (counter & Hle & Hnot & _).
  exists counter. split; [exact Hle|exact Hnot].
Defined.

(** An N-to-N connection between [users] and [posts]. *)
Lemma addConnection_n_n_collapses_witness :
  ∃ counter (junction : Table.t Z),
    Table.name junction = candidate "users_posts" counter
    ∧ activeSchema (handleAddConnection mid (Some "t1") (Some "t2") n_to_n 1 2 3 4 editing)
      = Some (Schema.mk (Schema.tables blog ++ [junction])).
Proof.
  destruct (addConnection_n_n_collapses mid editing blog (Some "t1") (Some "t2") 1 2 3 4
              users posts (idColumn "t1") (idColumn "t2")
              eq_refl eq_refl eq_refl eq_refl eq_refl)
    as (counter & junction & _ & Hname & _ & _ & _ & _ & _ & Hs & _).
  exists counter, junction. split; [exact Hname|exact Hs].
Defined.

(** Deleting [users] from the blog schema. *)
Lemma deleteTable_cascade_witness :
  handleDeleteTable (Some "t1") false 5 editing = editing
  ∧ ∃ schema', activeSchema (handleDeleteTable (Some "t1") true 5 editing) = Some schema'.
Proof.
  destruct (deleteTable_cascade editing blog (Some "t1") 5 users eq_refl eq_refl)
    as (Hno & schema' & Hs & _).
  split; [exact Hno|]. exists schema'. exact Hs.
Defined.

(** Deleting the column [label] of [tags], which no column references. *)
Lemma deleteColumn_unreferenced_witness :
  ∃ ap' schema',
    activeProject (handleDeleteColumn (Some "t3") (Some "c2") 5 editing) = Some ap'
    ∧ Project.schema ap' = Some schema'
    ∧ Project.undoStack ap' = [Some blog].
Proof.
  destruct (deleteColumn_unreferenced editing (project (Some blog) [] []) blog
              (Some "t3") (Some "c2") 5 tags
              (Column.mk (Some "c2") "label" "TEXT" false false None None [])
              eq_refl eq_refl eq_refl eq_refl)
    as (ap' & schema' & E & Hs & Hu & _).
  - intros t c Ht Hc.
    assert (Forall (λ t, Forall (λ c, ¬ references "tags" "label" c) (Table.columns t))
                   (Schema.tables blog)) as Hall
      by (apply (bool_decide_unpack _); vm_compute; exact I).
    rewrite Forall_forall in Hall. specialize (Hall t Ht).
    rewrite Forall_forall in Hall. exact (Hall c Hc).
  - exists ap', schema'. split; [exact E|]. split; [exact Hs|exact Hu].
Defined.

(** Renaming [users] to [members] in the blog schema. *)
Lemma rename_keeps_names_distinct_witness :
  ∃ schema',
    activeSchema (handleUpdateTable (Some "t1") "members" 5 editing) = Some schema'
    ∧ NoDup (Table.name <$> Schema.tables schema').
Proof.
  destruct (rename_keeps_names_distinct editing blog (Some "t1") "members" 5 users eq_refl)
    as (schema' & Hs & _ & Hnd).
  - intros H. apply (bool_decide_pack _) in H. vm_compute in H. exact H.
  - reflexivity.
  - discriminate.
  - apply (bool_decide_unpack _). vm_compute. exact I.
  - apply (bool_decide_unpack _). vm_compute. exact I.
  - exists schema'. split; [exact Hs|exact Hnd].
Defined.

(** Renaming the primary key [id] of [users] to [uid]. *)
Lemma updateColumn_propagates_witness :
  ∃ schema',
    activeSchema (handleUpdateColumnDetails (Some "t1") (Some "t1-col-id")
                    (Column.mk (Some "t1-col-id") "uid" "INTEGER" true false None None
                               ["NOT NULL"]) 5 editing) = Some schema'
    ∧ length (Schema.tables schema') = 3.
Proof.
  destruct (updateColumn_propagates editing blog (Some "t1") (Some "t1-col-id")
              (Column.mk (Some "t1-col-id") "uid" "INTEGER" true false None None
                         ["NOT NULL"]) 5 0 users eq_refl eq_refl) as [_ Hok].
  destruct (Hok ltac:(intros H; apply (bool_decide_pack _) in H; vm_compute in H; exact H)
              0 (idColumn "t1") eq_refl) as (schema' & Hs & Hlen & _).
  exists schema'. split; [exact Hs|exact Hlen].
Defined.

(** The table [courses] reconciled against a schema that has [students]
    only. *)
Lemma reconcile_unmatched_table_witness :
  ∃ t', Schema.tables
          (reconcileSchemaIds (Schema.mk [courses]) (Schema.mk [students]) 0).1 !! 0
        = Some t'
    ∧ ∃ n, Table.id t' = Some (mintTableId "courses" n).1.
Proof.
  destruct (reconcile_unmatched_table (Schema.mk [courses]) (Schema.mk [students]) 0 0
              courses eq_refl) as (t' & n & tableId & Ht' & _ & -> & Hid & _).
  - intros oldT Hin. apply list_elem_of_singleton in Hin as ->. discriminate.
  - exists t'. split; [exact Ht'|]. exists n. exact Hid.
Defined.

(** The column [id] of the regenerated table [students]. *)
Lemma reconcile_matched_column_witness :
  ∃ t', Schema.tables
          (reconcileSchemaIds (Schema.mk [movedStudents]) campus 0).1 !! 0 = Some t'
    ∧ Table.columns t' !! 0 = Some (idColumn "t1").
Proof.
  exact (reconcile_matched_column (Schema.mk [movedStudents]) campus 0 0 0
           movedStudents students (idColumn "t1") (idColumn "t1")
           eq_refl eq_refl eq_refl eq_refl I).
Defined.

(** An import whose text decodes to the campus schema, with the identity
    for [trim]. *)
Lemma import_commits_schema_witness :
  ∃ ap' schema',
    activeProject (handleImportBase64 (λ s, s) (λ _, Some campus) "eJw" 1 2 3 editing 0).1 = Some ap'
    ∧ Project.schema ap' = Some schema'
    ∧ needsIds schema' = false.
Proof.
  destruct (import_commits_schema (λ s, s) (λ _, Some campus) "eJw" 1 2 3 editing
              (project (Some blog) [] []) campus 0 eq_refl I eq_refl)
    as (ap' & schema' & E & Hs & Hids & _).
  exists ap', schema'. split; [exact E|]. split; [exact Hs|exact Hids].
Defined.

(** An import whose text does not decode. *)
Lemma import_failure_drops_schema_witness :
  activeProject (handleImportBase64 (λ s, s) (λ _, None) "eJw" 1 2 3 editing 0).1
  = Some (Project.mk "p1" "My First Schema" None [] EmptyString [] [] 3).
Proof.
  exact (proj1 (import_failure_drops_schema (λ s, s) (λ _, None) "eJw" 1 2 3 editing
                  (project (Some blog) [] []) 0 eq_refl I eq_refl)).
Defined.

(** A second project, created at the clock reading 7. *)
Lemma createProject_becomes_active_witness :
  activeProject (handleCreateProject 7 8 editing)
  = Some (freshProject 7 "Untitled Schema 2" 8).
Proof.
  refine (proj2 (createProject_becomes_active 7 8 editing _)).
  intros p Hp. apply list_elem_of_singleton in Hp as ->. discriminate.
Defined.

(** Start-up with two stored projects and a stored identifier that no
    project has: the first project is the active one. *)
Lemma loadProjects_active_witness :
  activeProject
    (loadProjects (Parsed [project None [] []; freshProject 7 "Untitled Schema 2" 8])
                  (Some "proj-9") 1 2 initialApp)
  = Some (project None [] []).
Proof.
  destruct (loadProjects_active [project None [] []; freshProject 7 "Untitled Schema 2" 8]
              (Some "proj-9") 1 2 initialApp ltac:(discriminate))
    as (_ & _ & Hfirst & _).
  apply Hfirst. intros (_ & q & Hq & Hid).
  apply elem_of_cons in Hq as [->|Hq]; [discriminate Hid|].
  apply list_elem_of_singleton in Hq as ->. discriminate Hid.
Defined.

(** The query [user] in the blog schema, with the identity for
    [toLowerCase]. *)
Lemma search_highlights_listed_witness :
  Some "t1" ∈ highlightedIds (λ s, s) (Some blog) "user".
Proof.
  apply (proj1 (search_highlights_listed (λ s, s) blog "user" I)).
  exists users. split; [|left; reflexivity].
  apply list_elem_of_filter. split; [left; vm_compute; exact I|].
  apply list_elem_of_here.
Defined.

(** A click on the canvas at (10, 20) with the add-table tool, in the blog
    schema. *)
Lemma canvas_click_places_one_table_witness :
  App.activeTool
    (canvasClick true (10, 20)%Z 1 2 3
       (app (Some blog) [] [] addTable, mkGraphState (Some "t1") None)).1 = select
  ∧ connectionSource
      (canvasClick true (10, 20)%Z 1 2 3
         (app (Some blog) [] [] addTable, mkGraphState (Some "t1") None)).2 = None.
Proof.
  destruct (canvas_click_places_one_table (10, 20)%Z 1 2 3
              (app (Some blog) [] [] addTable, mkGraphState (Some "t1") None)
              (project (Some blog) [] []) eq_refl eq_refl) as (_ & Htool & Hsource & _).
  split; [exact Htool|exact Hsource].
Defined.

Lemma search_lists_columns_witness :
  columnsToDisplay (λ s, s) "user" users = Table.columns users.
Proof.
  refine (proj1 (search_lists_columns (λ s, s) blog "user" users _) _).
  - apply list_elem_of_filter. split; [left; vm_compute; exact I|].
    apply list_elem_of_here.
  - right. vm_compute. exact I.
Defined.

End FurtherInstances.

(** ** The 1-to-N links of the graph *)

Section OneToN.
Context {num : Type}.
Implicit Types (s : Schema.t num) (t target : Table.t num).

(** X26.  In a schema whose table identifiers are pairwise distinct, the
    1-to-N links of the derived graph are exactly the links from a table
    that has a node to a table that has a node, one for each foreign-key
    column of the first whose target name is not empty and is the name of the
    second (the last table of that name).  Both ends of a 1-to-N link are
    nodes of the graph. *)
Theorem one_to_n_links_join_nodes s :
  NoDup (Table.id <$> Schema.tables s) →
  ∃ g, derive (Some s) = Some g
    ∧ (∀ l, l ∈ Graph.links g → GraphLink.type l = one_to_n →
         ∃ t (c : Column.t) target,
           t ∈ Schema.tables s ∧ c ∈ Table.columns t
           ∧ Column.isForeignKey c ∧ truthy (Column.foreignKeyTable c)
           ∧ Map_get (Map_of Table.name (Schema.tables s)) (Column.foreignKeyTable c)
             = Some target
           ∧ target ∈ Schema.tables s
           ∧ l = GraphLink.mk (Table.id t) (Table.id target) one_to_n
           ∧ toNode t ∈ Graph.nodes g ∧ toNode target ∈ Graph.nodes g)
    ∧ (∀ t (c : Column.t) target,
         t ∈ Schema.tables s → c ∈ Table.columns t →
         Column.isForeignKey c → truthy (Column.foreignKeyTable c) →
         Map_get (Map_of Table.name (Schema.tables s)) (Column.foreignKeyTable c)
           = Some target →
         toNode t ∈ Graph.nodes g → toNode target ∈ Graph.nodes g →
         GraphLink.mk (Table.id t) (Table.id target) one_to_n ∈ Graph.links g).
Proof.
  intros Hnd. destruct (derive_Some s Hnd) as (jl & Hjl & Hg).
  eexists. split; [exact Hg|]. cbn [Graph.links Graph.nodes].
  set (m := Map_of Table.name (Schema.tables s)) in *.
  set (jIds := junctionTableIds s) in *.
  assert (∀ t, t ∈ Schema.tables s → Table.id t ∉ jIds →
               toNode t ∈ toNode <$> filter (λ table, Table.id table ∉ jIds)
                                            (Schema.tables s)) as Hnode.
  { intros t Ht Hnot. apply list_elem_of_fmap_2. by apply list_elem_of_filter. }
  assert (∀ t, toNode t ∈ toNode <$> filter (λ table, Table.id table ∉ jIds)
                                            (Schema.tables s) →
               Table.id t ∉ jIds) as Hnode'.
  { intros t (t' & Heq & Ht')%list_elem_of_fmap.
    apply list_elem_of_filter in Ht' as [Hnot _].
    by replace (Table.id t) with (Table.id t') by (by injection Heq). }
  split.
  - intros l Hl Htype. apply elem_of_app in Hl as [Hl|Hl].
    { pose proof (junctionLinks_n_to_n s m jIds jl Hjl) as Hall.
      rewrite Forall_forall in Hall. rewrite (Hall l Hl) in Htype. done. }
    apply list_elem_of_bind in Hl as (t & Hl & Ht). unfold tableLinks in Hl.
    case_decide as Hsrc; [by apply elem_of_nil in Hl|].
    apply list_elem_of_bind in Hl as (c & Hl & Hc). unfold columnLink in Hl.
    destruct (Column.isForeignKey c) eqn:Hfk; [|by apply elem_of_nil in Hl].
    destruct (truthy (Column.foreignKeyTable c)) eqn:Htruthy;
      [|by apply elem_of_nil in Hl].
    cbn [andb] in Hl.
    destruct (Map_get m (Column.foreignKeyTable c)) as [target|] eqn:Hm;
      [|by apply elem_of_nil in Hl].
    case_decide as Htgt; [by apply elem_of_nil in Hl|].
    apply list_elem_of_singleton in Hl as ->.
    pose proof (Map_get_elem_of _ _ _ Hm) as Htarget.
    exists t, c, target. rewrite Hfk, Htruthy. split_and!; try done; by apply Hnode.
  - intros t c target Ht Hc Hfk Htruthy Hm Hsrc Htgt.
    apply elem_of_app. right. apply list_elem_of_bind. exists t. split; [|done].
    unfold tableLinks. rewrite decide_False by by apply Hnode'.
    apply list_elem_of_bind. exists c. split; [|done].
    unfold columnLink. destruct (Column.isForeignKey c); [|done].
    destruct (truthy (Column.foreignKeyTable c)); [|done]. cbn [andb].
    fold m. rewrite Hm. rewrite decide_False by by apply Hnode'.
    apply list_elem_of_here.
Qed.

End OneToN.

Section OneToNInstance.
Import Examples DeriverExamples.

(** The link from [grades] to [students] in the school schema. *)
Lemma one_to_n_links_join_nodes_witness :
  ∃ g, derive (Some school) = Some g
    ∧ (GraphLink.mk (Some "t4") (Some "t1") one_to_n ∈ Graph.links g →
       toNode grades ∈ Graph.nodes g).
Proof.
  destruct (one_to_n_links_join_nodes school school_ids_NoDup) as (g & Hg & Hlinks & _).
  exists g. split; [exact Hg|]. intros Hl.
  destruct (Hlinks _ Hl eq_refl) as (t & c & target & Ht & _ & _ & _ & _ & _ & Heq & Hn & _).
  injection Heq as Hid _.
  unfold school in Ht. simpl in Ht.
  repeat (apply elem_of_cons in Ht as [->|Ht]; [try discriminate Hid; try exact Hn|]).
  by apply elem_of_nil in Ht.
Defined.

End OneToNInstance.
